(** * Conformal calibration core of the RUL prognostics pipeline

    A shallow embedding of the conformal part of [CPdM_pipeline.py]
    (class [ExperimentPipeline]): prediction post-processing, interval
    construction, margin estimators, the coverage evaluation and the
    best-model guard, together with the properties the design document
    states about them.

    Numbers.  A finite float64 is a rational, and comparison, [np.clip],
    [abs], selection by index and sorting are exact on finite floats, so
    finite values are embedded as [Q].  Where the code can meet a
    non-finite value (an S-score, the mean of an empty array, a standard
    deviation with no degrees of freedom or one that overflows) the value
    is an [np_float].  Sums, differences and products of floats round:
    the model computes them exactly, follows them by [overflow] where the
    result can leave the float range, and the statements about them are
    statements of order and range, which rounding to nearest keeps, not
    of exact value.  Library functions that are not rational ([np.exp],
    [np.sqrt], [scipy.stats.norm.ppf]) and the random generator are
    parameters of the sections that use them. *)

From Stdlib Require Import String.
From Stdlib Require Import QArith Qabs Qround Qminmax ZArith List Bool Lia Lqa.
From Stdlib Require Import Permutation.
Import ListNotations.
Open Scope Q_scope.

(** ** Comparisons and clipping on finite values *)

(** [x < y] as the boolean the Python comparison returns. *)
Definition Qltb (x y : Q) : bool := negb (Qle_bool y x).

(** [np.clip(x, 0, None)] on one value. *)
Definition np_clip0 (x : Q) : Q := if Qltb x 0 then 0 else x.

(** [np.clip(a, 0, None)] on an array. *)
Definition clip0 (a : list Q) : list Q := map np_clip0 a.

(** ** Prediction post-processing *)

(** The loop
<<
    for i in range(1, len(preds)):
        if preds[i] > preds[i-1]:
            preds[i] = preds[i-1]
>>
    mutates the array in place, so [preds[i-1]] is the value already
    written; [prev] carries it. *)
Fixpoint monotone_from (prev : Q) (l : list Q) : list Q :=
  match l with
  | [] => []
  | x :: r =>
      let x' := if Qltb prev x then prev else x in
      x' :: monotone_from x' r
  end.

Definition enforce_monotonic (preds : list Q) : list Q :=
  match preds with
  | [] => []
  | x :: r => x :: monotone_from x r
  end.

(** [evaluate_conformal_metrics_per_unit], [plot_conformal_multiple_units]
    and the single-unit block: the loop on the raw predictions, then
    [np.clip(preds, 0, None)]. *)
Definition postprocess_unit (raw : list Q) : list Q :=
  clip0 (enforce_monotonic raw).

(** [plot_conformal_prediction_interval]:
    [tpreds = np.clip(model_predict_fn(X_test), 0, None)], then the loop. *)
Definition postprocess_global (raw : list Q) : list Q :=
  enforce_monotonic (clip0 raw).

(** The four places that post-process predictions, and the statements
    each one runs, in program order. *)
Inductive pp_step : Type := MonotonePass | ClampZero.

Inductive pp_site : Type :=
| GlobalInterval    (* plot_conformal_prediction_interval *)
| SingleUnit        (* the single-unit block (lines 985-990) *)
| PerUnitMetrics    (* evaluate_conformal_metrics_per_unit *)
| MultipleUnits.    (* plot_conformal_multiple_units *)

Definition site_steps (s : pp_site) : list pp_step :=
  match s with
  | GlobalInterval => [ClampZero; MonotonePass]
  | SingleUnit => [MonotonePass; ClampZero]
  | PerUnitMetrics => [MonotonePass; ClampZero]
  | MultipleUnits => [MonotonePass; ClampZero]
  end.

Definition run_step (s : pp_step) (a : list Q) : list Q :=
  match s with
  | MonotonePass => enforce_monotonic a
  | ClampZero => clip0 a
  end.

Definition run_steps (ss : list pp_step) (a : list Q) : list Q :=
  fold_left (fun acc s => run_step s acc) ss a.

Definition postprocess_at (s : pp_site) (raw : list Q) : list Q :=
  run_steps (site_steps s) raw.

(** Properties of a trajectory, by index as the data model states them. *)
Definition non_increasing (t : list Q) : Prop :=
  forall i, (0 < i < length t)%nat -> nth i t 0 <= nth (i - 1) t 0.

Definition non_negative (t : list Q) : Prop :=
  forall i, (i < length t)%nat -> 0 <= nth i t 0.

(** The same, by recursion on the list. *)
Fixpoint below (prev : Q) (l : list Q) : Prop :=
  match l with
  | [] => True
  | x :: r => x <= prev /\ below x r
  end.

Definition descending (l : list Q) : Prop :=
  match l with
  | [] => True
  | x :: r => below x r
  end.

(** ** Interval builder *)

(** [lower = np.clip(preds - margin, 0, None)], [upper = preds]. *)
Definition interval_lower (margin : Q) (preds : list Q) : list Q :=
  clip0 (map (fun p => p - margin) preds).

Definition interval_upper (preds : list Q) : list Q := preds.

(** ** Values that may be non-finite *)

Inductive np_float : Type :=
| Finite (q : Q)
| PosInf
| NegInf
| NaN.

Definition np_isinf (x : np_float) : bool :=
  match x with
  | PosInf | NegInf => true
  | Finite _ | NaN => false
  end.

Definition np_isfinite (x : np_float) : bool :=
  match x with
  | Finite _ => true
  | PosInf | NegInf | NaN => false
  end.

(** Python's [a < b] on floats: false as soon as one side is NaN. *)
Definition float_lt (a b : np_float) : bool :=
  match a, b with
  | NaN, _ | _, NaN => false
  | Finite x, Finite y => Qltb x y
  | _, NegInf => false
  | NegInf, _ => true
  | PosInf, _ => false
  | Finite _, PosInf => true
  end.

(** A finite value that is at least zero: what the design calls a margin. *)
Definition finite_nonneg (x : np_float) : Prop :=
  match x with
  | Finite q => 0 <= q
  | PosInf | NegInf | NaN => False
  end.

(** ** The numpy operations the estimators use *)

Definition of_nat (n : nat) : Q := inject_Z (Z.of_nat n).

Definition np_sum (a : list Q) : Q := fold_right Qplus 0 a.

(** [np.mean]: NaN (and a warning, no exception) on an empty array. *)
Definition np_mean (a : list Q) : np_float :=
  match a with
  | [] => NaN
  | _ :: _ => Finite (np_sum a / of_nat (length a))
  end.

(** ** Overflow

    Finite floats are rationals and an operation on them is the exact
    operation.  Where a result of the margin estimators can leave the
    range of float64, the model says so: beyond [float_max], the largest
    finite float64, the result is an infinity. *)
Definition float_max : Q := inject_Z (2 ^ 1024 - 2 ^ 971).

(** [2^512], whose square is just above [float_max]. *)
Definition root_of_float_max : Q := inject_Z (2 ^ 512).

Definition overflow (x : Q) : np_float :=
  if Qltb float_max x then PosInf
  else if Qltb x (- float_max) then NegInf
  else Finite x.

(** [np.add.reduce] from [acc] on: a running sum that has overflowed
    stays infinite. *)
Fixpoint sum_overflow (acc : Q) (a : list Q) : np_float :=
  match a with
  | [] => Finite acc
  | x :: r =>
      match overflow (acc + x) with
      | Finite s => sum_overflow s r
      | PosInf => PosInf
      | NegInf => NegInf
      | NaN => NaN
      end
  end.

Section Sorting.
Context {A : Type} (key : A -> Q).

Fixpoint insert_by (x : A) (l : list A) : list A :=
  match l with
  | [] => [x]
  | y :: r => if Qle_bool (key x) (key y) then x :: y :: r
              else y :: insert_by x r
  end.

(** Ascending by [key]; elements with equal keys keep their order. *)
Definition sort_by (l : list A) : list A := fold_right insert_by [] l.

End Sorting.

Definition np_sort (a : list Q) : list Q := sort_by (fun x => x) a.

(** [np.argsort(a)]: the original positions, in ascending order of value. *)
Definition np_argsort (a : list Q) : list nat :=
  map snd (sort_by fst (combine a (seq 0 (length a)))).

(** [a[idx]] for an index array [idx]. *)
Definition np_take (a : list Q) (idx : list nat) : list Q :=
  map (fun i => nth i a 0) idx.

Fixpoint cumsum_from (acc : Q) (a : list Q) : list Q :=
  match a with
  | [] => []
  | x :: r => (acc + x) :: cumsum_from (acc + x) r
  end.

Definition np_cumsum (a : list Q) : list Q :=
  match a with
  | [] => []
  | x :: r => x :: cumsum_from x r
  end.

(** [np.searchsorted(a, v)] (side left) on an ascending array: the first
    index [i] with [v <= a[i]], or [len(a)] when there is none. *)
Fixpoint np_searchsorted (a : list Q) (v : Q) : nat :=
  match a with
  | [] => 0
  | x :: r => if Qltb x v then S (np_searchsorted r v) else 0
  end.

(** [np.quantile(a, q)], linear interpolation between order statistics. *)
Definition np_quantile (a : list Q) (q : Q) : Q :=
  let s := np_sort a in
  let n := length a in
  let virtual := q * of_nat (n - 1) in
  let lo := Z.to_nat (Qfloor virtual) in
  let gamma := virtual - inject_Z (Qfloor virtual) in
  let hi := Nat.min (lo + 1) (n - 1) in
  nth lo s 0 + gamma * (nth hi s 0 - nth lo s 0).

(** [np.median] of a non-empty array of finite values. *)
Definition np_median (a : list Q) : Q :=
  let s := np_sort a in
  let n := length a in
  if Nat.even n then (nth (n / 2 - 1) s 0 + nth (n / 2) s 0) / 2
  else nth (n / 2) s 0.

(** The middle one of three floats none of which is NaN, infinities
    included. *)
Definition middle_of_three (a b c : np_float) : np_float :=
  if float_lt b a
  then (if float_lt c b then b else if float_lt c a then c else a)
  else (if float_lt c a then a else if float_lt c b then c else b).

(** [np.median([a, b, c])]: NaN as soon as an entry is NaN; otherwise the
    middle value, which may be an infinity. *)
Definition np_median3 (a b c : np_float) : np_float :=
  match a, b, c with
  | Finite x, Finite y, Finite z => Finite (np_median [x; y; z])
  | NaN, _, _ | _, NaN, _ | _, _, NaN => NaN
  | _, _, _ => middle_of_three a b c
  end.

(** [train_residuals = y - np.clip(preds, 0, None)] and their absolute
    values; [y] and [preds] are aligned by row. *)
Definition residuals (y preds : list Q) : list Q :=
  map (fun yp => fst yp - snd yp) (combine y (clip0 preds)).

Definition absolute_residuals (y preds : list Q) : list Q :=
  map Qabs (residuals y preds).

(** ** Margin estimators *)

Definition naive_quantile_margin (alpha : Q) (abs_res : list Q) : Q :=
  np_quantile abs_res (1 - alpha).

Section Estimators.

(** [np.exp], [np.sqrt] and [scipy.stats.norm.ppf] on the arguments the
    estimators pass them. *)
Variable np_exp : Q -> Q.
Variable np_sqrt : Q -> Q.
Variable norm_ppf : Q -> Q.

(** The generator: [np.random.default_rng(seed)] and
    [rng.choice(a, size=n, replace=True)], which returns the sample and
    advances the generator. *)
Variable rng : Type.
Variable default_rng : Z -> rng.
Variable rng_choice : rng -> list Q -> nat -> list Q * rng.

(** [weights = np.exp(np.arange(n) / (n/5.0))]. *)
Definition exp_weights (n : nat) : list Q :=
  map (fun k => np_exp (of_nat k / (of_nat n / 5))) (seq 0 n).

(** [weighted_exponential_margin] of the global path and [weighted_margin]
    of the unit paths: the same statements on the absolute residuals. *)
Definition weighted_exponential_margin (alpha : Q) (abs_res : list Q) : Q :=
  let n := length abs_res in
  let sorted_res := np_sort abs_res in
  let weights := exp_weights n in
  let w_sorted_idx := np_argsort abs_res in
  let w_sorted := np_take weights w_sorted_idx in
  let cdf := np_cumsum w_sorted in
  let total_w := last cdf 0 in
  let cutoff := (1 - alpha) * total_w in
  let idx := np_searchsorted cdf cutoff in
  let idx := Nat.min idx (n - 1) in
  nth idx sorted_res 0.

(** The loop [for _ in range(B)] with the generator threaded through. *)
Fixpoint bootstrap_samples (B : nat) (g : rng) (abs_res : list Q) (q_level : Q)
  : list Q :=
  match B with
  | O => []
  | S B' =>
      let '(sample, g') := rng_choice g abs_res (length abs_res) in
      np_quantile sample q_level :: bootstrap_samples B' g' abs_res q_level
  end.

(** [bootstrap_margin] of the global path: [float(np.mean(samples))]. *)
Definition bootstrap_margin_mean (random_state : Z) (alpha : Q) (B : nat)
  (abs_res : list Q) : np_float :=
  np_mean (bootstrap_samples B (default_rng random_state) abs_res (1 - alpha)).

(** [bootstrap_margin] of the unit paths: [float(np.median(samples))]. *)
Definition bootstrap_margin_median (random_state : Z) (alpha : Q) (B : nat)
  (abs_res : list Q) : Q :=
  np_median (bootstrap_samples B (default_rng random_state) abs_res (1 - alpha)).

(** [np.std(res, ddof=1)]: the sum of squared deviations over [n - 1];
    with no degree of freedom left ([n <= 1]) numpy divides by zero and
    returns NaN with a warning.  When the sum of the values or the sum of
    the squared deviations overflows, the result is plus infinity (an
    infinite mean makes every deviation infinite). *)
Definition np_std_ddof1 (res : list Q) : np_float :=
  let n := length res in
  if (n <=? 1)%nat then NaN
  else
    match sum_overflow 0 res with
    | Finite s =>
        let m := s / of_nat n in
        match sum_overflow 0 (map (fun v => (v - m) * (v - m)) res) with
        | Finite v => Finite (np_sqrt (v / of_nat (n - 1)))
        | PosInf | NegInf | NaN => PosInf
        end
    | PosInf | NegInf | NaN => PosInf
    end.

(** [parametric_margin]: [norm.ppf(1 - alpha) * np.std(res, ddof=1)]; an
    infinite deviation times zero is NaN. *)
Definition parametric_margin (alpha : Q) (res : list Q) : np_float :=
  let z := norm_ppf (1 - alpha) in
  match np_std_ddof1 res with
  | Finite sigma => overflow (z * sigma)
  | PosInf => if Qltb 0 z then PosInf else if Qltb z 0 then NegInf else NaN
  | NegInf => if Qltb 0 z then NegInf else if Qltb z 0 then PosInf else NaN
  | NaN => NaN
  end.

End Estimators.

(** ** The weighted estimator, restated

    Two readings of "exponential weights", each with the cumulative sums,
    the cutoff and the clamped index of the estimator. *)

Section WeightedReadings.

Variable np_exp : Q -> Q.

(** The residual at position [k] of the array paired with
    [exp(k / (n/5))]. *)
Definition weighted_pairs (abs_res : list Q) : list (Q * Q) :=
  combine abs_res (exp_weights np_exp (length abs_res)).

(** Weights by original position: the pairs are sorted by residual, so
    each weight travels with the residual it was given to. *)
Definition position_weighted_margin (alpha : Q) (abs_res : list Q) : Q :=
  let n := length abs_res in
  let sorted := sort_by fst (weighted_pairs abs_res) in
  let cdf := np_cumsum (map snd sorted) in
  let cutoff := (1 - alpha) * last cdf 0 in
  nth (Nat.min (np_searchsorted cdf cutoff) (n - 1)) (map fst sorted) 0.

(** Weights by rank, as the design document words it: the [k]-th smallest
    residual has weight [exp(k / (n/5))]. *)
Definition rank_weighted_margin (alpha : Q) (abs_res : list Q) : Q :=
  let n := length abs_res in
  let sorted_res := np_sort abs_res in
  let cdf := np_cumsum (exp_weights np_exp n) in
  let cutoff := (1 - alpha) * last cdf 0 in
  nth (Nat.min (np_searchsorted cdf cutoff) (n - 1)) sorted_res 0.

End WeightedReadings.

(** ** Executable stand-ins for the library functions

    Used to run the estimators on concrete inputs.  The theorems below
    never depend on them: they quantify over the library functions and
    state what they assume about them. *)

(** Partial sums of the exponential series. *)
Fixpoint exp_terms (fuel k : nat) (term x : Q) : Q :=
  match fuel with
  | O => 0
  | S fuel' => term + exp_terms fuel' (S k) (Qred (term * x / of_nat (S k))) x
  end.

(** Thirty terms: within [1e-11] of the exponential on [0, 5], where the
    arguments [k / (n/5)] of the weights lie. *)
Definition exp_series (x : Q) : Q := Qred (exp_terms 30 0 1 x).

(** Square root to six decimals. *)
Definition sqrt_digits (x : Q) : Q :=
  inject_Z (Z.sqrt (Qnum x * Zpos (Qden x) * 10 ^ 12))
  / inject_Z (Zpos (Qden x) * 10 ^ 6).

(** Standard normal quantiles to four decimals at the usual levels,
    linear in between, odd around one half. *)
Definition ppf_points : list (Q * Q) :=
  [ (1 # 2, 0); (6 # 10, 2533 # 10000); (7 # 10, 5244 # 10000);
    (8 # 10, 8416 # 10000); (9 # 10, 12816 # 10000);
    (95 # 100, 16449 # 10000); (975 # 1000, 19600 # 10000);
    (99 # 100, 23263 # 10000) ].

Fixpoint ppf_interp (x0 y0 : Q) (pts : list (Q * Q)) (p : Q) : Q :=
  match pts with
  | [] => y0
  | (x1, y1) :: rest =>
      if Qle_bool p x1 then y0 + (p - x0) / (x1 - x0) * (y1 - y0)
      else ppf_interp x1 y1 rest p
  end.

Definition ppf_upper (p : Q) : Q := ppf_interp (1 # 2) 0 (tl ppf_points) p.

Definition ppf_table (p : Q) : Q :=
  if Qltb p (1 # 2) then - ppf_upper (1 - p) else ppf_upper p.

(** A linear congruential generator; [choice] draws [n] indices into [a],
    one per step of the generator. *)
Definition lcg_next (g : Z) : Z := ((1103515245 * g + 12345) mod 2147483648)%Z.

Fixpoint lcg_choice (g : Z) (a : list Q) (n : nat) : list Q * Z :=
  match n with
  | O => ([], g)
  | S n' =>
      let g' := lcg_next g in
      let x := nth (Z.to_nat (g' mod Z.of_nat (length a))) a 0 in
      let '(rest, g'') := lcg_choice g' a n' in
      (x :: rest, g'')
  end.

Definition lcg_seed (seed : Z) : Z := (seed mod 2147483648)%Z.

(** ** Coverage and quality evaluation *)

Record report : Type := mk_report {
  rep_margin : np_float;
  rep_coverage : np_float;
  rep_avg_width : np_float;
  rep_index_diff : Z
}.

(** One entry of [(y >= lower) & (y <= upper)], as the 0/1 that
    [np.mean] averages. *)
Definition covered (y lower upper : Q) : Q :=
  if Qle_bool lower y && Qle_bool y upper then 1 else 0.

Definition coverage_of (y lower upper : list Q) : np_float :=
  np_mean (map (fun e => covered (fst e) (fst (snd e)) (snd (snd e)))
               (combine y (combine lower upper))).

Definition avg_width_of (lower upper : list Q) : np_float :=
  np_mean (map (fun e => snd e - fst e) (combine lower upper)).

(** [np.where(a <= 0)[0][0]] when there is such an index. *)
Fixpoint first_nonpositive (a : list Q) : option nat :=
  match a with
  | [] => None
  | x :: r => if Qle_bool x 0 then Some O
              else option_map S (first_nonpositive r)
  end.

Definition index_or_last (a : list Q) : Z :=
  match first_nonpositive a with
  | Some i => Z.of_nat i
  | None => (Z.of_nat (length a) - 1)%Z
  end.

Definition compute_index_difference (lower_bounds actual : list Q) : Z :=
  Z.abs (index_or_last lower_bounds - index_or_last actual).

(** Coverage, width and index difference of the interval
    [[clip(preds - margin), preds]] against [y].  With a NaN margin the
    lower bounds are NaN: no comparison with them holds and the width is
    NaN.  With a margin of plus infinity every difference is minus
    infinity and is clipped to zero; with minus infinity the lower
    bounds are plus infinity: nothing is covered and the width is minus
    infinity. *)
Definition interval_report (margin : np_float) (preds y : list Q) : report :=
  match margin with
  | Finite m =>
      let lower := interval_lower m preds in
      let upper := interval_upper preds in
      mk_report margin (coverage_of y lower upper) (avg_width_of lower upper)
                (compute_index_difference lower y)
  | PosInf =>
      let lower := map (fun _ => 0) preds in
      let upper := interval_upper preds in
      mk_report margin (coverage_of y lower upper) (avg_width_of lower upper)
                (compute_index_difference lower y)
  | NegInf =>
      mk_report margin
                (np_mean (map (fun _ => 0) (combine y preds)))
                (match preds with [] => NaN | _ :: _ => NegInf end)
                (Z.abs ((Z.of_nat (length preds) - 1) - index_or_last y))
  | NaN =>
      mk_report margin
                (np_mean (map (fun _ => 0) (combine y preds)))
                NaN
                (Z.abs ((Z.of_nat (length preds) - 1) - index_or_last y))
  end.

(** ** Choosing the model *)

Record metrics : Type := mk_metrics {
  MSE : np_float;
  MAE : np_float;
  RMSE : np_float;
  R2 : np_float;
  S_score : np_float
}.

(** Python's [min(iterable, key=...)]: the first item is kept until a
    later one has a strictly smaller key. *)
Fixpoint py_min_from {A : Type} (key : A -> np_float) (best : A)
  (rest : list A) : A :=
  match rest with
  | [] => best
  | x :: r => if float_lt (key x) (key best) then py_min_from key x r
              else py_min_from key best r
  end.

(** Python's [max(iterable, key=...)]. *)
Fixpoint py_max_from {A : Type} (key : A -> np_float) (best : A)
  (rest : list A) : A :=
  match rest with
  | [] => best
  | x :: r => if float_lt (key best) (key x) then py_max_from key x r
              else py_max_from key best r
  end.

Inductive selection : Type :=
| NoResults                  (* results_metrics is empty *)
| NoValidModel               (* "Could not identify a valid 'best' model" *)
| BestModel (name : string).

(** The guard every conformal entry point starts with:
<<
    best_model_name = min(self.results_metrics, key=... S-score ...)
    if np.isinf(best_model_metrics["S-score"]): print(...); return
>>
    [results_metrics] is the dict in insertion order. *)
Definition select_best_model (results_metrics : list (string * metrics))
  : selection :=
  match results_metrics with
  | [] => NoResults
  | m :: rest =>
      let best := py_min_from (fun e => S_score (snd e)) m rest in
      if np_isinf (S_score (snd best)) then NoValidModel
      else BestModel (fst best)
  end.

(** The metrics [run_model_fixed] and [run_xgboost_fixed] record for a
    model they could not train. *)
Definition failed_metrics : metrics := mk_metrics NaN NaN NaN NaN NaN.

(** ** Splitting units *)

Fixpoint insert_unique (u : Z) (l : list Z) : list Z :=
  match l with
  | [] => [u]
  | v :: r => if (u <? v)%Z then u :: v :: r
              else if (u =? v)%Z then v :: r
              else v :: insert_unique u r
  end.

(** [np.unique]: the distinct values, ascending. *)
Definition np_unique (a : list Z) : list Z := fold_right insert_unique [] a.

(** [int(0.8 * len(unique_units))]. *)
Definition n_train_units (unique_units : list Z) : nat :=
  (4 * length unique_units / 5)%nat.

Definition train_units (unique_units : list Z) : list Z :=
  firstn (n_train_units unique_units) unique_units.

Definition test_units (unique_units : list Z) : list Z :=
  skipn (n_train_units unique_units) unique_units.

Definition isin (u : Z) (units : list Z) : bool := existsb (Z.eqb u) units.

(** ** The experiment pipeline *)

Inductive py_exception : Type :=
| ValueError          (* min() of an empty dict *)
| UnboundLocalError   (* best_model used before assignment *)
| AttributeError      (* None has no attribute loc *)
| KeyError.

(** Why a call printed a message and returned [None]. *)
Inductive early_exit : Type :=
| NoResultsMetrics      (* "No results_metrics found" *)
| NoValidBestModel      (* "Could not identify a valid 'best' model" *)
| NotEnoughUnits        (* "Not enough units" / "No train units" *)
| NoData                (* "No data in train/test" *)
| EmptyCalibration      (* "Calibration set is empty" *)
| InvalidMarginMethod   (* "Invalid margin_method specified" *)
| EndOfBody.            (* the body ends without a return statement *)

Inductive call_result (A : Type) : Type :=
| Returned (v : A)
| ReturnedNone (why : early_exit)
| Raised (e : py_exception).

Arguments Returned {A} v.
Arguments ReturnedNone {A} why.
Arguments Raised {A} e.

(** Why a unit was skipped in a per-unit loop. *)
Inductive skip_reason : Type :=
| NotEnoughRows          (* len(unit_df) < sequence_length *)
| InsufficientTimeSteps. (* len(X_list) == 0 *)

Record unit_row : Type := mk_unit_row {
  unit_id : Z;
  num_predictions : nat;
  unit_report : report
}.

Inductive unit_outcome : Type :=
| UnitSkipped (why : skip_reason)
| UnitReport (r : unit_row).

(** The table [conf_df]: one row per method, and the [1-alpha] column. *)
Record conf_table : Type := mk_conf_table {
  conf_rows : list (string * report);
  target_coverage : Q
}.

Fixpoint loc (name : string) (rows : list (string * report)) : option report :=
  match rows with
  | [] => None
  | (k, r) :: rest => if String.eqb k name then Some r else loc name rest
  end.

Section Pipeline.

(** One row of sensor readings; a window is [sequence_length] rows. *)
Variable features : Type.
Definition window : Type := list features.

Variable np_exp : Q -> Q.
Variable np_sqrt : Q -> Q.
Variable norm_ppf : Q -> Q.
Variable rng : Type.
Variable default_rng : Z -> rng.
Variable rng_choice : rng -> list Q -> nat -> list Q * rng.

(** The reloaded model of a given name, as the scoring function it is
    used as: one prediction per window. *)
Variable model_predict : string -> window -> Q.

(** A row of the prepared arrays: [X[i]], [y[i]] and [groups[i]]. *)
Record sample : Type := mk_sample {
  s_unit : Z;
  s_X : window;
  s_y : Q
}.

(** A row of [self.df], which [__init__] keeps sorted by unit and time. *)
Record df_row : Type := mk_df_row {
  unit_nr : Z;
  row_features : features;
  RUL : Q
}.

Record ExperimentPipeline : Type := mk_pipeline {
  sequence_length : nat;
  random_state : Z;
  df : list df_row;
  results_metrics : list (string * metrics);
  dl_samples : list sample;           (* X_dl, y_dl, groups *)
  ml_samples : list sample;           (* X_ml, y_ml, ml_groups *)
  conformal_results_df : option conf_table;
  conformal_inference : option (string * np_float)
}.

Definition set_conformal_results_df (self : ExperimentPipeline)
  (v : option conf_table) : ExperimentPipeline :=
  mk_pipeline (sequence_length self) (random_state self) (df self)
    (results_metrics self) (dl_samples self) (ml_samples self)
    v (conformal_inference self).

Definition set_conformal_inference (self : ExperimentPipeline)
  (v : option (string * np_float)) : ExperimentPipeline :=
  mk_pipeline (sequence_length self) (random_state self) (df self)
    (results_metrics self) (dl_samples self) (ml_samples self)
    (conformal_results_df self) v.

Definition groups (self : ExperimentPipeline) : list Z :=
  map s_unit (dl_samples self).

Definition ml_groups (self : ExperimentPipeline) : list Z :=
  map s_unit (ml_samples self).

(** [X[np.isin(groups, units)]], [y[np.isin(groups, units)]]. *)
Definition rows_in (units : list Z) (samples : list sample) : list sample :=
  filter (fun s => isin (s_unit s) units) samples.

Definition is_keras_model (name : string) : bool :=
  negb (String.eqb name "XGBoost").

Definition name_in (name : string) (names : list string) : bool :=
  existsb (String.eqb name) names.

(** The names for which the reload code assigns [best_model]. *)
Definition reloadable : list string :=
  ["XGBoost"; "LSTM"; "BiLSTM"; "NBEATS"; "CNNGRU"]%string.

(** [plot_conformal_multiple_units] tests for ["TCN"] where the other
    entry points test for ["CNNGRU"]. *)
Definition reloadable_multiple_units : list string :=
  ["XGBoost"; "LSTM"; "BiLSTM"; "NBEATS"; "TCN"]%string.

Definition predict_all (name : string) (samples : list sample) : list Q :=
  map (fun s => model_predict name (s_X s)) samples.

(** [margin_dict] of [plot_conformal_prediction_interval]. *)
Definition global_margin_dict (self : ExperimentPipeline) (alpha : Q)
  (abs_res : list Q) : list (string * np_float) :=
  let m_naive := naive_quantile_margin alpha abs_res in
  let m_weighted := weighted_exponential_margin np_exp alpha abs_res in
  let m_bootstrap :=
    bootstrap_margin_mean rng default_rng rng_choice (random_state self)
                          alpha 200 abs_res in
  let m_jackknife := naive_quantile_margin alpha abs_res in
  let m_cv := naive_quantile_margin alpha abs_res in
  let m_complex :=
    np_median3 (Finite m_naive) (Finite m_weighted) m_bootstrap in
  [ ("Naive", Finite m_naive); ("Weighted", Finite m_weighted);
    ("Bootstrap", m_bootstrap); ("Jackknife+", Finite m_jackknife);
    ("CV+", Finite m_cv); ("ComplexMethod", m_complex) ]%string.

(** The calibration and test rows of the entry points that split on
    [self.groups] and read the arrays of the model's kind. *)
Definition sample_pool (self : ExperimentPipeline) (name : string)
  : list sample :=
  if is_keras_model name then dl_samples self else ml_samples self.

Definition plot_conformal_prediction_interval (self : ExperimentPipeline)
  (alpha : Q) : ExperimentPipeline * call_result conf_table :=
  match select_best_model (results_metrics self) with
  | NoResults => (self, ReturnedNone NoResultsMetrics)
  | NoValidModel => (self, ReturnedNone NoValidBestModel)
  | BestModel best_model_name =>
      if negb (name_in best_model_name reloadable)
      then (self, Raised UnboundLocalError)
      else
        let unique_units := np_unique (groups self) in
        let train := train_units unique_units in
        let test := test_units unique_units in
        if (length train =? 0)%nat || (length test =? 0)%nat
        then (self, ReturnedNone NotEnoughUnits)
        else
          let cal_rows := rows_in train (sample_pool self best_model_name) in
          let test_rows := rows_in test (sample_pool self best_model_name) in
          if (length cal_rows =? 0)%nat || (length test_rows =? 0)%nat
          then (self, ReturnedNone NoData)
          else
            let y_train := map s_y cal_rows in
            let y_test := map s_y test_rows in
            let abs_res :=
              absolute_residuals y_train (predict_all best_model_name cal_rows) in
            let margin_dict := global_margin_dict self alpha abs_res in
            let tpreds :=
              postprocess_global (predict_all best_model_name test_rows) in
            let results :=
              map (fun e => (fst e, interval_report (snd e) tpreds y_test))
                  margin_dict in
            let conf_df := mk_conf_table results (1 - alpha) in
            (set_conformal_results_df self (Some conf_df), Returned conf_df)
  end.

(** The candidate margins of the unit paths ([ParamNormal], [Weighted],
    [Bootstrap]); each margin function recomputes the calibration
    residuals from the same predictions. *)
Definition unit_margin_candidates (self : ExperimentPipeline) (alpha : Q)
  (y_cal preds_cal_raw : list Q) : list (string * np_float) :=
  let res := residuals y_cal preds_cal_raw in
  let abs_res := absolute_residuals y_cal preds_cal_raw in
  let m_param := parametric_margin np_sqrt norm_ppf alpha res in
  let m_weighted := weighted_exponential_margin np_exp alpha abs_res in
  let m_bootstrap :=
    bootstrap_margin_median rng default_rng rng_choice (random_state self)
                            alpha 200 abs_res in
  [ ("ParamNormal", m_param); ("Weighted", Finite m_weighted);
    ("Bootstrap", Finite m_bootstrap) ]%string.

(** [np.median] of the three candidates, in their order in the dict. *)
Definition median_of_candidates (cands : list (string * np_float)) : np_float :=
  match map snd cands with
  | [a; b; c] => np_median3 a b c
  | _ => NaN
  end.

(** [margin_dict] of [plot_conformal_single_unit]: the placeholders
    return the parametric margin. *)
Definition single_unit_margin_dict (self : ExperimentPipeline) (alpha : Q)
  (y_cal preds_cal_raw : list Q) : list (string * np_float) :=
  let cands := unit_margin_candidates self alpha y_cal preds_cal_raw in
  let m_param := parametric_margin np_sqrt norm_ppf alpha
                                   (residuals y_cal preds_cal_raw) in
  cands ++ [ ("Jackknife+", m_param); ("CV+", m_param);
             ("ComplexMethod", median_of_candidates cands) ]%string.

(** [plot_conformal_single_unit].  Its body builds the table of the
    candidate methods on the calibration set and ends there: the
    statements that choose a method, store it in
    [self.conformal_inference] and predict on the unit stand after the
    [return results_df] of [evaluate_conformal_metrics_per_unit], where
    they are never reached. *)
Definition plot_conformal_single_unit (self : ExperimentPipeline)
  (unit : Z) (alpha : Q) (fold_splits : nat)
  : ExperimentPipeline * call_result conf_table :=
  match select_best_model (results_metrics self) with
  | NoResults => (self, ReturnedNone NoResultsMetrics)
  | NoValidModel => (self, ReturnedNone NoValidBestModel)
  | BestModel best_model_name =>
      if negb (name_in best_model_name reloadable)
      then (self, Raised UnboundLocalError)
      else
        let unique_units := np_unique (groups self) in
        let train := train_units unique_units in
        if (length train =? 0)%nat
        then (self, ReturnedNone NotEnoughUnits)
        else
          let cal_rows := rows_in train (sample_pool self best_model_name) in
          if (length cal_rows =? 0)%nat
          then (self, ReturnedNone EmptyCalibration)
          else
            let y_cal := map s_y cal_rows in
            let preds_raw := predict_all best_model_name cal_rows in
            let margin_dict :=
              single_unit_margin_dict self alpha y_cal preds_raw in
            let preds_cal := clip0 preds_raw in
            let results :=
              map (fun e => (fst e, interval_report (snd e) preds_cal y_cal))
                  margin_dict in
            let conf_df := mk_conf_table results (1 - alpha) in
            (self, ReturnedNone EndOfBody)
  end.

(** The sliding windows of one unit: [len - sequence_length] of them. *)
Definition unit_windows (L : nat) (rows : list features) : list window :=
  map (fun i => firstn L (skipn i rows)) (seq 0 (length rows - L)).

Definition unit_rows (self : ExperimentPipeline) (unit : Z) : list df_row :=
  filter (fun r => (unit_nr r =? unit)%Z) (df self).

(** [y_true = unit_target[self.sequence_length:]]. *)
Definition unit_y_true (self : ExperimentPipeline) (unit : Z) : list Q :=
  skipn (sequence_length self) (map RUL (unit_rows self unit)).

(** The body of the loop over the test units in
    [evaluate_conformal_metrics_per_unit]. *)
Definition evaluate_unit (self : ExperimentPipeline) (best_model_name : string)
  (best_margin : np_float) (unit : Z) : unit_outcome :=
  let unit_df := unit_rows self unit in
  if (length unit_df <? sequence_length self)%nat
  then UnitSkipped NotEnoughRows
  else
    let X_list :=
      unit_windows (sequence_length self) (map row_features unit_df) in
    let y_true := unit_y_true self unit in
    if (length X_list =? 0)%nat
    then UnitSkipped InsufficientTimeSteps
    else
      let preds := postprocess_unit (map (model_predict best_model_name) X_list) in
      UnitReport (mk_unit_row unit (length preds)
                              (interval_report best_margin preds y_true)).

Definition reports_of (outcomes : list unit_outcome) : list unit_row :=
  flat_map (fun o => match o with
                     | UnitReport r => [r]
                     | UnitSkipped _ => []
                     end) outcomes.

(** [margin_method.lower()] is compared with ["complex"] and ["best"]. *)
Inductive margin_method : Type :=
| Complex
| Best
| OtherMethod (name : string).

(** The arrays [evaluate_conformal_metrics_per_unit] splits on and reads:
    those of the model's kind. *)
Definition evaluate_conformal_metrics_per_unit (self : ExperimentPipeline)
  (alpha : Q) (fold_splits : nat) (method : margin_method)
  : ExperimentPipeline * call_result (list unit_row) :=
  match select_best_model (results_metrics self) with
  | NoResults => (self, Raised ValueError)
  | NoValidModel => (self, ReturnedNone NoValidBestModel)
  | BestModel best_model_name =>
      if negb (name_in best_model_name reloadable)
      then (self, Raised UnboundLocalError)
      else
        let pool := sample_pool self best_model_name in
        let unique_units := np_unique (map s_unit pool) in
        let train := train_units unique_units in
        let test := test_units unique_units in
        if (length train =? 0)%nat || (length test =? 0)%nat
        then (self, ReturnedNone NotEnoughUnits)
        else
          let cal_rows := rows_in train pool in
          let y_cal := map s_y cal_rows in
          let preds_raw := predict_all best_model_name cal_rows in
          let margin_candidates :=
            unit_margin_candidates self alpha y_cal preds_raw in
          let chosen :=
            match method with
            | Complex => Some (median_of_candidates margin_candidates)
            | Best =>
                let preds_cal := clip0 preds_raw in
                let coverage_of_candidate (e : string * np_float) :=
                  rep_coverage (interval_report (snd e) preds_cal y_cal) in
                match margin_candidates with
                | [] => None
                | c :: rest =>
                    Some (snd (py_max_from coverage_of_candidate c rest))
                end
            | OtherMethod _ => None
            end in
          match chosen with
          | None => (self, ReturnedNone InvalidMarginMethod)
          | Some best_margin =>
              let outcomes :=
                map (evaluate_unit self best_model_name best_margin) test in
              (self, Returned (reports_of outcomes))
          end
  end.

(** [plot_conformal_multiple_units], up to the drawing of the curves,
    which reads [best_margin] and leaves [self] alone. *)
Definition plot_conformal_multiple_units (self : ExperimentPipeline)
  (unit_ids : list Z) (alpha : Q) : ExperimentPipeline * call_result unit :=
  match select_best_model (results_metrics self) with
  | NoResults => (self, ReturnedNone NoResultsMetrics)
  | NoValidModel => (self, ReturnedNone NoValidBestModel)
  | BestModel best_model_name =>
      if negb (name_in best_model_name reloadable_multiple_units)
      then (self, Raised UnboundLocalError)
      else
        match conformal_inference self with
        | None =>
            match plot_conformal_prediction_interval self alpha with
            | (self', Returned conf_df) =>
                match loc "ComplexMethod" (conf_rows conf_df) with
                | Some r =>
                    (set_conformal_inference self'
                       (Some ("ComplexMethod"%string, rep_margin r)),
                     ReturnedNone EndOfBody)
                | None => (self', Raised KeyError)
                end
            | (self', ReturnedNone _) => (self', Raised AttributeError)
            | (self', Raised e) => (self', Raised e)
            end
        | Some _ => (self, ReturnedNone EndOfBody)
        end
  end.

(** [_prepare_data] and [_prepare_ml_data]: for every unit, in ascending
    order of unit number, one sample per window, whose target is the RUL
    of the row that follows the window.  Both produce the same rows (a
    unit with exactly [sequence_length] rows yields none in either). *)
Definition prepare_unit (L : nat) (unit : Z) (rows : list df_row)
  : list sample :=
  map (fun i => mk_sample unit
                  (firstn L (skipn i (map row_features rows)))
                  (nth (i + L) (map RUL rows) 0))
      (seq 0 (length rows - L)).

Definition prepare_samples (L : nat) (rows : list df_row) : list sample :=
  flat_map (fun u => prepare_unit L u
                       (filter (fun r => (unit_nr r =? u)%Z) rows))
           (np_unique (map unit_nr rows)).

(** The state [__init__] leaves: no results, nothing cached. *)
Definition new_pipeline (L : nat) (seed : Z) (rows : list df_row)
  : ExperimentPipeline :=
  mk_pipeline L seed rows [] (prepare_samples L rows) (prepare_samples L rows)
              None None.

Definition set_results_metrics (self : ExperimentPipeline)
  (v : list (string * metrics)) : ExperimentPipeline :=
  mk_pipeline (sequence_length self) (random_state self) (df self)
    v (dl_samples self) (ml_samples self)
    (conformal_results_df self) (conformal_inference self).

End Pipeline.

Arguments sequence_length {features} _.
Arguments random_state {features} _.
Arguments df {features} _.
Arguments results_metrics {features} _.
Arguments dl_samples {features} _.
Arguments ml_samples {features} _.
Arguments conformal_results_df {features} _.
Arguments conformal_inference {features} _.

(** ** A small experiment to run the model on

    Five units of six cycles each, one sensor, windows of two cycles; the
    scoring function reads the last sensor value of the window. *)

Definition demo_unit (u : Z) (offset : Q) : list (df_row Q) :=
  map (fun k => mk_df_row Q u (offset + of_nat k) (5 - of_nat k)) (seq 0 6).

Definition demo_rows : list (df_row Q) :=
  demo_unit 1 0 ++ demo_unit 2 (1 # 2) ++ demo_unit 3 1 ++
  demo_unit 4 (3 # 2) ++ demo_unit 5 (-1).

Definition demo_predict (name : string) (w : list Q) : Q :=
  4 - last w 0.

Definition score (s : Q) : metrics :=
  mk_metrics (Finite 1) (Finite 1) (Finite 1) (Finite 1) (Finite s).

Definition demo_metrics : list (string * metrics) :=
  [ ("LSTM", score 310); ("BiLSTM", score 295); ("NBEATS", score 402);
    ("CNNGRU", score 350); ("XGBoost", score 275) ]%string.

Definition demo_pipeline : ExperimentPipeline Q :=
  set_results_metrics Q (new_pipeline Q 2 42 demo_rows) demo_metrics.

(** What [run_experiment] records when no model could be trained. *)
Definition all_failed_metrics : list (string * metrics) :=
  [ ("LSTM", failed_metrics); ("BiLSTM", failed_metrics);
    ("NBEATS", failed_metrics); ("CNNGRU", failed_metrics);
    ("XGBoost", failed_metrics) ]%string.



Definition table_of (r : call_result conf_table) : conf_table :=
  match r with
  | Returned t => t
  | ReturnedNone _ | Raised _ => mk_conf_table [] 0
  end.

Definition demo_global_call : ExperimentPipeline Q * call_result conf_table :=
  plot_conformal_prediction_interval Q exp_series Z lcg_seed lcg_choice
    demo_predict demo_pipeline (1 # 20).

(** ** The interval builder and the index difference, in more detail *)

(** The lower bounds when [preds - margin] is computed by [sub], the
    subtraction of the arrays' float type, which rounds;
    [interval_lower] is the case of the exact difference. *)
Definition interval_lower_with (sub : Q -> Q -> Q) (margin : Q)
  (preds : list Q) : list Q :=
  clip0 (map (fun p => sub p margin) preds).

(** [k] is the index [compute_index_difference] reads off [a]: every
    earlier value is positive, and either the value at [k] is at or below
    zero, or no value is and [k] is the last index. *)
Definition first_zero_index (a : list Q) (k : Z) : Prop :=
  (0 <= k <= Z.of_nat (length a) - 1)%Z /\
  (forall j, (Z.of_nat j < k)%Z -> 0 < nth j a 0) /\
  (nth (Z.to_nat k) a 0 <= 0 \/
   (k = Z.of_nat (length a) - 1)%Z /\
   forall j, (j < length a)%nat -> 0 < nth j a 0).

(** ** Order of the unit numbers *)

(** Strictly ascending, by recursion on the list. *)
Fixpoint ascending_from (lo : Z) (l : list Z) : Prop :=
  match l with
  | [] => True
  | x :: r => (lo < x)%Z /\ ascending_from x r
  end.

Definition ascending (l : list Z) : Prop :=
  match l with
  | [] => True
  | x :: r => ascending_from x r
  end.


(** ** Data preparation, as the two preparation methods have it *)

Section DataPreparation.

Variable features : Type.

(** [create_sequences]: for [i] in [range(len(data) - sequence_length)],
    the window [data[i : i + sequence_length]] and the target
    [target[i + sequence_length]]. *)
Definition create_sequences (data : list features) (target : list Q)
  (L : nat) : list (window features) * list Q :=
  (map (fun i => firstn L (skipn i data)) (seq 0 (length data - L)),
   map (fun i => nth (i + L) target 0) (seq 0 (length data - L))).

(** [_prepare_data]: the groups of [self.df.groupby(group_col)] in
    ascending order of unit; a unit with more than [sequence_length] rows
    contributes its sequences, its targets and its unit number once per
    sequence. *)
Definition prepare_data (L : nat) (rows : list (df_row features))
  : list (sample features) :=
  flat_map
    (fun u =>
       let group_df := filter (fun r => (unit_nr features r =? u)%Z) rows in
       let unit_features := map (row_features features) group_df in
       let unit_target := map (RUL features) group_df in
       if (L <? length unit_features)%nat
       then
         let '(X_seq, y_seq) := create_sequences unit_features unit_target L in
         map (fun xy => mk_sample features u (fst xy) (snd xy))
             (combine X_seq y_seq)
       else [])
    (np_unique (map (unit_nr features) rows)).

(** [_prepare_ml_data]: a unit with at least [sequence_length] rows
    contributes, for [i] in [range(sequence_length, len)], the lagged rows
    [unit_features[i - sequence_length : i]] (flattened in the source),
    the target [unit_target[i]] and its unit number. *)
Definition prepare_ml_data (L : nat) (rows : list (df_row features))
  : list (sample features) :=
  flat_map
    (fun u =>
       let group_df := filter (fun r => (unit_nr features r =? u)%Z) rows in
       let unit_features := map (row_features features) group_df in
       let unit_target := map (RUL features) group_df in
       if (L <=? length unit_features)%nat
       then
         map (fun i => mk_sample features u
                         (firstn L (skipn (i - L) unit_features))
                         (nth i unit_target 0))
             (seq L (length unit_features - L))
       else [])
    (np_unique (map (unit_nr features) rows)).

(** The rows of the prepared arrays that belong to one unit. *)
Definition samples_of_unit (u : Z) (samples : list (sample features))
  : list (sample features) :=
  filter (fun s => (s_unit features s =? u)%Z) samples.

End DataPreparation.


Definition report_of (o : unit_outcome) : unit_row :=
  match o with
  | UnitReport r => r
  | UnitSkipped _ => mk_unit_row 0 0 (mk_report NaN NaN NaN 0)
  end.

(** ** Order of a sorted array *)

Fixpoint at_least (lo : Q) (l : list Q) : Prop :=
  match l with
  | [] => True
  | x :: r => lo <= x /\ at_least x r
  end.

Definition nondecreasing (l : list Q) : Prop :=
  match l with
  | [] => True
  | x :: r => at_least x r
  end.

Definition np_isnan (x : np_float) : bool :=
  match x with
  | NaN => true
  | Finite _ | PosInf | NegInf => false
  end.

Definition rows_of (r : call_result (list unit_row)) : list unit_row :=
  match r with
  | Returned rows => rows
  | ReturnedNone _ | Raised _ => []
  end.

(** The demonstration pipeline with a margin already stored. *)
Definition cached_pipeline : ExperimentPipeline Q :=
  set_conformal_inference Q demo_pipeline (Some ("Naive"%string, Finite 2)).

(** Two units of four cycles each, XGBoost the only model recorded: one
    calibration unit and one evaluation unit. *)
Definition two_unit_pipeline : ExperimentPipeline Q :=
  set_results_metrics Q
    (new_pipeline Q 2 42
       (map (fun k => mk_df_row Q 1 (of_nat k) (3 - of_nat k)) (seq 0 4) ++
        map (fun k => mk_df_row Q 2 ((1 # 2) + of_nat k) (3 - of_nat k))
            (seq 0 4)))
    [ ("XGBoost"%string, score 1) ].

(** ** The S-score and the fixed-split experiment *)

(** [compute_s_score]:
    [np.sum(np.where(diff < 0, np.exp(-diff/13) - 1, np.exp(diff/10) - 1))]
    with [diff = rul_pred - rul_true]. *)
Definition compute_s_score (np_exp : Q -> Q) (rul_true rul_pred : list Q) : Q :=
  np_sum (map (fun tp =>
                 let diff := snd tp - fst tp in
                 if Qltb diff 0 then np_exp (- diff / 13) - 1
                 else np_exp (diff / 10) - 1)
              (combine rul_true rul_pred)).

(** [d[k] = v] on a dict in insertion order: the value of an existing key
    is replaced in place, a new key goes to the end. *)
Fixpoint dict_set {V : Type} (k : string) (v : V) (d : list (string * V))
  : list (string * V) :=
  match d with
  | [] => [(k, v)]
  | (k', v') :: rest =>
      if String.eqb k' k then (k, v) :: rest else (k', v') :: dict_set k v rest
  end.

(** The mean of an array of values that are not negative: plus infinity
    when their sum overflows, NaN on an empty array. *)
Definition mean_overflow (a : list Q) : np_float :=
  match a with
  | [] => NaN
  | _ :: _ =>
      match sum_overflow 0 a with
      | Finite s => Finite (s / of_nat (length a))
      | PosInf => PosInf
      | NegInf => NegInf
      | NaN => NaN
      end
  end.

Section Experiment.

Variable features : Type.
Variable np_exp : Q -> Q.
Variable np_sqrt : Q -> Q.

(** [sklearn.metrics.r2_score]. *)
Variable r2_score : list Q -> list Q -> np_float.

(** The model of a given name once fitted on the training rows, as the
    scoring function [predict] applies to each test window, and the
    training losses [history.history["loss"]] of the fit. *)
Variable fitted : string -> list (sample features) -> window features -> Q.
Variable fit_loss : string -> list (sample features) -> list Q.

(** The pipeline together with the two attributes only the experiment
    writes: [self.loss_histories] and [self.results_df]. *)
Record ExperimentRun : Type := mk_run {
  run_pipeline : ExperimentPipeline features;
  loss_histories : list (string * option (list Q));
  results_df : option (list (string * metrics))
}.

(** The state [__init__] leaves. *)
Definition new_run (L : nat) (seed : Z) (rows : list (df_row features))
  : ExperimentRun :=
  mk_run (new_pipeline features L seed rows) [] None.

(** The five metrics of the predictions on the test rows.  The squared
    errors and the terms of the S-score are not negative: their sums are
    plus infinity when they leave the float range. *)
Definition score_predictions (y_test y_pred : list Q) : metrics :=
  let mse_val :=
    mean_overflow (map (fun e => (fst e - snd e) * (fst e - snd e))
                       (combine y_test y_pred)) in
  let mae_val :=
    mean_overflow (map (fun e => Qabs (fst e - snd e))
                       (combine y_test y_pred)) in
  let rmse_val :=
    match mse_val with
    | Finite m => Finite (np_sqrt m)
    | PosInf => PosInf
    | NegInf | NaN => NaN
    end in
  let r2_val := r2_score y_test y_pred in
  let s_val := overflow (compute_s_score np_exp y_test y_pred) in
  mk_metrics mse_val mae_val rmse_val r2_val s_val.

(** [self.results_metrics[name] = m] and [self.loss_histories[name] = loss]. *)
Definition record_run (st : ExperimentRun) (name : string) (m : metrics)
  (loss : option (list Q)) : ExperimentRun :=
  mk_run (set_results_metrics features (run_pipeline st)
            (dict_set name m (results_metrics (run_pipeline st))))
         (dict_set name loss (loss_histories st))
         (results_df st).

(** Fit on the rows of the training units, score on those of the test
    units. *)
Definition fit_and_score (name : string) (pool : list (sample features))
  (units : list Z) : metrics :=
  let train_rows := rows_in features (train_units units) pool in
  let test_rows := rows_in features (test_units units) pool in
  let y_test := map (s_y features) test_rows in
  let y_pred := map (fun s => fitted name train_rows (s_X features s))
                    test_rows in
  score_predictions y_test y_pred.

(** [run_model_fixed], for the four sequence models: a model that cannot
    be trained is recorded with NaN metrics and no loss history. *)
Definition run_model_fixed (st : ExperimentRun) (model_name : string)
  : ExperimentRun :=
  let self := run_pipeline st in
  if (length (dl_samples self) =? 0)%nat
  then record_run st model_name failed_metrics None
  else
    let unique_units := np_unique (groups features self) in
    if (length (train_units unique_units) =? 0)%nat
       || (length (test_units unique_units) =? 0)%nat
    then record_run st model_name failed_metrics None
    else
      record_run st model_name
        (fit_and_score model_name (dl_samples self) unique_units)
        (Some (fit_loss model_name
                 (rows_in features (train_units unique_units)
                          (dl_samples self)))).

(** [run_xgboost_fixed], on the lagged arrays; its loss history is
    [None] on every path. *)
Definition run_xgboost_fixed (st : ExperimentRun) : ExperimentRun :=
  let self := run_pipeline st in
  let unique_units := np_unique (ml_groups features self) in
  if (length unique_units =? 0)%nat
  then record_run st "XGBoost" failed_metrics None
  else
    if (length (train_units unique_units) =? 0)%nat
       || (length (test_units unique_units) =? 0)%nat
    then record_run st "XGBoost" failed_metrics None
    else record_run st "XGBoost"
           (fit_and_score "XGBoost" (ml_samples self) unique_units) None.

(** [run_experiment]: the five runs in order, then [self.results_df],
    the table of [self.results_metrics.items()], which it returns. *)
Definition run_experiment (st : ExperimentRun)
  : ExperimentRun * list (string * metrics) :=
  let s1 := run_model_fixed st "LSTM" in
  let s2 := run_model_fixed s1 "BiLSTM" in
  let s3 := run_model_fixed s2 "NBEATS" in
  let s4 := run_model_fixed s3 "CNNGRU" in
  let s5 := run_xgboost_fixed s4 in
  let table := results_metrics (run_pipeline s5) in
  (mk_run (run_pipeline s5) (loss_histories s5) (Some table), table).

End Experiment.

Arguments run_pipeline {features} _.
Arguments loss_histories {features} _.
Arguments results_df {features} _.

(** ** The drawing loop of the multi-unit plot *)

(** [seg_length]: up to and including the first prediction at zero, or
    the whole trajectory. *)
Definition segment_length (preds : list Q) : nat :=
  match first_nonpositive preds with
  | Some i => S i
  | None => length preds
  end.

(** [np.clip(preds[:seg_length] - best_margin, 0, None)]: with a margin
    of plus infinity every difference is minus infinity and is clipped to
    zero, with minus infinity it is plus infinity, with NaN it is NaN. *)
Definition segment_lower (margin : np_float) (preds : list Q) : list np_float :=
  match margin with
  | Finite m => map Finite (interval_lower m preds)
  | PosInf => map (fun _ => Finite 0) preds
  | NegInf => map (fun _ => PosInf) preds
  | NaN => map (fun _ => NaN) preds
  end.

Record segment : Type := mk_segment {
  seg_unit : Z;
  seg_offset : Z;                 (* x_axis[0] *)
  seg_preds : list Q;             (* preds[:seg_length] *)
  seg_lower : list np_float       (* lower_bound *)
}.

Section Drawing.

Variable features : Type.
Variable model_predict : string -> window features -> Q.

(** The loop over [unit_ids] of [plot_conformal_multiple_units]: a unit
    that is too short is skipped and leaves the offset where it is; a
    drawn unit moves it by its segment length plus the gap. *)
Fixpoint multi_unit_segments (self : ExperimentPipeline features)
  (best_model_name : string) (best_margin : np_float) (gap : Z)
  (current_offset : Z) (unit_ids : list Z) : list segment :=
  match unit_ids with
  | [] => []
  | unit :: rest =>
      let unit_df := unit_rows features self unit in
      if (length unit_df <? sequence_length self)%nat
      then multi_unit_segments self best_model_name best_margin gap
                               current_offset rest
      else
        let X_list :=
          unit_windows features (sequence_length self)
                       (map (row_features features) unit_df) in
        if (length X_list =? 0)%nat
        then multi_unit_segments self best_model_name best_margin gap
                                 current_offset rest
        else
          let preds :=
            postprocess_unit (map (model_predict best_model_name) X_list) in
          let seg_length := segment_length preds in
          mk_segment unit current_offset (firstn seg_length preds)
                     (segment_lower best_margin (firstn seg_length preds))
          :: multi_unit_segments self best_model_name best_margin gap
               (current_offset + Z.of_nat seg_length + gap) rest
      end.

End Drawing.

(** The segments follow one another on the x axis, each starting where
    the previous one ended plus the gap. *)
Fixpoint laid_out (offset gap : Z) (segs : list segment) : Prop :=
  match segs with
  | [] => True
  | s :: rest =>
      seg_offset s = offset /\
      laid_out (offset + Z.of_nat (length (seg_preds s)) + gap) gap rest
  end.

(** ** Names and small pipelines for the experiment *)

(** The models [run_experiment] runs, in its order. *)
Definition model_names : list string :=
  ["LSTM"; "BiLSTM"; "NBEATS"; "CNNGRU"; "XGBoost"]%string.

(** The keys of a dict after [d[k] = v]. *)
Definition add_key (k : string) (keys : list string) : list string :=
  if name_in k keys then keys else keys ++ [k].

(** A freshly built pipeline on a single unit. *)
Definition one_unit_run : ExperimentRun Q :=
  new_run Q 2 42 (demo_unit 1 0).

(** The loss histories when no model could be trained. *)
Definition no_loss_histories : list (string * option (list Q)) :=
  [ ("LSTM", None); ("BiLSTM", None); ("NBEATS", None); ("CNNGRU", None);
    ("XGBoost", None) ]%string.

(** The demonstration pipeline with CNNGRU scoring best. *)
Definition cnngru_pipeline : ExperimentPipeline Q :=
  set_results_metrics Q demo_pipeline
    [ ("LSTM", score 100); ("CNNGRU", score 50) ]%string.

(** * Properties of comparison and clipping *)

Lemma Qltb_true (x y : Q) : Qltb x y = true <-> x < y.
Proof.
  unfold Qltb. rewrite negb_true_iff. split; intro H.
  - apply Qnot_le_lt. intro Hle. apply Qle_bool_iff in Hle. congruence.
  - destruct (Qle_bool y x) eqn:E; [ | reflexivity ].
    apply Qle_bool_iff in E. exfalso. apply (Qlt_not_le _ _ H E).
Qed.

Lemma Qltb_false (x y : Q) : Qltb x y = false <-> y <= x.
Proof.
  unfold Qltb. rewrite negb_false_iff. apply Qle_bool_iff.
Qed.

Lemma np_clip0_nonneg (x : Q) : 0 <= np_clip0 x.
Proof.
  unfold np_clip0. destruct (Qltb x 0) eqn:E.
  - apply Qle_refl.
  - now apply Qltb_false in E.
Qed.

(** Turns the boolean comparisons among the hypotheses into orders. *)
Ltac qltb_props :=
  repeat match goal with
         | H : Qltb _ _ = true |- _ => apply Qltb_true in H
         | H : Qltb _ _ = false |- _ => apply Qltb_false in H
         end.

Lemma np_clip0_le (x y : Q) : x <= y -> np_clip0 x <= np_clip0 y.
Proof.
  intro H. unfold np_clip0.
  destruct (Qltb x 0) eqn:Ex, (Qltb y 0) eqn:Ey; qltb_props; lra.
Qed.

Lemma np_clip0_of_nonneg (x : Q) : 0 <= x -> np_clip0 x = x.
Proof.
  intro H. unfold np_clip0. destruct (Qltb x 0) eqn:E; [ | reflexivity ].
  apply Qltb_true in E. lra.
Qed.

Lemma np_clip0_of_nonpos (x : Q) : x <= 0 -> np_clip0 x == 0.
Proof.
  intro H. unfold np_clip0. destruct (Qltb x 0) eqn:E; [ reflexivity | ].
  apply Qltb_false in E. lra.
Qed.

(** * Facts about the post-processor *)

Lemma below_nth (l : list Q) :
  forall prev i, below prev l -> (i < length l)%nat ->
                 nth i l 0 <= nth i (prev :: l) 0.
Proof.
  induction l as [ | x r IH ]; intros prev i Hb Hi; simpl in Hi; [ lia | ].
  destruct Hb as [Hx Hr]. destruct i as [ | i ].
  - exact Hx.
  - change (nth (S i) (x :: r) 0) with (nth i r 0).
    change (nth (S i) (prev :: x :: r) 0) with (nth i (x :: r) 0).
    apply IH; [ exact Hr | lia ].
Qed.

Lemma descending_non_increasing (l : list Q) :
  descending l -> non_increasing l.
Proof.
  destruct l as [ | x r ]; intros Hd i Hi; simpl in Hi; [ lia | ].
  destruct i as [ | i ]; [ lia | ].
  replace (S i - 1)%nat with i by lia.
  change (nth (S i) (x :: r) 0) with (nth i r 0).
  apply below_nth; [ exact Hd | lia ].
Qed.

Lemma Forall_non_negative (l : list Q) :
  Forall (fun x => 0 <= x) l -> non_negative l.
Proof.
  intros H i Hi. rewrite Forall_forall in H. apply H. now apply nth_In.
Qed.

Lemma monotone_from_length (l : list Q) :
  forall prev, length (monotone_from prev l) = length l.
Proof.
  induction l as [ | x r IH ]; intro prev; simpl; [ reflexivity | ].
  now rewrite IH.
Qed.

Lemma enforce_monotonic_length (l : list Q) :
  length (enforce_monotonic l) = length l.
Proof.
  destruct l; simpl; [ reflexivity | ]. now rewrite monotone_from_length.
Qed.

Lemma monotone_from_below (l : list Q) :
  forall prev, below prev (monotone_from prev l).
Proof.
  induction l as [ | x r IH ]; intro prev; simpl; [ exact I | ].
  split; [ | apply IH ].
  destruct (Qltb prev x) eqn:E.
  - apply Qle_refl.
  - now apply Qltb_false in E.
Qed.

Lemma enforce_monotonic_descending (l : list Q) :
  descending (enforce_monotonic l).
Proof.
  destruct l as [ | x r ]; simpl; [ exact I | apply monotone_from_below ].
Qed.

Lemma clip0_below (l : list Q) :
  forall prev, below prev l -> below (np_clip0 prev) (clip0 l).
Proof.
  induction l as [ | x r IH ]; intros prev Hb; simpl; [ exact I | ].
  destruct Hb as [Hx Hr]. split; [ now apply np_clip0_le | now apply IH ].
Qed.

Lemma clip0_descending (l : list Q) : descending l -> descending (clip0 l).
Proof.
  destruct l as [ | x r ]; simpl; [ trivial | apply clip0_below ].
Qed.

Lemma clip0_Forall_nonneg (l : list Q) : Forall (fun x => 0 <= x) (clip0 l).
Proof.
  unfold clip0. apply Forall_forall. intros y Hy.
  apply in_map_iff in Hy. destruct Hy as [x [<- _]]. apply np_clip0_nonneg.
Qed.

Lemma monotone_from_Forall_nonneg (l : list Q) :
  forall prev, 0 <= prev -> Forall (fun x => 0 <= x) l ->
               Forall (fun x => 0 <= x) (monotone_from prev l).
Proof.
  induction l as [ | x r IH ]; intros prev Hp Hl; simpl; [ constructor | ].
  inversion Hl as [ | ? ? Hx Hr ]; subst.
  destruct (Qltb prev x); constructor; auto.
Qed.

Lemma enforce_monotonic_Forall_nonneg (l : list Q) :
  Forall (fun x => 0 <= x) l -> Forall (fun x => 0 <= x) (enforce_monotonic l).
Proof.
  destruct l as [ | x r ]; intro H; simpl; [ constructor | ].
  inversion H; subst. constructor; [ assumption | ].
  now apply monotone_from_Forall_nonneg.
Qed.

Lemma postprocess_unit_non_increasing raw : non_increasing (postprocess_unit raw).
Proof.
  apply descending_non_increasing, clip0_descending, enforce_monotonic_descending.
Qed.

Lemma postprocess_unit_non_negative raw : non_negative (postprocess_unit raw).
Proof. apply Forall_non_negative, clip0_Forall_nonneg. Qed.

Lemma postprocess_global_non_increasing raw :
  non_increasing (postprocess_global raw).
Proof. apply descending_non_increasing, enforce_monotonic_descending. Qed.

Lemma postprocess_global_non_negative raw :
  non_negative (postprocess_global raw).
Proof.
  apply Forall_non_negative, enforce_monotonic_Forall_nonneg, clip0_Forall_nonneg.
Qed.

(** Clamping commutes with the monotone pass, up to equality of rationals. *)
Lemma monotone_from_clip0 (l : list Q) :
  forall p q, q == np_clip0 p ->
    Forall2 Qeq (monotone_from q (clip0 l)) (clip0 (monotone_from p l)).
Proof.
  induction l as [ | x r IH ]; intros p q Hq; simpl; [ constructor | ].
  assert (Hmono : forall a b, a <= b -> np_clip0 a <= np_clip0 b)
    by apply np_clip0_le.
  destruct (Qltb p x) eqn:Ep, (Qltb q (np_clip0 x)) eqn:Eq; qltb_props.
  - constructor; [ exact Hq | now apply IH ].
  - assert (np_clip0 p <= np_clip0 x) by (apply Hmono; lra).
    assert (Hx : np_clip0 x == np_clip0 p) by lra.
    constructor; [ exact Hx | now apply IH ].
  - assert (np_clip0 x <= np_clip0 p) by (apply Hmono; lra). lra.
  - constructor; [ reflexivity | apply IH; reflexivity ].
Qed.

Lemma postprocess_global_unit (raw : list Q) :
  Forall2 Qeq (postprocess_global raw) (postprocess_unit raw).
Proof.
  unfold postprocess_global, postprocess_unit.
  destruct raw as [ | x r ]; simpl; [ constructor | ].
  constructor; [ reflexivity | apply monotone_from_clip0; reflexivity ].
Qed.

Lemma Forall2_Qeq_refl (l : list Q) : Forall2 Qeq l l.
Proof. induction l; constructor; [ reflexivity | assumption ]. Qed.

(** * Facts about the interval builder *)

Lemma interval_lower_length margin preds :
  length (interval_lower margin preds) = length preds.
Proof. unfold interval_lower, clip0. now rewrite !length_map. Qed.

Lemma interval_lower_nth margin preds i :
  (i < length preds)%nat ->
  nth i (interval_lower margin preds) 0 = np_clip0 (nth i preds 0 - margin).
Proof.
  intro Hi. unfold interval_lower, clip0. rewrite map_map.
  rewrite nth_indep with (d' := np_clip0 (0 - margin))
    by (now rewrite length_map).
  now rewrite (map_nth (fun p => np_clip0 (p - margin))).
Qed.

(** * Properties of the post-processor and the interval builder *)

(** C1: for every raw prediction sequence, with spikes or negative values
    as well, the post-processor (the sequential pass
    [t[i] = min(t[i], t[i-1])], then the clamp at 0) returns a sequence
    that is non-increasing and non-negative at every index; the global
    path, which clamps before the pass, has the same two properties; and
    [10, 12, 8, 5, 6, -1, 0] becomes [10, 10, 8, 5, 5, 0, 0]. *)
Theorem postprocess_non_increasing_non_negative :
  (forall raw : list Q,
      non_increasing (postprocess_unit raw) /\
      non_negative (postprocess_unit raw) /\
      non_increasing (postprocess_global raw) /\
      non_negative (postprocess_global raw)) /\
  postprocess_unit [10; 12; 8; 5; 6; -1; 0] = [10; 10; 8; 5; 5; 0; 0] /\
  postprocess_global [10; 12; 8; 5; 6; -1; 0] = [10; 10; 8; 5; 5; 0; 0].
Proof.
  split; [ | split; reflexivity ].
  intro raw. repeat split.
  - apply postprocess_unit_non_increasing.
  - apply postprocess_unit_non_negative.
  - apply postprocess_global_non_increasing.
  - apply postprocess_global_non_negative.
Qed.

(** The global path does not run the monotone pass first. *)
Lemma global_site_clamps_first :
  ~ (forall s : pp_site, site_steps s = [MonotonePass; ClampZero]).
Proof.
  intro H. specialize (H GlobalInterval). discriminate H.
Qed.

(** C8 (as the code has it): the single-unit block, the per-unit metrics
    and the multi-unit plot run the monotone pass on the raw predictions
    and clamp afterwards; [plot_conformal_prediction_interval] clamps the
    raw predictions first and runs the monotone pass on the clamped
    values.  The two orders give the same trajectory, so every site
    returns what pass-then-clamp returns. *)
Theorem postprocess_sites_agree :
  (forall (s : pp_site) (raw : list Q),
      Forall2 Qeq (postprocess_at s raw) (clip0 (enforce_monotonic raw))) /\
  site_steps SingleUnit = [MonotonePass; ClampZero] /\
  site_steps PerUnitMetrics = [MonotonePass; ClampZero] /\
  site_steps MultipleUnits = [MonotonePass; ClampZero] /\
  site_steps GlobalInterval = [ClampZero; MonotonePass].
Proof.
  split; [ | repeat split ].
  intros s raw. destruct s; unfold postprocess_at; simpl.
  - apply (postprocess_global_unit raw).
  - apply Forall2_Qeq_refl.
  - apply Forall2_Qeq_refl.
  - apply Forall2_Qeq_refl.
Qed.

Lemma np_clip0_max (x : Q) : np_clip0 x == Qmax 0 x.
Proof.
  unfold np_clip0. destruct (Qltb x 0) eqn:E.
  - apply Qltb_true in E. symmetry. apply Q.max_l. lra.
  - apply Qltb_false in E. symmetry. apply Q.max_r. exact E.
Qed.

(** C6: for a post-processed (non-negative) trajectory and a margin
    (non-negative, as the data model defines a margin), the interval
    builder gives at every step [lower = max(0, t[i] - margin)] and
    [upper = t[i]], with [lower <= upper], [lower == 0] whenever
    [margin >= t[i]], and [lower == upper] when the margin is zero. *)
Theorem interval_builder_bounds (t : list Q) (margin : Q) :
  non_negative t -> 0 <= margin ->
  length (interval_lower margin t) = length t /\
  forall i, (i < length t)%nat ->
    nth i (interval_lower margin t) 0 == Qmax 0 (nth i t 0 - margin) /\
    nth i (interval_upper t) 0 = nth i t 0 /\
    nth i (interval_lower margin t) 0 <= nth i (interval_upper t) 0 /\
    (nth i t 0 <= margin -> nth i (interval_lower margin t) 0 == 0) /\
    (margin == 0 ->
     nth i (interval_lower margin t) 0 == nth i (interval_upper t) 0).
Proof.
  intros Ht Hm. split; [ apply interval_lower_length | ].
  intros i Hi. rewrite interval_lower_nth by exact Hi.
  unfold interval_upper. specialize (Ht i Hi).
  split; [ apply np_clip0_max | ]. split; [ reflexivity | ].
  repeat split.
  - unfold np_clip0. destruct (Qltb (nth i t 0 - margin) 0); lra.
  - intro Hle. apply np_clip0_of_nonpos. lra.
  - intro H0. rewrite np_clip0_of_nonneg by lra. lra.
Qed.

Lemma interval_builder_bounds_witness :
  length (interval_lower 3 [10; 10; 8; 5; 5; 0; 0]) = 7%nat /\
  forall i, (i < 7)%nat ->
    nth i (interval_lower 3 [10; 10; 8; 5; 5; 0; 0]) 0
      == Qmax 0 (nth i [10; 10; 8; 5; 5; 0; 0] 0 - 3) /\
    nth i (interval_upper [10; 10; 8; 5; 5; 0; 0]) 0
      = nth i [10; 10; 8; 5; 5; 0; 0] 0 /\
    nth i (interval_lower 3 [10; 10; 8; 5; 5; 0; 0]) 0
      <= nth i (interval_upper [10; 10; 8; 5; 5; 0; 0]) 0 /\
    (nth i [10; 10; 8; 5; 5; 0; 0] 0 <= 3 ->
     nth i (interval_lower 3 [10; 10; 8; 5; 5; 0; 0]) 0 == 0) /\
    (3 == 0 ->
     nth i (interval_lower 3 [10; 10; 8; 5; 5; 0; 0]) 0
       == nth i (interval_upper [10; 10; 8; 5; 5; 0; 0]) 0).
Proof.
  apply (interval_builder_bounds [10; 10; 8; 5; 5; 0; 0] 3).
  - apply (postprocess_unit_non_negative [10; 12; 8; 5; 6; -1; 0]).
  - discriminate.
Defined.

(** * Properties of the best-model guard *)

Lemma py_min_from_In {A : Type} (key : A -> np_float) (rest : list A) :
  forall best, In (py_min_from key best rest) (best :: rest).
Proof.
  induction rest as [ | x r IH ]; intro best; simpl.
  - now left.
  - destruct (float_lt (key x) (key best)).
    + right. apply IH.
    + destruct (IH best) as [H | H]; [ now left | right; now right ].
Qed.

(** When every S-score is an infinity the guard reports that there is no
    valid model. *)
Lemma infinite_scores_rejected (results : list (string * metrics)) :
  results <> [] ->
  Forall (fun e => np_isinf (S_score (snd e)) = true) results ->
  select_best_model results = NoValidModel.
Proof.
  intros Hne Hall. destruct results as [ | m rest ]; [ congruence | ].
  unfold select_best_model.
  rewrite Forall_forall in Hall.
  now rewrite (Hall _ (py_min_from_In (fun e => S_score (snd e)) rest m)).
Qed.

Lemma py_min_from_nan {A : Type} (key : A -> np_float) (rest : list A) :
  forall best, key best = NaN -> py_min_from key best rest = best.
Proof.
  induction rest as [ | x r IH ]; intros best Hb; simpl; [ reflexivity | ].
  rewrite Hb. destruct (key x); simpl; now apply IH.
Qed.

(** C7 (where the code departs from it): with the S-scores that
    [run_experiment] records for models it could not train (NaN), the
    guard does not report a missing valid model: it names the first
    model, and calibration goes on with it.  More generally the first
    model is named whenever its own score is NaN. *)
Theorem nan_scores_pass_the_guard :
  select_best_model all_failed_metrics = BestModel "LSTM" /\
  (forall (name : string) (m : metrics) (rest : list (string * metrics)),
      S_score m = NaN ->
      select_best_model ((name, m) :: rest) = BestModel name) /\
  match snd (plot_conformal_prediction_interval Q exp_series Z lcg_seed
               lcg_choice demo_predict
               (set_results_metrics Q demo_pipeline all_failed_metrics)
               (1 # 20)) with
  | Returned _ => True
  | ReturnedNone _ | Raised _ => False
  end.
Proof.
  split; [ reflexivity | ]. split.
  - intros name m rest Hm. unfold select_best_model.
    rewrite py_min_from_nan by exact Hm. simpl. now rewrite Hm.
  - vm_compute. exact I.
Qed.

(** * Properties of the entry points *)

Section EntryPoints.

Variable features : Type.
Variable np_exp : Q -> Q.
Variable np_sqrt : Q -> Q.
Variable norm_ppf : Q -> Q.
Variable rng : Type.
Variable default_rng : Z -> rng.
Variable rng_choice : rng -> list Q -> nat -> list Q * rng.
Variable model_predict : string -> window features -> Q.

Let single_unit :=
  plot_conformal_single_unit features np_exp np_sqrt norm_ppf rng default_rng
                             rng_choice model_predict.

(** C3 (where the code departs from it): whatever the pipeline, the unit
    and the level, [plot_conformal_single_unit] returns [None] and leaves
    the pipeline as it found it; [self.conformal_inference] is not
    written, so no chosen method is stored for later calls. *)
Theorem single_unit_stores_nothing (self : ExperimentPipeline features)
  (unit : Z) (alpha : Q) (fold_splits : nat) :
  fst (single_unit self unit alpha fold_splits) = self /\
  conformal_inference (fst (single_unit self unit alpha fold_splits))
    = conformal_inference self /\
  forall t, snd (single_unit self unit alpha fold_splits) <> Returned t.
Proof.
  unfold single_unit, plot_conformal_single_unit.
  destruct (select_best_model (results_metrics self)) as [ | | name ];
    try (simpl; repeat split; discriminate).
  destruct (negb (name_in name reloadable));
    [ simpl; repeat split; discriminate | ].
  destruct (length (train_units (np_unique (groups features self))) =? 0)%nat;
    [ simpl; repeat split; discriminate | ].
  destruct (length (rows_in features _ _) =? 0)%nat;
    simpl; repeat split; discriminate.
Qed.

Let global_interval :=
  plot_conformal_prediction_interval features np_exp rng default_rng
                                     rng_choice model_predict.

Let multiple_units :=
  plot_conformal_multiple_units features np_exp rng default_rng rng_choice
                                model_predict.

(** The calibration residuals [plot_conformal_prediction_interval] forms
    for the model [name]. *)
Let calibration_abs_residuals (self : ExperimentPipeline features)
  (name : string) : list Q :=
  let cal_rows :=
    rows_in features (train_units (np_unique (groups features self)))
            (sample_pool features self name) in
  absolute_residuals (map (s_y features) cal_rows)
                     (predict_all features model_predict name cal_rows).

Lemma rep_margin_interval_report (m : np_float) (preds y : list Q) :
  rep_margin (interval_report m preds y) = m.
Proof. destruct m; reflexivity. Qed.

Lemma loc_complex_method (self : ExperimentPipeline features) (alpha : Q)
  (abs_res : list Q) (f : np_float -> report) :
  loc "ComplexMethod"
      (map (fun e => (fst e, f (snd e)))
           (global_margin_dict features np_exp rng default_rng rng_choice
                               self alpha abs_res))
  = Some (f (np_median3
               (Finite (naive_quantile_margin alpha abs_res))
               (Finite (weighted_exponential_margin np_exp alpha abs_res))
               (bootstrap_margin_mean rng default_rng rng_choice
                                      (random_state self) alpha 200 abs_res))).
Proof. reflexivity. Qed.

(** What a call of the global entry point that returns a table has done. *)
Lemma global_interval_returned (self self' : ExperimentPipeline features)
  (alpha : Q) (name : string) (table : conf_table) :
  select_best_model (results_metrics self) = BestModel name ->
  global_interval self alpha = (self', Returned table) ->
  self' = set_conformal_results_df features self (Some table) /\
  exists tpreds y_test,
    table = mk_conf_table
              (map (fun e => (fst e, interval_report (snd e) tpreds y_test))
                   (global_margin_dict features np_exp rng default_rng
                      rng_choice self alpha
                      (calibration_abs_residuals self name)))
              (1 - alpha).
Proof.
  intros Hsel Hret. unfold global_interval, plot_conformal_prediction_interval in Hret.
  rewrite Hsel in Hret.
  destruct (negb (name_in name reloadable)); [ discriminate | ].
  destruct ((length (train_units (np_unique (groups features self))) =? 0)%nat
            || (length (test_units (np_unique (groups features self))) =? 0)%nat);
    [ discriminate | ].
  destruct ((length (rows_in features _ _) =? 0)%nat
            || (length (rows_in features _ _) =? 0)%nat); [ discriminate | ].
  injection Hret as Hself Htable. split.
  - rewrite <- Hself, <- Htable. reflexivity.
  - eexists. eexists. rewrite <- Htable. reflexivity.
Qed.

(** C10: when nothing is cached, [plot_conformal_multiple_units] calls the
    global entry point, reads the margin of the [ComplexMethod] row of the
    table it returns (the median of the naive, weighted and bootstrap
    margins of the calibration residuals) and stores
    [("ComplexMethod", margin)] in [self.conformal_inference]; the method
    stored is [ComplexMethod] whatever the coverages in the table are.
    This is stated for the calls in which the model is reloaded and the
    global entry point returns its table. *)
Theorem multiple_units_installs_complex_method
  (self self' : ExperimentPipeline features) (unit_ids : list Z) (alpha : Q)
  (name : string) (table : conf_table) :
  conformal_inference self = None ->
  select_best_model (results_metrics self) = BestModel name ->
  name_in name reloadable_multiple_units = true ->
  global_interval self alpha = (self', Returned table) ->
  exists r,
    loc "ComplexMethod" (conf_rows table) = Some r /\
    rep_margin r
    = np_median3
        (Finite (naive_quantile_margin alpha (calibration_abs_residuals self name)))
        (Finite (weighted_exponential_margin np_exp alpha
                   (calibration_abs_residuals self name)))
        (bootstrap_margin_mean rng default_rng rng_choice (random_state self)
                               alpha 200 (calibration_abs_residuals self name)) /\
    multiple_units self unit_ids alpha
    = (set_conformal_inference features self'
         (Some ("ComplexMethod"%string, rep_margin r)),
       ReturnedNone EndOfBody) /\
    conformal_inference (fst (multiple_units self unit_ids alpha))
    = Some ("ComplexMethod"%string, rep_margin r).
Proof.
  intros Hnone Hsel Hmulti Hglob.
  destruct (global_interval_returned self self' alpha name table Hsel Hglob)
    as [Hself [tpreds [y_test Htable]]].
  assert (Hloc : loc "ComplexMethod" (conf_rows table)
                 = Some (interval_report
                           (np_median3
                              (Finite (naive_quantile_margin alpha
                                         (calibration_abs_residuals self name)))
                              (Finite (weighted_exponential_margin np_exp alpha
                                         (calibration_abs_residuals self name)))
                              (bootstrap_margin_mean rng default_rng rng_choice
                                 (random_state self) alpha 200
                                 (calibration_abs_residuals self name)))
                           tpreds y_test)).
  { rewrite Htable. unfold conf_rows.
    apply (loc_complex_method self alpha (calibration_abs_residuals self name)
             (fun m => interval_report m tpreds y_test)). }
  eexists. split; [ exact Hloc | ]. split; [ apply rep_margin_interval_report | ].
  assert (Hcall : multiple_units self unit_ids alpha
                  = (set_conformal_inference features self'
                       (Some ("ComplexMethod"%string,
                              rep_margin (interval_report
                                (np_median3
                                   (Finite (naive_quantile_margin alpha
                                      (calibration_abs_residuals self name)))
                                   (Finite (weighted_exponential_margin np_exp alpha
                                      (calibration_abs_residuals self name)))
                                   (bootstrap_margin_mean rng default_rng rng_choice
                                      (random_state self) alpha 200
                                      (calibration_abs_residuals self name)))
                                tpreds y_test))),
                     ReturnedNone EndOfBody)).
  { unfold multiple_units, plot_conformal_multiple_units.
    rewrite Hsel, Hmulti, Hnone. simpl negb. cbv iota.
    fold global_interval. rewrite Hglob, Hloc. reflexivity. }
  split; [ exact Hcall | ]. rewrite Hcall. reflexivity.
Qed.

(** When the global entry point returns [None] instead of a table,
    [conf_df.loc] raises and nothing is stored. *)
Lemma multiple_units_without_table
  (self self' : ExperimentPipeline features) (unit_ids : list Z) (alpha : Q)
  (name : string) (why : early_exit) :
  conformal_inference self = None ->
  select_best_model (results_metrics self) = BestModel name ->
  name_in name reloadable_multiple_units = true ->
  global_interval self alpha = (self', ReturnedNone why) ->
  multiple_units self unit_ids alpha = (self', Raised AttributeError).
Proof.
  intros Hnone Hsel Hmulti Hglob.
  unfold multiple_units, plot_conformal_multiple_units.
  rewrite Hsel, Hmulti, Hnone. simpl negb. cbv iota.
  fold global_interval. now rewrite Hglob.
Qed.

Let evaluate_one := evaluate_unit features model_predict.

Let evaluate_per_unit :=
  evaluate_conformal_metrics_per_unit features np_exp np_sqrt norm_ppf rng
    default_rng rng_choice model_predict.

Lemma np_mean_finite (a : list Q) : a <> [] -> np_isfinite (np_mean a) = true.
Proof. destruct a; [ congruence | reflexivity ]. Qed.

Lemma nonempty_length {A : Type} (l : list A) : l <> [] <-> (0 < length l)%nat.
Proof.
  destruct l; simpl; split; intro H; try congruence; try lia.
Qed.

(** A unit is evaluated only when it has at least one true value, and
    then it has as many predictions as true values. *)
Lemma evaluate_one_report (self : ExperimentPipeline features) (name : string)
  (margin : np_float) (unit : Z) (r : unit_row) :
  evaluate_one self name margin unit = UnitReport r ->
  unit_id r = unit /\
  unit_y_true features self unit <> [] /\
  num_predictions r = length (unit_y_true features self unit) /\
  exists preds,
    length preds = length (unit_y_true features self unit) /\
    unit_report r
    = interval_report margin preds (unit_y_true features self unit).
Proof.
  unfold evaluate_one, evaluate_unit, unit_y_true.
  destruct (length (unit_rows features self unit) <? sequence_length self)%nat
    eqn:Hlen; [ discriminate | ].
  destruct (length (unit_windows features (sequence_length self) _) =? 0)%nat
    eqn:Hwin; [ discriminate | ].
  intro H. injection H as <-. cbn [unit_id num_predictions unit_report].
  apply Nat.eqb_neq in Hwin.
  unfold unit_windows in Hwin. rewrite length_map, length_seq, length_map in Hwin.
  assert (Hy : length (skipn (sequence_length self)
                         (map (RUL features) (unit_rows features self unit)))
               = (length (unit_rows features self unit) - sequence_length self)%nat)
    by (now rewrite length_skipn, length_map).
  assert (Hp : length (postprocess_unit
                         (map (model_predict name)
                            (unit_windows features (sequence_length self)
                               (map (row_features features)
                                    (unit_rows features self unit)))))
               = (length (unit_rows features self unit) - sequence_length self)%nat).
  { unfold postprocess_unit, clip0. rewrite length_map, enforce_monotonic_length.
    unfold unit_windows. now rewrite !length_map, length_seq. }
  split; [ reflexivity | ].
  split; [ apply nonempty_length; rewrite Hy; lia | ].
  split; [ exact (eq_trans Hp (eq_sym Hy)) | ].
  eexists. split; [ | reflexivity ]. exact (eq_trans Hp (eq_sym Hy)).
Qed.

Lemma coverage_of_finite (y lower upper : list Q) :
  y <> [] -> length lower = length y -> length upper = length y ->
  np_isfinite (coverage_of y lower upper) = true.
Proof.
  intros Hy Hl Hu. unfold coverage_of. apply np_mean_finite.
  apply nonempty_length. rewrite length_map, !length_combine.
  apply nonempty_length in Hy. lia.
Qed.

Lemma avg_width_of_finite (lower upper : list Q) :
  lower <> [] -> length upper = length lower ->
  np_isfinite (avg_width_of lower upper) = true.
Proof.
  intros Hl Hu. unfold avg_width_of. apply np_mean_finite.
  apply nonempty_length. rewrite length_map, length_combine.
  apply nonempty_length in Hl. lia.
Qed.

Lemma interval_report_finite (margin : np_float) (preds y : list Q) :
  y <> [] -> length preds = length y ->
  np_isfinite (rep_coverage (interval_report margin preds y)) = true /\
  (np_isfinite margin = true ->
   np_isfinite (rep_avg_width (interval_report margin preds y)) = true).
Proof.
  intros Hy Hp.
  assert (Hpne : preds <> [])
    by (apply nonempty_length; apply nonempty_length in Hy; lia).
  destruct margin as [m | | | ]; simpl; split; try discriminate.
  - apply coverage_of_finite; [ exact Hy | | exact Hp ].
    now rewrite interval_lower_length.
  - intros _. apply avg_width_of_finite.
    + apply nonempty_length. rewrite interval_lower_length.
      now apply nonempty_length.
    + now rewrite interval_lower_length.
  - apply coverage_of_finite; [ exact Hy | | exact Hp ].
    now rewrite length_map.
  - apply np_mean_finite, nonempty_length.
    rewrite length_map, length_combine. apply nonempty_length in Hy. lia.
  - apply np_mean_finite, nonempty_length.
    rewrite length_map, length_combine. apply nonempty_length in Hy. lia.
Qed.

Lemma reports_of_In (outcomes : list unit_outcome) (r : unit_row) :
  In r (reports_of outcomes) <-> In (UnitReport r) outcomes.
Proof.
  unfold reports_of. rewrite in_flat_map. split.
  - intros [o [Ho Hr]]. destruct o as [ why | r' ]; simpl in Hr; [ tauto | ].
    destruct Hr as [-> | []]. exact Ho.
  - intro H. exists (UnitReport r). split; [ exact H | now left ].
Qed.


(** The global entry point writes [conformal_results_df] and nothing
    else. *)
Lemma global_interval_frame (self : ExperimentPipeline features) (alpha : Q) :
  results_metrics (fst (global_interval self alpha)) = results_metrics self /\
  dl_samples (fst (global_interval self alpha)) = dl_samples self /\
  ml_samples (fst (global_interval self alpha)) = ml_samples self /\
  random_state (fst (global_interval self alpha)) = random_state self /\
  conformal_inference (fst (global_interval self alpha))
  = conformal_inference self.
Proof.
  unfold global_interval, plot_conformal_prediction_interval.
  destruct (select_best_model (results_metrics self)) as [ | | name ];
    [ repeat split | repeat split | ].
  destruct (negb (name_in name reloadable)); [ repeat split | ].
  destruct (_ || _); [ repeat split | ].
  destruct (_ || _); repeat split.
Qed.

(** Its result depends on the pipeline through the recorded metrics, the
    prepared arrays and the seed only. *)
Lemma global_interval_reads (self1 self2 : ExperimentPipeline features)
  (alpha : Q) :
  results_metrics self1 = results_metrics self2 ->
  dl_samples self1 = dl_samples self2 ->
  ml_samples self1 = ml_samples self2 ->
  random_state self1 = random_state self2 ->
  snd (global_interval self1 alpha) = snd (global_interval self2 alpha).
Proof.
  intros Hm Hd Hl Hr.
  unfold global_interval, plot_conformal_prediction_interval,
    global_margin_dict, groups, sample_pool.
  rewrite Hm, Hd, Hl, Hr.
  destruct (select_best_model (results_metrics self2)) as [ | | name ];
    [ reflexivity | reflexivity | ].
  destruct (negb (name_in name reloadable)); [ reflexivity | ].
  destruct (_ || _); [ reflexivity | ].
  destruct (_ || _); reflexivity.
Qed.

(** C9: the bootstrap margin is a function of the seed, the level, the
    number of resamples and the calibration residuals.  Each call makes
    its own generator from [self.random_state], so two runs on pipelines
    with the same [random_state] give the same margin to the last bit,
    with the mean (global path) as with the median (unit paths), for
    [B = 200] as for any [B]; and a second run of the global calibration,
    started in the state the first one left, returns the same table. *)
Theorem bootstrap_margin_deterministic
  (self1 self2 : ExperimentPipeline features) (alpha : Q) (B : nat)
  (abs_res : list Q) :
  random_state self1 = random_state self2 ->
  bootstrap_margin_mean rng default_rng rng_choice (random_state self1)
                        alpha B abs_res
  = bootstrap_margin_mean rng default_rng rng_choice (random_state self2)
                          alpha B abs_res /\
  bootstrap_margin_median rng default_rng rng_choice (random_state self1)
                          alpha B abs_res
  = bootstrap_margin_median rng default_rng rng_choice (random_state self2)
                            alpha B abs_res /\
  snd (global_interval (fst (global_interval self1 alpha)) alpha)
  = snd (global_interval self1 alpha).
Proof.
  intro Hseed. rewrite Hseed. split; [ reflexivity | ]. split; [ reflexivity | ].
  destruct (global_interval_frame self1 alpha) as [Hm [Hd [Hl [Hr _]]]].
  now apply global_interval_reads.
Qed.

End EntryPoints.

(** On the demonstration pipeline every guard of the single-unit entry
    point passes, and the call still ends without a stored method. *)
Lemma single_unit_demo :
  plot_conformal_single_unit Q exp_series sqrt_digits ppf_table Z lcg_seed
    lcg_choice demo_predict demo_pipeline 5 (1 # 20) 5
  = (demo_pipeline, ReturnedNone EndOfBody)
  /\ conformal_inference demo_pipeline = None.
Proof. split; vm_compute; reflexivity. Qed.

(** ** The entry points on concrete pipelines *)


Lemma bootstrap_margin_deterministic_witness :
  bootstrap_margin_mean Z lcg_seed lcg_choice (random_state demo_pipeline)
                        (1 # 20) 200 [1; 2; 3; 4; 5]
  = bootstrap_margin_mean Z lcg_seed lcg_choice
      (random_state (set_results_metrics Q demo_pipeline all_failed_metrics))
      (1 # 20) 200 [1; 2; 3; 4; 5] /\
  bootstrap_margin_median Z lcg_seed lcg_choice (random_state demo_pipeline)
                          (1 # 20) 200 [1; 2; 3; 4; 5]
  = bootstrap_margin_median Z lcg_seed lcg_choice
      (random_state (set_results_metrics Q demo_pipeline all_failed_metrics))
      (1 # 20) 200 [1; 2; 3; 4; 5] /\
  snd (plot_conformal_prediction_interval Q exp_series Z lcg_seed lcg_choice
         demo_predict
         (fst (plot_conformal_prediction_interval Q exp_series Z lcg_seed
                 lcg_choice demo_predict demo_pipeline (1 # 20)))
         (1 # 20))
  = snd (plot_conformal_prediction_interval Q exp_series Z lcg_seed lcg_choice
           demo_predict demo_pipeline (1 # 20)).
Proof.
  refine (bootstrap_margin_deterministic Q exp_series Z lcg_seed lcg_choice
            demo_predict demo_pipeline
            (set_results_metrics Q demo_pipeline all_failed_metrics)
            (1 # 20) 200 [1; 2; 3; 4; 5] _).
  vm_compute. reflexivity.
Defined.

Lemma multiple_units_installs_complex_method_witness :
  exists r,
    loc "ComplexMethod" (conf_rows (table_of (snd demo_global_call))) = Some r /\
    conformal_inference
      (fst (plot_conformal_multiple_units Q exp_series Z lcg_seed lcg_choice
              demo_predict demo_pipeline [5%Z] (1 # 20)))
    = Some ("ComplexMethod"%string, rep_margin r).
Proof.
  destruct (multiple_units_installs_complex_method Q exp_series Z lcg_seed
              lcg_choice demo_predict demo_pipeline (fst demo_global_call)
              [5%Z] (1 # 20) "XGBoost"%string (table_of (snd demo_global_call)))
    as [r [Hloc [_ [_ Hinf]]]].
  - vm_compute. reflexivity.
  - vm_compute. reflexivity.
  - vm_compute. reflexivity.
  - vm_compute. reflexivity.
  - exists r. split; [ exact Hloc | exact Hinf ].
Defined.

(** * Properties of sorting and indexing *)

Section SortingFacts.

Context {A : Type} (key : A -> Q).

Lemma insert_by_perm (x : A) (l : list A) :
  Permutation (insert_by key x l) (x :: l).
Proof.
  induction l as [ | y r IH ]; simpl; [ apply Permutation_refl | ].
  destruct (Qle_bool (key x) (key y)); [ apply Permutation_refl | ].
  eapply perm_trans; [ apply perm_skip, IH | apply perm_swap ].
Qed.

Lemma sort_by_perm (l : list A) : Permutation (sort_by key l) l.
Proof.
  induction l as [ | x r IH ]; simpl; [ constructor | ].
  eapply perm_trans; [ apply insert_by_perm | now apply perm_skip ].
Qed.

Lemma sort_by_length (l : list A) : length (sort_by key l) = length l.
Proof. apply Permutation_length, sort_by_perm. Qed.

Lemma sort_by_Forall (P : A -> Prop) (l : list A) :
  Forall P l -> Forall P (sort_by key l).
Proof.
  intro H. eapply Permutation_Forall; [ | exact H ].
  apply Permutation_sym, sort_by_perm.
Qed.

End SortingFacts.

(** Sorting commutes with a map that keeps the keys. *)
Lemma insert_by_map {A B : Type} (keyA : A -> Q) (keyB : B -> Q) (g : A -> B) :
  (forall a, keyB (g a) = keyA a) ->
  forall x l, map g (insert_by keyA x l) = insert_by keyB (g x) (map g l).
Proof.
  intros Hkey x l. induction l as [ | y r IH ]; simpl; [ reflexivity | ].
  rewrite !Hkey. destruct (Qle_bool (keyA x) (keyA y)); simpl; [ reflexivity | ].
  now rewrite IH.
Qed.

Lemma sort_by_map {A B : Type} (keyA : A -> Q) (keyB : B -> Q) (g : A -> B) :
  (forall a, keyB (g a) = keyA a) ->
  forall l, map g (sort_by keyA l) = sort_by keyB (map g l).
Proof.
  intros Hkey l. induction l as [ | x r IH ]; simpl; [ reflexivity | ].
  rewrite (insert_by_map keyA keyB g Hkey). now rewrite IH.
Qed.

Lemma map_fst_combine {A B : Type} (a : list A) (b : list B) :
  length a = length b -> map fst (combine a b) = a.
Proof.
  revert b. induction a as [ | x r IH ]; intros [ | y s ] H; simpl in *;
    try reflexivity; try discriminate.
  f_equal. apply IH. lia.
Qed.

(** Sorting the residuals is sorting the pairs by residual and keeping
    the residuals. *)
Lemma np_sort_pairs {B : Type} (a : list Q) (b : list B) :
  length a = length b ->
  np_sort a = map fst (sort_by fst (combine a b)).
Proof.
  intro H. unfold np_sort.
  rewrite (sort_by_map (@fst Q B) (fun x => x) fst) by reflexivity.
  now rewrite map_fst_combine.
Qed.

Lemma combine_seq_nth (w : list Q) :
  forall (a : list Q) (k : nat), length a = length w ->
    map (fun p : Q * nat => (fst p, nth (snd p - k) w 0))
        (combine a (seq k (length a)))
    = combine a w.
Proof.
  induction w as [ | y w' IH ]; intros [ | x a' ] k H; simpl in *;
    try reflexivity; try discriminate.
  rewrite Nat.sub_diag. f_equal.
  rewrite <- (IH a' (S k)) by lia.
  apply map_ext_in. intros [r i] Hin. simpl.
  apply in_combine_r in Hin. apply in_seq in Hin.
  replace (i - k)%nat with (S (i - S k)) by lia. reflexivity.
Qed.

(** [weights[np.argsort(a)]] lists the weights in the order in which
    sorting by residual puts the pairs (residual, weight). *)
Lemma np_take_argsort (a w : list Q) :
  length a = length w ->
  np_take w (np_argsort a) = map snd (sort_by fst (combine a w)).
Proof.
  intro H. unfold np_take, np_argsort.
  rewrite <- (combine_seq_nth w a 0 H).
  rewrite <- (sort_by_map (@fst Q nat) (@fst Q Q)
                (fun p => (fst p, nth (snd p - 0) w 0))) by reflexivity.
  rewrite !map_map. apply map_ext. intros [r i]. simpl.
  now rewrite Nat.sub_0_r.
Qed.

Lemma exp_weights_length (np_exp : Q -> Q) (n : nat) :
  length (exp_weights np_exp n) = n.
Proof. unfold exp_weights. now rewrite length_map, length_seq. Qed.

(** The estimator of the source is the position-weighted one. *)
Lemma weighted_exponential_by_position (np_exp : Q -> Q) (alpha : Q)
  (abs_res : list Q) :
  weighted_exponential_margin np_exp alpha abs_res
  = position_weighted_margin np_exp alpha abs_res.
Proof.
  unfold weighted_exponential_margin, position_weighted_margin, weighted_pairs.
  assert (H : length abs_res = length (exp_weights np_exp (length abs_res)))
    by (now rewrite exp_weights_length).
  rewrite (np_take_argsort abs_res _ H).
  rewrite (np_sort_pairs abs_res _ H).
  reflexivity.
Qed.

(** * Properties of the weighted estimator *)

Lemma np_searchsorted_before (a : list Q) (v : Q) :
  forall j, (j < np_searchsorted a v)%nat -> nth j a 0 < v.
Proof.
  induction a as [ | x r IH ]; simpl; intros j Hj; [ lia | ].
  destruct (Qltb x v) eqn:E; [ | lia ].
  destruct j as [ | j ]; [ now apply Qltb_true | apply IH; lia ].
Qed.

Lemma np_searchsorted_at (a : list Q) (v : Q) :
  (np_searchsorted a v < length a)%nat -> v <= nth (np_searchsorted a v) a 0.
Proof.
  induction a as [ | x r IH ]; simpl; intro H; [ lia | ].
  destruct (Qltb x v) eqn:E; [ apply IH; lia | now apply Qltb_false ].
Qed.

Lemma np_searchsorted_found (a : list Q) (v : Q) :
  a <> [] -> v <= last a 0 -> (np_searchsorted a v < length a)%nat.
Proof.
  induction a as [ | x r IH ]; intros Hne Hlast; [ congruence | ].
  simpl. destruct (Qltb x v) eqn:E; [ | lia ].
  apply Qltb_true in E. destruct r as [ | y r' ].
  - simpl in Hlast. lra.
  - apply -> Nat.succ_lt_mono. apply IH; [ discriminate | exact Hlast ].
Qed.

Lemma cumsum_from_length (a : list Q) :
  forall acc, length (cumsum_from acc a) = length a.
Proof.
  induction a as [ | x r IH ]; intro acc; simpl; [ reflexivity | ].
  now rewrite IH.
Qed.

Lemma np_cumsum_length (a : list Q) : length (np_cumsum a) = length a.
Proof. destruct a; simpl; [ reflexivity | now rewrite cumsum_from_length ]. Qed.

Lemma cumsum_from_positive (a : list Q) :
  forall acc, 0 <= acc -> Forall (fun x => 0 < x) a ->
              Forall (fun x => 0 < x) (cumsum_from acc a).
Proof.
  induction a as [ | x r IH ]; intros acc Hacc Ha; simpl; [ constructor | ].
  inversion Ha as [ | ? ? Hx Hr ]; subst.
  constructor; [ lra | apply IH; [ lra | exact Hr ] ].
Qed.

Lemma np_cumsum_positive (a : list Q) :
  Forall (fun x => 0 < x) a -> Forall (fun x => 0 < x) (np_cumsum a).
Proof.
  destruct a as [ | x r ]; intro Ha; simpl; [ constructor | ].
  inversion Ha as [ | ? ? Hx Hr ]; subst.
  constructor; [ exact Hx | apply cumsum_from_positive; [ lra | exact Hr ] ].
Qed.

Lemma last_Forall {A : Type} (P : A -> Prop) (l : list A) (d : A) :
  l <> [] -> Forall P l -> P (last l d).
Proof.
  intros Hne H. rewrite Forall_forall in H. apply H.
  destruct (exists_last Hne) as [l' [x ->]].
  rewrite last_last. apply in_or_app. right. now left.
Qed.

Lemma of_nat_nonneg (n : nat) : 0 <= of_nat n.
Proof.
  unfold of_nat. change 0 with (inject_Z 0). rewrite <- Zle_Qle. lia.
Qed.

Lemma of_nat_pos (n : nat) : (0 < n)%nat -> 0 < of_nat n.
Proof.
  intro H. unfold of_nat. change 0 with (inject_Z 0). rewrite <- Zlt_Qlt. lia.
Qed.

Lemma Qdiv_nonneg (a b : Q) : 0 <= a -> 0 <= b -> 0 <= a / b.
Proof.
  intros Ha Hb. unfold Qdiv. apply Qmult_le_0_compat; [ exact Ha | ].
  now apply Qinv_le_0_compat.
Qed.

(** The weights are positive as soon as [np.exp] is positive on the
    arguments it receives, which are non-negative. *)
Lemma exp_weights_positive (np_exp : Q -> Q) (n : nat) :
  (forall x, 0 <= x -> 0 < np_exp x) ->
  Forall (fun w => 0 < w) (exp_weights np_exp n).
Proof.
  intro Hexp. unfold exp_weights. apply Forall_forall. intros w Hw.
  apply in_map_iff in Hw. destruct Hw as [k [<- _]].
  apply Hexp. apply Qdiv_nonneg; [ apply of_nat_nonneg | ].
  apply Qdiv_nonneg; [ apply of_nat_nonneg | discriminate ].
Qed.

Lemma weighted_pairs_length (np_exp : Q -> Q) (abs_res : list Q) :
  length (weighted_pairs np_exp abs_res) = length abs_res.
Proof.
  unfold weighted_pairs. rewrite length_combine, exp_weights_length. lia.
Qed.

Lemma weighted_pairs_nth (np_exp : Q -> Q) (abs_res : list Q) (k : nat) :
  (k < length abs_res)%nat ->
  nth k (weighted_pairs np_exp abs_res) (0, 0)
  = (nth k abs_res 0, np_exp (of_nat k / (of_nat (length abs_res) / 5))).
Proof.
  intro Hk. unfold weighted_pairs. rewrite combine_nth
    by (now rewrite exp_weights_length).
  f_equal. unfold exp_weights.
  rewrite nth_indep with (d' := np_exp (of_nat 0 / (of_nat (length abs_res) / 5)))
    by (now rewrite length_map, length_seq).
  rewrite (map_nth (fun k => np_exp (of_nat k / (of_nat (length abs_res) / 5)))).
  now rewrite seq_nth.
Qed.

(** On the residuals [5, 1] at level 0.1 the two readings differ for
    every [np.exp] whose value at 2.5 is at least nine times its (positive)
    value at 0, as it is for the exponential ([12.18] against [1]). *)
Lemma weighted_margin_of_5_1 (np_exp : Q -> Q) :
  0 < np_exp (of_nat 0 / (of_nat 2 / 5)) ->
  9 * np_exp (of_nat 0 / (of_nat 2 / 5)) <= np_exp (of_nat 1 / (of_nat 2 / 5)) ->
  weighted_exponential_margin np_exp (1 # 10) [5; 1] = 1 /\
  rank_weighted_margin np_exp (1 # 10) [5; 1] = 5.
Proof.
  intros H0 H1.
  set (e0 := np_exp (of_nat 0 / (of_nat 2 / 5))) in *.
  set (e1 := np_exp (of_nat 1 / (of_nat 2 / 5))) in *.
  split.
  - unfold weighted_exponential_margin.
    change (np_argsort [5; 1]) with [1%nat; 0%nat].
    change (np_sort [5; 1]) with [1; 5].
    change (exp_weights np_exp (length [5; 1])) with [e0; e1].
    change (np_take [e0; e1] [1%nat; 0%nat]) with [e1; e0].
    change (np_cumsum [e1; e0]) with [e1; e1 + e0].
    change (last [e1; e1 + e0] 0) with (e1 + e0).
    unfold np_searchsorted.
    destruct (Qltb e1 ((1 - (1 # 10)) * (e1 + e0))) eqn:E; [ | reflexivity ].
    apply Qltb_true in E. lra.
  - unfold rank_weighted_margin.
    change (np_sort [5; 1]) with [1; 5].
    change (exp_weights np_exp (length [5; 1])) with [e0; e1].
    change (np_cumsum [e0; e1]) with [e0; e0 + e1].
    change (last [e0; e0 + e1] 0) with (e0 + e1).
    unfold np_searchsorted.
    destruct (Qltb e0 ((1 - (1 # 10)) * (e0 + e1))) eqn:E.
    + destruct (Qltb (e0 + e1) ((1 - (1 # 10)) * (e0 + e1))) eqn:E2;
        [ | reflexivity ].
      apply Qltb_true in E2. lra.
    + apply Qltb_false in E. lra.
Qed.

(** The by-rank reading gives another margin than the code on the
    residuals [5, 1] at level 0.1: the code returns 1, weights by rank
    would return 5. *)
Lemma weights_follow_position_not_rank :
  weighted_exponential_margin exp_series (1 # 10) [5; 1] = 1 /\
  rank_weighted_margin exp_series (1 # 10) [5; 1] = 5.
Proof. split; vm_compute; reflexivity. Qed.

(** C4 (as the code has it): the weight [exp(k / (n/5))] is given to the
    residual at position [k] of the residual array, not to the residual
    of rank [k]; the weights are reordered together with the residuals
    when these are sorted ascending, their cumulative sums are formed,
    and the margin is the sorted residual at the first index whose
    cumulative weight reaches [(1-alpha)] of the total.  That index is
    below [n], so the clamp to [n-1] leaves it as it is. *)
Theorem weighted_margin_by_position (np_exp : Q -> Q) (alpha : Q)
  (abs_res : list Q) :
  abs_res <> [] -> 0 < alpha -> alpha < 1 ->
  (forall x, 0 <= x -> 0 < np_exp x) ->
  (forall k, (k < length abs_res)%nat ->
     nth k (weighted_pairs np_exp abs_res) (0, 0)
     = (nth k abs_res 0, np_exp (of_nat k / (of_nat (length abs_res) / 5)))) /\
  weighted_exponential_margin np_exp alpha abs_res
  = position_weighted_margin np_exp alpha abs_res /\
  exists i,
    (i < length abs_res)%nat /\
    i = Nat.min i (length abs_res - 1) /\
    weighted_exponential_margin np_exp alpha abs_res = nth i (np_sort abs_res) 0 /\
    (1 - alpha)
      * last (np_cumsum (map snd (sort_by fst (weighted_pairs np_exp abs_res)))) 0
    <= nth i (np_cumsum (map snd (sort_by fst (weighted_pairs np_exp abs_res)))) 0 /\
    (forall j, (j < i)%nat ->
       nth j (np_cumsum (map snd (sort_by fst (weighted_pairs np_exp abs_res)))) 0
       < (1 - alpha)
         * last (np_cumsum (map snd (sort_by fst (weighted_pairs np_exp abs_res)))) 0).
Proof.
  intros Hne Ha0 Ha1 Hexp.
  split; [ intros k Hk; now apply weighted_pairs_nth | ].
  split; [ apply weighted_exponential_by_position | ].
  set (cdf := np_cumsum (map snd (sort_by fst (weighted_pairs np_exp abs_res)))).
  set (cutoff := (1 - alpha) * last cdf 0).
  assert (Hlen : length cdf = length abs_res).
  { unfold cdf. now rewrite np_cumsum_length, length_map, sort_by_length,
      weighted_pairs_length. }
  assert (Hcne : cdf <> []).
  { apply nonempty_length. rewrite Hlen. now apply nonempty_length. }
  assert (Hpos : Forall (fun x => 0 < x) cdf).
  { unfold cdf. apply np_cumsum_positive.
    apply Forall_forall. intros w Hw. apply in_map_iff in Hw.
    destruct Hw as [[r w'] [<- Hin]]. simpl.
    apply (Permutation_in _ (sort_by_perm fst _)) in Hin.
    unfold weighted_pairs in Hin. apply in_combine_r in Hin.
    pose proof (exp_weights_positive np_exp (length abs_res) Hexp) as Hw.
    rewrite Forall_forall in Hw. now apply Hw. }
  assert (Htotal : 0 < last cdf 0) by (now apply last_Forall).
  assert (Hcut : cutoff <= last cdf 0).
  { unfold cutoff.
    assert (0 <= alpha * last cdf 0)
      by (apply Qmult_le_0_compat; lra).
    setoid_replace ((1 - alpha) * last cdf 0)
      with (last cdf 0 - alpha * last cdf 0) by ring. lra. }
  pose proof (np_searchsorted_found cdf cutoff Hcne Hcut) as Hfound.
  exists (np_searchsorted cdf cutoff).
  assert (Hmin : Nat.min (np_searchsorted cdf cutoff) (length abs_res - 1)
                 = np_searchsorted cdf cutoff) by lia.
  split; [ lia | ]. split; [ now rewrite Hmin | ].
  split; [ | split ].
  - rewrite weighted_exponential_by_position.
    unfold position_weighted_margin. fold cdf. fold cutoff. rewrite Hmin.
    unfold weighted_pairs.
    rewrite <- np_sort_pairs by (now rewrite exp_weights_length).
    reflexivity.
  - now apply np_searchsorted_at.
  - apply np_searchsorted_before.
Qed.

(** The series used to run the estimators is positive on non-negative
    arguments, as the exponential is. *)
Lemma exp_terms_step (fuel k : nat) (term x : Q) :
  exp_terms (S fuel) k term x
  = term + exp_terms fuel (S k) (Qred (term * x / of_nat (S k))) x.
Proof. reflexivity. Qed.

Lemma exp_terms_nonneg (fuel : nat) :
  forall (k : nat) (term x : Q),
    0 <= term -> 0 <= x -> 0 <= exp_terms fuel k term x.
Proof.
  induction fuel as [ | fuel IH ]; intros k term x Ht Hx;
    [ apply Qle_refl | ].
  rewrite exp_terms_step.
  assert (0 <= exp_terms fuel (S k) (Qred (term * x / of_nat (S k))) x).
  { apply IH; [ | exact Hx ]. rewrite Qred_correct.
    apply Qdiv_nonneg; [ now apply Qmult_le_0_compat | apply of_nat_nonneg ]. }
  lra.
Qed.

Lemma exp_terms_ge_first (fuel k : nat) (term x : Q) :
  0 <= term -> 0 <= x -> term <= exp_terms (S fuel) k term x.
Proof.
  intros Ht Hx. rewrite exp_terms_step.
  assert (0 <= exp_terms fuel (S k) (Qred (term * x / of_nat (S k))) x).
  { apply exp_terms_nonneg; [ | exact Hx ]. rewrite Qred_correct.
    apply Qdiv_nonneg; [ now apply Qmult_le_0_compat | apply of_nat_nonneg ]. }
  lra.
Qed.

Lemma exp_series_positive (x : Q) : 0 <= x -> 0 < exp_series x.
Proof.
  intro Hx. unfold exp_series. rewrite Qred_correct.
  apply Qlt_le_trans with (y := 1); [ reflexivity | ].
  apply (exp_terms_ge_first 29 0 1 x); [ discriminate | exact Hx ].
Qed.

Lemma weighted_margin_by_position_witness :
  weighted_exponential_margin exp_series (1 # 10) [5; 1]
  = position_weighted_margin exp_series (1 # 10) [5; 1] /\
  exists i,
    (i < 2)%nat /\
    weighted_exponential_margin exp_series (1 # 10) [5; 1]
    = nth i (np_sort [5; 1]) 0.
Proof.
  destruct (weighted_margin_by_position exp_series (1 # 10) [5; 1])
    as [_ [Heq [i [Hi [_ [Hm _]]]]]].
  - discriminate.
  - reflexivity.
  - reflexivity.
  - exact exp_series_positive.
  - split; [ exact Heq | ]. exists i. split; [ exact Hi | exact Hm ].
Defined.

(** * Properties of the margin estimators *)

(** The 80th percentile of [1, 2, 3, 4, 5] is 4.2. *)
Example naive_quantile_of_five :
  naive_quantile_margin (2 # 10) [1; 2; 3; 4; 5] == 42 # 10.
Proof. reflexivity. Qed.

Lemma nth_nonneg (l : list Q) (i : nat) :
  Forall (fun x => 0 <= x) l -> 0 <= nth i l 0.
Proof.
  intro H. destruct (Nat.lt_ge_cases i (length l)) as [Hi | Hi].
  - rewrite Forall_forall in H. apply H. now apply nth_In.
  - rewrite nth_overflow by exact Hi. apply Qle_refl.
Qed.

Lemma np_sort_nonneg (a : list Q) :
  Forall (fun x => 0 <= x) a -> Forall (fun x => 0 <= x) (np_sort a).
Proof. apply sort_by_Forall. Qed.

Lemma abs_nonneg (res : list Q) : Forall (fun x => 0 <= x) (map Qabs res).
Proof.
  apply Forall_forall. intros y Hy. apply in_map_iff in Hy.
  destruct Hy as [x [<- _]]. apply Qabs_nonneg.
Qed.

(** The interpolation weight of [np.quantile] lies between 0 and 1. *)
Lemma fractional_part_bounds (v : Q) :
  0 <= v - inject_Z (Qfloor v) /\ v - inject_Z (Qfloor v) <= 1.
Proof.
  pose proof (Qfloor_le v) as Hlo. pose proof (Qlt_floor v) as Hhi.
  rewrite inject_Z_plus in Hhi. change (inject_Z 1) with 1 in Hhi.
  split; lra.
Qed.

Lemma interpolation_nonneg (a b g : Q) :
  0 <= a -> 0 <= b -> 0 <= g -> g <= 1 -> 0 <= a + g * (b - a).
Proof.
  intros Ha Hb Hg0 Hg1.
  setoid_replace (a + g * (b - a)) with ((1 - g) * a + g * b) by ring.
  assert (0 <= (1 - g) * a) by (apply Qmult_le_0_compat; lra).
  assert (0 <= g * b) by (apply Qmult_le_0_compat; lra).
  lra.
Qed.

Lemma np_quantile_nonneg (a : list Q) (q : Q) :
  Forall (fun x => 0 <= x) a -> 0 <= np_quantile a q.
Proof.
  intro Ha. unfold np_quantile.
  destruct (fractional_part_bounds (q * of_nat (length a - 1))) as [Hg0 Hg1].
  apply interpolation_nonneg; try assumption;
    apply nth_nonneg, np_sort_nonneg, Ha.
Qed.

Lemma np_sum_nonneg (a : list Q) : Forall (fun x => 0 <= x) a -> 0 <= np_sum a.
Proof.
  induction 1 as [ | x r Hx Hr IH ]; [ apply Qle_refl | ].
  change (np_sum (x :: r)) with (x + np_sum r). lra.
Qed.

Lemma np_mean_nonneg (a : list Q) :
  a <> [] -> Forall (fun x => 0 <= x) a -> finite_nonneg (np_mean a).
Proof.
  intros Hne Ha. destruct a as [ | x r ]; [ congruence | ].
  unfold np_mean, finite_nonneg.
  apply Qdiv_nonneg; [ now apply np_sum_nonneg | apply of_nat_nonneg ].
Qed.

Lemma np_median_nonneg (a : list Q) :
  Forall (fun x => 0 <= x) a -> 0 <= np_median a.
Proof.
  intro Ha. unfold np_median.
  pose proof (np_sort_nonneg a Ha) as Hs.
  destruct (Nat.even (length a)).
  - apply Qdiv_nonneg; [ | discriminate ].
    pose proof (nth_nonneg (np_sort a) (length a / 2 - 1) Hs).
    pose proof (nth_nonneg (np_sort a) (length a / 2) Hs). lra.
  - now apply nth_nonneg.
Qed.

Lemma np_median3_nonneg (a b c : np_float) :
  finite_nonneg a -> finite_nonneg b -> finite_nonneg c ->
  finite_nonneg (np_median3 a b c).
Proof.
  destruct a as [x | | | ], b as [y | | | ], c as [z | | | ]; simpl;
    try tauto.
  intros Hx Hy Hz. apply np_median_nonneg. repeat constructor; assumption.
Qed.

Lemma np_sum_squares_nonneg (res : list Q) (m : Q) :
  0 <= np_sum (map (fun v => (v - m) * (v - m)) res).
Proof.
  apply np_sum_nonneg, Forall_forall. intros y Hy. apply in_map_iff in Hy.
  destruct Hy as [v [<- _]].
  destruct (Qlt_le_dec (v - m) 0) as [Hneg | Hpos].
  - setoid_replace ((v - m) * (v - m)) with ((m - v) * (m - v)) by ring.
    apply Qmult_le_0_compat; lra.
  - now apply Qmult_le_0_compat.
Qed.

(** * Overflow *)

Lemma float_max_pos : 0 < float_max.
Proof. reflexivity. Qed.

Lemma root_of_float_max_pos : 0 <= root_of_float_max.
Proof. discriminate. Qed.

Lemma float_max_below_square :
  float_max <= root_of_float_max * root_of_float_max.
Proof. apply Qle_bool_iff. vm_compute. reflexivity. Qed.

Lemma nine_roots_fit : 9 * root_of_float_max <= float_max.
Proof. apply Qle_bool_iff. vm_compute. reflexivity. Qed.

Lemma overflow_finite (x : Q) :
  Qabs x <= float_max -> overflow x = Finite x.
Proof.
  intro H. apply Qabs_Qle_condition in H. destruct H as [Hlo Hhi].
  unfold overflow.
  destruct (Qltb float_max x) eqn:E1; qltb_props; [ lra | ].
  destruct (Qltb x (- float_max)) eqn:E2; qltb_props; [ lra | reflexivity ].
Qed.

Lemma np_sum_cons (x : Q) (r : list Q) : np_sum (x :: r) = x + np_sum r.
Proof. reflexivity. Qed.

Lemma np_sum_abs_nonneg (l : list Q) : 0 <= np_sum (map Qabs l).
Proof.
  apply np_sum_nonneg, Forall_forall. intros y Hy. apply in_map_iff in Hy.
  destruct Hy as [v [<- _]]. apply Qabs_nonneg.
Qed.

Lemma sum_overflow_finite (l : list Q) :
  forall acc, Qabs acc + np_sum (map Qabs l) <= float_max ->
    exists s, sum_overflow acc l = Finite s /\ s == acc + np_sum l.
Proof.
  induction l as [ | x r IH ]; intros acc H.
  - exists acc. split; [ reflexivity | ]. change (np_sum []) with 0. ring.
  - cbn [map] in H. rewrite np_sum_cons in H.
    pose proof (np_sum_abs_nonneg r) as Hr.
    pose proof (Qabs_triangle acc x) as Ht.
    cbn [sum_overflow]. rewrite overflow_finite by lra.
    destruct (IH (acc + x)) as [s [Hs Es]]; [ lra | ].
    exists s. split; [ exact Hs | ]. rewrite Es, np_sum_cons. ring.
Qed.

Lemma of_nat_S (n : nat) : of_nat (S n) == of_nat n + 1.
Proof.
  unfold of_nat. rewrite Nat2Z.inj_succ. unfold Z.succ.
  rewrite inject_Z_plus. reflexivity.
Qed.

Lemma np_sum_bounded (bound : Q) (l : list Q) :
  Forall (fun r => Qabs r <= bound) l ->
  np_sum (map Qabs l) <= of_nat (length l) * bound.
Proof.
  induction 1 as [ | x r Hx Hr IH ].
  - change (np_sum (map Qabs [])) with 0.
    change (of_nat (length (@nil Q))) with 0. lra.
  - cbn [map length]. rewrite np_sum_cons, of_nat_S. lra.
Qed.

Lemma square_bounded (a c : Q) : Qabs a <= c -> a * a <= c * c.
Proof.
  intro H. apply Qabs_Qle_condition in H. destruct H as [Hlo Hhi]. nra.
Qed.

Lemma square_nonneg (a : Q) : 0 <= a * a.
Proof. nra. Qed.

Lemma square_root_bounded (s c : Q) : 0 <= s -> 0 <= c -> s * s <= c * c -> s <= c.
Proof. intros Hs Hc H. nra. Qed.

Lemma np_sum_abs_le (l : list Q) : Qabs (np_sum l) <= np_sum (map Qabs l).
Proof.
  induction l as [ | x r IH ].
  - change (np_sum (map Qabs [])) with 0. change (np_sum []) with 0.
    change (Qabs 0) with 0. lra.
  - cbn [map]. rewrite !np_sum_cons.
    pose proof (Qabs_triangle x (np_sum r)). lra.
Qed.

Section MarginBounds.

Variable np_exp : Q -> Q.
Variable np_sqrt : Q -> Q.
Variable norm_ppf : Q -> Q.
Variable rng : Type.
Variable default_rng : Z -> rng.
Variable rng_choice : rng -> list Q -> nat -> list Q * rng.

(** What is assumed of the library: a square root is not negative and,
    rounded as it may be, its square is at most twice its argument; and
    a resample consists of elements of the array it is drawn from. *)
Hypothesis np_sqrt_nonneg : forall x, 0 <= x -> 0 <= np_sqrt x.
Hypothesis np_sqrt_square : forall x, 0 <= x -> np_sqrt x * np_sqrt x <= 2 * x.
Hypothesis rng_choice_draws :
  forall g a n, a <> [] -> incl (fst (rng_choice g a n)) a.

Lemma bootstrap_samples_length (B : nat) :
  forall g abs_res q,
    length (bootstrap_samples rng rng_choice B g abs_res q) = B.
Proof.
  induction B as [ | B IH ]; intros g abs_res q; simpl; [ reflexivity | ].
  destruct (rng_choice g abs_res (length abs_res)) as [sample g'].
  simpl. now rewrite IH.
Qed.

Lemma bootstrap_samples_nonneg (B : nat) :
  forall g abs_res q,
    abs_res <> [] -> Forall (fun x => 0 <= x) abs_res ->
    Forall (fun x => 0 <= x) (bootstrap_samples rng rng_choice B g abs_res q).
Proof.
  induction B as [ | B IH ]; intros g abs_res q Hne Ha; simpl;
    [ constructor | ].
  pose proof (rng_choice_draws g abs_res (length abs_res) Hne) as Hdraw.
  destruct (rng_choice g abs_res (length abs_res)) as [sample g'].
  simpl in Hdraw. constructor; [ | now apply IH ].
  apply np_quantile_nonneg. rewrite Forall_forall in *.
  intros x Hx. apply Ha, Hdraw, Hx.
Qed.

Lemma np_std_ddof1_small (res : list Q) :
  (length res <= 1)%nat -> np_std_ddof1 np_sqrt res = NaN.
Proof.
  intro H. unfold np_std_ddof1.
  destruct (length res <=? 1)%nat eqn:E; [ reflexivity | ].
  apply Nat.leb_gt in E. lia.
Qed.

Lemma np_std_ddof1_bounded (bound : Q) (res : list Q) :
  (2 <= length res)%nat ->
  Forall (fun r => Qabs r <= bound) res ->
  2 * (of_nat (length res) * bound) <= float_max ->
  2 * (of_nat (length res) * (4 * bound * bound)) <= float_max ->
  exists sigma,
    np_std_ddof1 np_sqrt res = Finite sigma /\
    0 <= sigma /\ sigma <= root_of_float_max.
Proof.
  intros Hn Hres Hsum Hsq. unfold np_std_ddof1.
  destruct (length res <=? 1)%nat eqn:E; [ apply Nat.leb_le in E; lia | ].
  clear E. pose proof float_max_pos as Hmax.
  assert (Hpos : 0 < of_nat (length res)) by (apply of_nat_pos; lia).
  pose proof (np_sum_bounded bound res Hres) as Habs.
  destruct (sum_overflow_finite res 0) as [s [-> Es]].
  { change (Qabs 0) with 0. lra. }
  pose proof (np_sum_abs_le res) as Htot.
  assert (Hs : Qabs s <= of_nat (length res) * bound).
  { setoid_replace s with (np_sum res) by (rewrite Es; ring). lra. }
  set (m := s / of_nat (length res)).
  assert (Hm : Qabs m <= bound).
  { apply Qabs_Qle_condition in Hs. destruct Hs as [Hlo Hhi].
    apply Qabs_Qle_condition. unfold m. split.
    - apply Qle_shift_div_l; [ exact Hpos | lra ].
    - apply Qle_shift_div_r; [ exact Hpos | lra ]. }
  set (squares := map (fun v => (v - m) * (v - m)) res).
  assert (Hsquares : Forall (fun q => Qabs q <= 4 * bound * bound) squares).
  { unfold squares. apply Forall_forall. intros q Hq.
    apply in_map_iff in Hq. destruct Hq as [v [<- Hv]].
    rewrite Forall_forall in Hres. specialize (Hres v Hv).
    rewrite Qabs_pos by apply square_nonneg.
    assert (Hd : Qabs (v - m) <= 2 * bound).
    { apply Qabs_Qle_condition in Hres. apply Qabs_Qle_condition in Hm.
      apply Qabs_Qle_condition. lra. }
    apply square_bounded in Hd. lra. }
  pose proof (np_sum_bounded _ squares Hsquares) as Hsqsum.
  assert (Hlen : length squares = length res)
    by (unfold squares; apply length_map).
  rewrite Hlen in Hsqsum.
  destruct (sum_overflow_finite squares 0) as [v [-> Ev]].
  { change (Qabs 0) with 0. lra. }
  pose proof (np_sum_abs_le squares) as Hv1.
  pose proof (np_sum_squares_nonneg res m) as Hv0. fold squares in Hv0.
  assert (Hv : 0 <= v /\ 2 * v <= float_max).
  { pose proof (Qle_Qabs (np_sum squares)). lra. }
  destruct Hv as [Hv_lo Hv_hi].
  assert (Hdf : 1 <= of_nat (length res - 1)).
  { unfold of_nat. change 1 with (inject_Z 1). rewrite <- Zle_Qle. lia. }
  set (x := v / of_nat (length res - 1)).
  assert (Hx : 0 <= x /\ x <= v).
  { unfold x. split.
    - apply Qdiv_nonneg; [ exact Hv_lo | lra ].
    - apply Qle_shift_div_r; [ lra | nra ]. }
  destruct Hx as [Hx_lo Hx_hi].
  exists (np_sqrt x). split; [ reflexivity | ].
  pose proof (np_sqrt_nonneg x Hx_lo) as Hr0.
  split; [ exact Hr0 | ].
  apply square_root_bounded; [ exact Hr0 | apply root_of_float_max_pos | ].
  pose proof (np_sqrt_square x Hx_lo). pose proof float_max_below_square. lra.
Qed.

Lemma parametric_margin_nonneg (alpha bound : Q) (res : list Q) :
  (2 <= length res)%nat ->
  Forall (fun r => Qabs r <= bound) res ->
  2 * (of_nat (length res) * bound) <= float_max ->
  2 * (of_nat (length res) * (4 * bound * bound)) <= float_max ->
  0 <= norm_ppf (1 - alpha) -> norm_ppf (1 - alpha) <= 9 ->
  finite_nonneg (parametric_margin np_sqrt norm_ppf alpha res).
Proof.
  intros Hn Hres Hsum Hsq Hz0 Hz9. unfold parametric_margin.
  destruct (np_std_ddof1_bounded bound res Hn Hres Hsum Hsq)
    as [sigma [-> [Hs0 Hs1]]].
  set (z := norm_ppf (1 - alpha)) in *.
  pose proof root_of_float_max_pos as Hr. pose proof nine_roots_fit as Hfit.
  assert (Hprod : 0 <= z * sigma /\ z * sigma <= 9 * root_of_float_max)
    by (split; nra).
  rewrite overflow_finite.
  - exact (proj1 Hprod).
  - rewrite Qabs_pos by exact (proj1 Hprod). lra.
Qed.

(** C2 (as the code has it): for a non-empty set of residuals of
    magnitude at most [bound], small enough that neither their sum nor
    the sum of their squared deviations leaves the float range, and a
    level in (0,1), the naive quantile (which the global Jackknife+ and
    CV+ placeholders return), the weighted exponential margin, the
    bootstrap margin (mean and median of 200 resamples) and the global
    ComplexMethod median are finite and at least zero.  The parametric
    margin [z * std(ddof=1)], and with it the placeholders and the
    ComplexMethod median of the unit paths, is finite and at least zero
    when there are two residuals or more and [0 <= z <= 9]; with a single
    residual it is NaN. *)
Theorem margins_finite_nonneg (random_state : Z) (alpha bound : Q)
  (res : list Q) :
  res <> [] -> 0 < alpha -> alpha < 1 ->
  Forall (fun r => Qabs r <= bound) res ->
  2 * (of_nat (length res) * bound) <= float_max ->
  2 * (of_nat (length res) * (4 * bound * bound)) <= float_max ->
  0 <= naive_quantile_margin alpha (map Qabs res) /\
  0 <= weighted_exponential_margin np_exp alpha (map Qabs res) /\
  finite_nonneg (bootstrap_margin_mean rng default_rng rng_choice random_state
                                       alpha 200 (map Qabs res)) /\
  0 <= bootstrap_margin_median rng default_rng rng_choice random_state
                               alpha 200 (map Qabs res) /\
  finite_nonneg
    (np_median3
       (Finite (naive_quantile_margin alpha (map Qabs res)))
       (Finite (weighted_exponential_margin np_exp alpha (map Qabs res)))
       (bootstrap_margin_mean rng default_rng rng_choice random_state
                              alpha 200 (map Qabs res))) /\
  ((2 <= length res)%nat ->
   0 <= norm_ppf (1 - alpha) -> norm_ppf (1 - alpha) <= 9 ->
   finite_nonneg (parametric_margin np_sqrt norm_ppf alpha res) /\
   finite_nonneg
     (np_median3
        (parametric_margin np_sqrt norm_ppf alpha res)
        (Finite (weighted_exponential_margin np_exp alpha (map Qabs res)))
        (Finite (bootstrap_margin_median rng default_rng rng_choice
                   random_state alpha 200 (map Qabs res))))) /\
  ((length res = 1)%nat ->
   parametric_margin np_sqrt norm_ppf alpha res = NaN).
Proof.
  intros Hne Ha0 Ha1 Hres Hsum Hsq.
  pose proof (abs_nonneg res) as Habs.
  assert (Habs_ne : map Qabs res <> [])
    by (destruct res; [ congruence | discriminate ]).
  assert (Hnaive : 0 <= naive_quantile_margin alpha (map Qabs res))
    by (now apply np_quantile_nonneg).
  assert (Hweighted :
            0 <= weighted_exponential_margin np_exp alpha (map Qabs res))
    by (unfold weighted_exponential_margin; now apply nth_nonneg, np_sort_nonneg).
  assert (Hsamples :
            Forall (fun x => 0 <= x)
                   (bootstrap_samples rng rng_choice 200
                      (default_rng random_state) (map Qabs res) (1 - alpha)))
    by (now apply bootstrap_samples_nonneg).
  assert (Hmean :
            finite_nonneg (bootstrap_margin_mean rng default_rng rng_choice
                             random_state alpha 200 (map Qabs res))).
  { unfold bootstrap_margin_mean. apply np_mean_nonneg; [ | exact Hsamples ].
    apply nonempty_length. rewrite bootstrap_samples_length. lia. }
  assert (Hmedian :
            0 <= bootstrap_margin_median rng default_rng rng_choice
                   random_state alpha 200 (map Qabs res))
    by (unfold bootstrap_margin_median; now apply np_median_nonneg).
  repeat split; try assumption.
  - now apply np_median3_nonneg.
  - now apply (parametric_margin_nonneg alpha bound).
  - apply np_median3_nonneg; try assumption.
    now apply (parametric_margin_nonneg alpha bound).
  - intro Hone. unfold parametric_margin.
    rewrite np_std_ddof1_small by lia. reflexivity.
Qed.

End MarginBounds.

(** The stand-ins meet what the theorem assumes of the library. *)
Lemma sqrt_digits_nonneg (x : Q) : 0 <= x -> 0 <= sqrt_digits x.
Proof.
  intros _. unfold sqrt_digits. apply Qdiv_nonneg.
  - change 0 with (inject_Z 0). rewrite <- Zle_Qle. apply Z.sqrt_nonneg.
  - change 0 with (inject_Z 0). rewrite <- Zle_Qle. lia.
Qed.

Lemma scaled_numerator (num : Z) (den : positive) :
  inject_Z (num * Zpos den * 10 ^ 12)
  == (num # den) * (inject_Z (Zpos den * 10 ^ 6) * inject_Z (Zpos den * 10 ^ 6)).
Proof.
  assert (Hden : ~ inject_Z (Zpos den) == 0).
  { change 0 with (inject_Z 0). rewrite inject_Z_injective. lia. }
  rewrite (Qmake_Qdiv num den), !inject_Z_mult.
  change (inject_Z (10 ^ 12)) with (inject_Z (10 ^ 6) * inject_Z (10 ^ 6)).
  field. exact Hden.
Qed.

Lemma sqrt_digits_square (x : Q) :
  0 <= x -> sqrt_digits x * sqrt_digits x <= 2 * x.
Proof.
  intro Hx. unfold sqrt_digits.
  set (N := (Qnum x * Zpos (Qden x) * 10 ^ 12)%Z).
  set (D := (Zpos (Qden x) * 10 ^ 6)%Z).
  assert (Hnum : (0 <= Qnum x)%Z).
  { unfold Qle in Hx. simpl in Hx. lia. }
  assert (HN : (0 <= N)%Z) by (unfold N; lia).
  assert (HD : 0 < inject_Z D).
  { change 0 with (inject_Z 0). rewrite <- Zlt_Qlt. unfold D. lia. }
  assert (Hs : inject_Z (Z.sqrt N) * inject_Z (Z.sqrt N) <= inject_Z N).
  { rewrite <- inject_Z_mult, <- Zle_Qle. exact (proj1 (Z.sqrt_spec N HN)). }
  assert (HxN : inject_Z N == x * (inject_Z D * inject_Z D)).
  { unfold N, D. destruct x as [num den]. apply scaled_numerator. }
  setoid_replace (inject_Z (Z.sqrt N) / inject_Z D
                  * (inject_Z (Z.sqrt N) / inject_Z D))
    with (inject_Z (Z.sqrt N) * inject_Z (Z.sqrt N)
          / (inject_Z D * inject_Z D))
    by (field; lra).
  apply Qle_shift_div_r; [ nra | ].
  assert (HN0 : 0 <= inject_Z N)
    by (change 0 with (inject_Z 0); rewrite <- Zle_Qle; exact HN).
  set (p := x * (inject_Z D * inject_Z D)) in *.
  setoid_replace (2 * x * (inject_Z D * inject_Z D)) with (2 * p)
    by (unfold p; ring).
  lra.
Qed.

Lemma lcg_choice_draws (n : nat) :
  forall (g : Z) (a : list Q), a <> [] -> incl (fst (lcg_choice g a n)) a.
Proof.
  induction n as [ | n IH ]; intros g a Hne; simpl.
  - intros x [].
  - specialize (IH (lcg_next g) a Hne).
    destruct (lcg_choice (lcg_next g) a n) as [rest g'']. simpl in *.
    intros x [<- | Hx]; [ | now apply IH ].
    apply nth_In. apply nonempty_length in Hne.
    assert (0 <= lcg_next g mod Z.of_nat (length a)
            < Z.of_nat (length a))%Z by (apply Z.mod_pos_bound; lia).
    lia.
Qed.

(** With one residual the parametric margin is NaN, whatever the level;
    at a level above one half it is negative; and with two residuals of
    magnitude [1e200] the squared deviations overflow and it is plus
    infinity. *)
Lemma parametric_margin_not_a_margin :
  (forall (np_sqrt norm_ppf : Q -> Q) (alpha r : Q),
      parametric_margin np_sqrt norm_ppf alpha [r] = NaN) /\
  ~ finite_nonneg (parametric_margin sqrt_digits ppf_table (1 # 20) [3]) /\
  ~ finite_nonneg (parametric_margin sqrt_digits ppf_table (6 # 10) [1; 3]) /\
  parametric_margin sqrt_digits ppf_table (1 # 20)
    [inject_Z (10 ^ 200); - inject_Z (10 ^ 200)] = PosInf.
Proof.
  split; [ reflexivity | ]. split; [ | split ].
  - intro H. exact H.
  - intro H.
    assert (E : parametric_margin sqrt_digits ppf_table (6 # 10) [1; 3]
                = Finite (-2292609789120 # 6400000000000))
      by (vm_compute; reflexivity).
    rewrite E in H. simpl in H. apply Qle_bool_iff in H. discriminate H.
  - vm_compute. reflexivity.
Qed.

Lemma margins_finite_nonneg_witness :
  0 <= naive_quantile_margin (1 # 20) (map Qabs [1; -3; 2]) /\
  0 <= weighted_exponential_margin exp_series (1 # 20) (map Qabs [1; -3; 2]) /\
  finite_nonneg (bootstrap_margin_mean Z lcg_seed lcg_choice 42 (1 # 20) 200
                   (map Qabs [1; -3; 2])) /\
  finite_nonneg (parametric_margin sqrt_digits ppf_table (1 # 20) [1; -3; 2]).
Proof.
  destruct (margins_finite_nonneg exp_series sqrt_digits ppf_table Z lcg_seed
              lcg_choice sqrt_digits_nonneg sqrt_digits_square
              (fun g a n => lcg_choice_draws n g a)
              42 (1 # 20) 3 [1; -3; 2])
    as [Hnaive [Hweighted [Hmean [_ [_ [Hparam _]]]]]].
  - discriminate.
  - reflexivity.
  - reflexivity.
  - repeat constructor; apply Qle_bool_iff; vm_compute; reflexivity.
  - apply Qle_bool_iff. vm_compute. reflexivity.
  - apply Qle_bool_iff. vm_compute. reflexivity.
  - split; [ exact Hnaive | ]. split; [ exact Hweighted | ].
    split; [ exact Hmean | ].
    apply Hparam; [ apply le_S, le_n | | ].
    + apply Qle_bool_iff. vm_compute. reflexivity.
    + apply Qle_bool_iff. vm_compute. reflexivity.
Defined.

(** * Further properties of the post-processor *)

Lemma monotone_from_nth (l : list Q) :
  forall (prev : Q) (i : nat), (i < length l)%nat ->
    nth i (monotone_from prev l) 0 <= prev /\
    (forall j, (j <= i)%nat -> nth i (monotone_from prev l) 0 <= nth j l 0) /\
    (nth i (monotone_from prev l) 0 = prev \/
     exists j, (j <= i)%nat /\ nth i (monotone_from prev l) 0 = nth j l 0).
Proof.
  induction l as [ | x r IH ]; intros prev i Hi; simpl in Hi; [ lia | ].
  cbn [monotone_from]. cbv zeta.
  set (x' := if Qltb prev x then prev else x).
  assert (Hx' : x' <= prev /\ x' <= x /\ (x' = prev \/ x' = x)).
  { unfold x'. destruct (Qltb prev x) eqn:E; qltb_props.
    - repeat split; [ apply Qle_refl | now apply Qlt_le_weak | now left ].
    - repeat split; [ exact E | apply Qle_refl | now right ]. }
  destruct Hx' as [Hp [Hx Hor]].
  destruct i as [ | i ].
  - cbn [nth]. split; [ exact Hp | ]. split.
    + intros j Hj. replace j with 0%nat by lia. exact Hx.
    + destruct Hor as [-> | ->]; [ now left | right; exists 0%nat; split; [ lia | reflexivity ] ].
  - cbn [nth]. destruct (IH x' i ltac:(lia)) as [H1 [H2 H3]].
    split; [ eapply Qle_trans; eassumption | ]. split.
    + intros j Hj. destruct j as [ | j ].
      * cbn [nth]. eapply Qle_trans; eassumption.
      * cbn [nth]. apply H2. lia.
    + destruct H3 as [H3 | [j [Hj H3]]].
      * rewrite H3. destruct Hor as [-> | ->];
          [ now left | right; exists 0%nat; split; [ lia | reflexivity ] ].
      * right. exists (S j). split; [ lia | exact H3 ].
Qed.

Lemma enforce_monotonic_nth (raw : list Q) (i : nat) :
  (i < length raw)%nat ->
  (forall j, (j <= i)%nat -> nth i (enforce_monotonic raw) 0 <= nth j raw 0) /\
  exists j, (j <= i)%nat /\ nth i (enforce_monotonic raw) 0 = nth j raw 0.
Proof.
  destruct raw as [ | x r ]; intro Hi; simpl in Hi; [ lia | ].
  cbn [enforce_monotonic]. destruct i as [ | i ].
  - cbn [nth]. split.
    + intros j Hj. replace j with 0%nat by lia. apply Qle_refl.
    + exists 0%nat. split; [ lia | reflexivity ].
  - cbn [nth]. destruct (monotone_from_nth r x i ltac:(lia)) as [H1 [H2 H3]].
    split.
    + intros j Hj. destruct j as [ | j ]; cbn [nth]; [ exact H1 | apply H2; lia ].
    + destruct H3 as [H3 | [j [Hj H3]]].
      * exists 0%nat. split; [ lia | exact H3 ].
      * exists (S j). split; [ lia | exact H3 ].
Qed.

Lemma clip0_nth (a : list Q) (i : nat) :
  (i < length a)%nat -> nth i (clip0 a) 0 = np_clip0 (nth i a 0).
Proof.
  intro Hi. unfold clip0.
  rewrite nth_indep with (d' := np_clip0 0) by (now rewrite length_map).
  apply map_nth.
Qed.

(** X1: every post-processed prediction is the smallest clamped raw
    prediction seen so far: it is at most [max(raw[j], 0)] for every
    [j <= i], and it equals one of them. *)
Theorem postprocess_is_running_minimum (raw : list Q) (i : nat) :
  (i < length raw)%nat ->
  (forall j, (j <= i)%nat ->
     nth i (postprocess_unit raw) 0 <= np_clip0 (nth j raw 0)) /\
  exists j, (j <= i)%nat /\
            nth i (postprocess_unit raw) 0 = np_clip0 (nth j raw 0).
Proof.
  intro Hi. unfold postprocess_unit.
  rewrite clip0_nth by (now rewrite enforce_monotonic_length).
  destruct (enforce_monotonic_nth raw i Hi) as [Hle [j [Hj Heq]]].
  split.
  - intros k Hk. apply np_clip0_le. now apply Hle.
  - exists j. split; [ exact Hj | now rewrite Heq ].
Qed.

Lemma postprocess_is_running_minimum_witness :
  (forall j, (j <= 4)%nat ->
     nth 4 (postprocess_unit [10; 12; 8; 5; 6; -1; 0]) 0
     <= np_clip0 (nth j [10; 12; 8; 5; 6; -1; 0] 0)) /\
  exists j, (j <= 4)%nat /\
            nth 4 (postprocess_unit [10; 12; 8; 5; 6; -1; 0]) 0
            = np_clip0 (nth j [10; 12; 8; 5; 6; -1; 0] 0).
Proof.
  apply (postprocess_is_running_minimum [10; 12; 8; 5; 6; -1; 0] 4).
  simpl. lia.
Defined.

Lemma monotone_from_fixed (l : list Q) :
  forall prev, below prev l -> monotone_from prev l = l.
Proof.
  induction l as [ | x r IH ]; intros prev Hb; [ reflexivity | ].
  destruct Hb as [Hx Hr]. cbn [monotone_from]. cbv zeta.
  assert (E : Qltb prev x = false) by (now apply Qltb_false).
  rewrite E. now rewrite IH.
Qed.

Lemma enforce_monotonic_fixed (l : list Q) :
  descending l -> enforce_monotonic l = l.
Proof.
  destruct l as [ | x r ]; intro H; [ reflexivity | ].
  cbn [enforce_monotonic]. now rewrite monotone_from_fixed.
Qed.

Lemma clip0_fixed (l : list Q) :
  Forall (fun x => 0 <= x) l -> clip0 l = l.
Proof.
  induction 1 as [ | x r Hx Hr IH ]; [ reflexivity | ].
  unfold clip0 in *. cbn [map]. rewrite IH. now rewrite np_clip0_of_nonneg.
Qed.

(** X2: post-processing an already post-processed trajectory changes
    nothing, on the unit paths as on the global path, and neither path
    changes the number of predictions. *)
Theorem postprocess_idempotent (raw : list Q) :
  postprocess_unit (postprocess_unit raw) = postprocess_unit raw /\
  postprocess_global (postprocess_global raw) = postprocess_global raw /\
  length (postprocess_unit raw) = length raw /\
  length (postprocess_global raw) = length raw.
Proof.
  split; [ | split; [ | split ] ].
  - unfold postprocess_unit at 1.
    rewrite enforce_monotonic_fixed
      by (apply clip0_descending, enforce_monotonic_descending).
    apply clip0_fixed, clip0_Forall_nonneg.
  - unfold postprocess_global at 1.
    rewrite clip0_fixed
      by (apply enforce_monotonic_Forall_nonneg, clip0_Forall_nonneg).
    apply enforce_monotonic_fixed, enforce_monotonic_descending.
  - unfold postprocess_unit, clip0.
    now rewrite length_map, enforce_monotonic_length.
  - unfold postprocess_global, clip0.
    now rewrite enforce_monotonic_length, length_map.
Qed.

(** * Further properties of the interval builder and the evaluator *)

Lemma non_negative_Forall (t : list Q) :
  non_negative t -> Forall (fun x => 0 <= x) t.
Proof.
  intro H. apply Forall_forall. intros x Hx.
  destruct (In_nth t x 0 Hx) as [i [Hi <-]]. now apply H.
Qed.

Lemma non_increasing_between (l : list Q) (i j : nat) :
  non_increasing l -> (i <= j)%nat -> (j < length l)%nat ->
  nth j l 0 <= nth i l 0.
Proof.
  intros H Hij Hj. induction j as [ | j IH ].
  - replace i with 0%nat by lia. apply Qle_refl.
  - destruct (Nat.eq_dec i (S j)) as [-> | Hne]; [ apply Qle_refl | ].
    apply Qle_trans with (y := nth j l 0); [ | apply IH; lia ].
    specialize (H (S j) ltac:(lia)).
    replace (S j - 1)%nat with j in H by lia. exact H.
Qed.

Lemma interval_lower_with_nth (sub : Q -> Q -> Q) (margin : Q) (t : list Q)
  (i : nat) :
  (i < length t)%nat ->
  nth i (interval_lower_with sub margin t) 0 = np_clip0 (sub (nth i t 0) margin).
Proof.
  intro Hi. unfold interval_lower_with, clip0. rewrite map_map.
  rewrite nth_indep with (d' := np_clip0 (sub 0 margin))
    by (now rewrite length_map).
  now rewrite (map_nth (fun p => np_clip0 (sub p margin))).
Qed.

(** X3: the shape of the lower band does not depend on how the
    subtraction [preds - margin] rounds.  For every subtraction that is
    monotone in the prediction and gives at most the prediction (as a
    float subtraction of a margin that is not negative does), the lower
    bounds of a non-negative, non-increasing trajectory are non-negative,
    non-increasing and at most the predictions; so once a lower bound is
    zero, every later one is zero.  The exact difference is one such
    subtraction. *)
Theorem interval_lower_shape (sub : Q -> Q -> Q) (t : list Q) (margin : Q) :
  (forall p q, p <= q -> sub p margin <= sub q margin) ->
  (forall p, sub p margin <= p) ->
  non_negative t -> non_increasing t ->
  non_negative (interval_lower_with sub margin t) /\
  non_increasing (interval_lower_with sub margin t) /\
  (forall i, (i < length t)%nat ->
     nth i (interval_lower_with sub margin t) 0 <= nth i t 0) /\
  (forall i j, (i <= j)%nat -> (j < length t)%nat ->
     nth i (interval_lower_with sub margin t) 0 == 0 ->
     nth j (interval_lower_with sub margin t) 0 == 0) /\
  interval_lower_with Qminus margin t = interval_lower margin t.
Proof.
  intros Hmono Hbelow Hnn Hni.
  assert (Hlen : length (interval_lower_with sub margin t) = length t)
    by (unfold interval_lower_with, clip0; now rewrite !length_map).
  assert (H1 : non_negative (interval_lower_with sub margin t)).
  { intros i Hi. rewrite Hlen in Hi.
    rewrite interval_lower_with_nth by exact Hi. apply np_clip0_nonneg. }
  assert (H2 : non_increasing (interval_lower_with sub margin t)).
  { intros i Hi. rewrite Hlen in Hi.
    rewrite !interval_lower_with_nth by lia.
    apply np_clip0_le, Hmono. apply Hni. exact Hi. }
  split; [ exact H1 | ]. split; [ exact H2 | ]. split; [ | split ].
  - intros i Hi. rewrite interval_lower_with_nth by exact Hi.
    specialize (Hnn i Hi). specialize (Hbelow (nth i t 0)).
    unfold np_clip0. destruct (Qltb (sub (nth i t 0) margin) 0); lra.
  - intros i j Hij Hj H0.
    pose proof (non_increasing_between _ i j H2 Hij ltac:(lia)) as Hle.
    specialize (H1 j ltac:(lia)). lra.
  - reflexivity.
Qed.

Lemma interval_lower_shape_witness :
  non_negative (interval_lower_with Qminus 3 [10; 10; 8; 5; 5; 0; 0]) /\
  non_increasing (interval_lower_with Qminus 3 [10; 10; 8; 5; 5; 0; 0]).
Proof.
  destruct (interval_lower_shape Qminus [10; 10; 8; 5; 5; 0; 0] 3)
    as [H1 [H2 _]].
  - intros p q H. lra.
  - intro p. lra.
  - apply (postprocess_unit_non_negative [10; 12; 8; 5; 6; -1; 0]).
  - apply (postprocess_unit_non_increasing [10; 12; 8; 5; 6; -1; 0]).
  - split; assumption.
Defined.

Lemma np_sum_bounds (a : list Q) (lo hi : Q) :
  Forall (fun x => lo <= x /\ x <= hi) a ->
  of_nat (length a) * lo <= np_sum a /\ np_sum a <= of_nat (length a) * hi.
Proof.
  induction 1 as [ | x r [Hlo Hhi] Hr [IHlo IHhi] ].
  - change (np_sum []) with 0. change (of_nat (length (@nil Q))) with 0.
    split; lra.
  - change (np_sum (x :: r)) with (x + np_sum r).
    change (length (x :: r)) with (S (length r)).
    assert (E : of_nat (S (length r)) == 1 + of_nat (length r)).
    { unfold of_nat. rewrite Nat2Z.inj_succ, <- Z.add_1_l.
      now rewrite inject_Z_plus. }
    rewrite E. split.
    + setoid_replace ((1 + of_nat (length r)) * lo)
        with (lo + of_nat (length r) * lo) by ring. lra.
    + setoid_replace ((1 + of_nat (length r)) * hi)
        with (hi + of_nat (length r) * hi) by ring. lra.
Qed.

(** The mean of a non-empty array lies between any bounds of its
    entries. *)
Lemma np_mean_bounds (a : list Q) (lo hi : Q) :
  a <> [] -> Forall (fun x => lo <= x /\ x <= hi) a ->
  exists m, np_mean a = Finite m /\ lo <= m /\ m <= hi.
Proof.
  intros Hne Ha. destruct (np_sum_bounds a lo hi Ha) as [Hlo Hhi].
  destruct a as [ | x r ]; [ congruence | ].
  exists (np_sum (x :: r) / of_nat (length (x :: r))).
  split; [ reflexivity | ].
  assert (Hn : 0 < of_nat (length (x :: r))) by (apply of_nat_pos; simpl; lia).
  split.
  - apply Qle_shift_div_l; [ exact Hn | ]. rewrite Qmult_comm. exact Hlo.
  - apply Qle_shift_div_r; [ exact Hn | ]. rewrite Qmult_comm. exact Hhi.
Qed.







Lemma first_nonpositive_some (a : list Q) :
  forall i, first_nonpositive a = Some i ->
    (i < length a)%nat /\ nth i a 0 <= 0 /\
    forall j, (j < i)%nat -> 0 < nth j a 0.
Proof.
  induction a as [ | x r IH ]; intros i H; [ discriminate | ].
  cbn [first_nonpositive] in H. destruct (Qle_bool x 0) eqn:E.
  - injection H as <-. split; [ simpl; lia | ]. split.
    + now apply Qle_bool_iff.
    + intros j Hj. lia.
  - destruct (first_nonpositive r) as [ k | ]; [ | discriminate ].
    injection H as <-. destruct (IH k eq_refl) as [Hk [Hle Hlt]].
    split; [ simpl; lia | ]. split; [ exact Hle | ].
    intros j Hj. destruct j as [ | j ]; cbn [nth].
    + apply Qnot_le_lt. intro Hx. apply Qle_bool_iff in Hx. congruence.
    + apply Hlt. lia.
Qed.

Lemma first_nonpositive_none (a : list Q) :
  first_nonpositive a = None -> forall j, (j < length a)%nat -> 0 < nth j a 0.
Proof.
  induction a as [ | x r IH ]; intros H j Hj; simpl in Hj; [ lia | ].
  cbn [first_nonpositive] in H. destruct (Qle_bool x 0) eqn:E; [ discriminate | ].
  destruct (first_nonpositive r); [ discriminate | ].
  destruct j as [ | j ]; cbn [nth].
  - apply Qnot_le_lt. intro Hx. apply Qle_bool_iff in Hx. congruence.
  - apply IH; [ reflexivity | lia ].
Qed.

Lemma index_or_last_range (a : list Q) :
  a <> [] ->
  (0 <= index_or_last a <= Z.of_nat (length a) - 1)%Z /\
  forall j, (Z.of_nat j < index_or_last a)%Z -> 0 < nth j a 0.
Proof.
  intro Hne. apply nonempty_length in Hne. unfold index_or_last.
  destruct (first_nonpositive a) as [ i | ] eqn:E.
  - destruct (first_nonpositive_some a i E) as [Hi [_ Hlt]].
    split; [ lia | ]. intros j Hj. apply Hlt. lia.
  - split; [ lia | ]. intros j Hj.
    apply (first_nonpositive_none a E). lia.
Qed.

Lemma index_or_last_first_zero (a : list Q) :
  a <> [] -> first_zero_index a (index_or_last a).
Proof.
  intro Hne. destruct (index_or_last_range a Hne) as [Hrange Hpos].
  split; [ exact Hrange | ]. split; [ exact Hpos | ].
  unfold index_or_last in *.
  destruct (first_nonpositive a) as [ i | ] eqn:E.
  - left. rewrite Nat2Z.id.
    exact (proj1 (proj2 (first_nonpositive_some a i E))).
  - right. split; [ reflexivity | ]. exact (first_nonpositive_none a E).
Qed.

Lemma first_zero_index_unique (a : list Q) (k k' : Z) :
  first_zero_index a k -> first_zero_index a k' -> k = k'.
Proof.
  assert (Hlt : forall i j, first_zero_index a i -> first_zero_index a j ->
                            (i < j)%Z -> False).
  { intros i j [Hi [_ Hi_at]] [Hj [Hj_pos _]] Hij.
    specialize (Hj_pos (Z.to_nat i)). rewrite Z2Nat.id in Hj_pos by lia.
    specialize (Hj_pos Hij).
    destruct Hi_at as [Hle | [Hlast _]]; [ lra | lia ]. }
  intros Hk Hk'.
  destruct (Z.lt_trichotomy k k') as [H | [H | H]];
    [ exfalso; exact (Hlt k k' Hk Hk' H) | exact H
    | exfalso; exact (Hlt k' k Hk' Hk H) ].
Qed.

(** X5: on aligned, non-empty sequences each of the two indices that
    [compute_index_difference] compares is determined by its sequence:
    it is the first step whose value is at or below zero (every earlier
    value is positive), or the last step when every value is positive.
    The result is the absolute difference of the two, an integer between
    0 and [n - 1], and does not depend on the order of the two
    sequences. *)
Theorem index_difference_range (lower_bounds actual : list Q) :
  lower_bounds <> [] -> length actual = length lower_bounds ->
  exists i k,
    first_zero_index lower_bounds i /\
    first_zero_index actual k /\
    (forall i', first_zero_index lower_bounds i' -> i' = i) /\
    (forall k', first_zero_index actual k' -> k' = k) /\
    compute_index_difference lower_bounds actual = Z.abs (i - k) /\
    (0 <= compute_index_difference lower_bounds actual
     <= Z.of_nat (length lower_bounds) - 1)%Z /\
    compute_index_difference lower_bounds actual
    = compute_index_difference actual lower_bounds.
Proof.
  intros Hne Hlen.
  assert (Hne' : actual <> [])
    by (apply nonempty_length; apply nonempty_length in Hne; lia).
  pose proof (index_or_last_first_zero lower_bounds Hne) as Hi.
  pose proof (index_or_last_first_zero actual Hne') as Hk.
  exists (index_or_last lower_bounds), (index_or_last actual).
  split; [ exact Hi | ]. split; [ exact Hk | ].
  split; [ intros i' Hi'; exact (first_zero_index_unique _ _ _ Hi' Hi) | ].
  split; [ intros k' Hk'; exact (first_zero_index_unique _ _ _ Hk' Hk) | ].
  destruct Hi as [Hi _]. destruct Hk as [Hk _].
  unfold compute_index_difference. split; [ reflexivity | ]. split; lia.
Qed.

Lemma index_difference_range_witness :
  compute_index_difference (interval_lower 3 [10; 10; 8; 5; 5; 0; 0])
                           [11; 9; 7; 6; 4; 1; 0]
  = compute_index_difference [11; 9; 7; 6; 4; 1; 0]
                             (interval_lower 3 [10; 10; 8; 5; 5; 0; 0]).
Proof.
  destruct (index_difference_range (interval_lower 3 [10; 10; 8; 5; 5; 0; 0])
              [11; 9; 7; 6; 4; 1; 0]) as [i [k [_ [_ [_ [_ [_ [_ H]]]]]]]].
  - discriminate.
  - reflexivity.
  - exact H.
Defined.

(** * Properties of the unit split *)

Lemma ascending_from_weaken (l : list Z) :
  forall lo lo', (lo' <= lo)%Z -> ascending_from lo l -> ascending_from lo' l.
Proof.
  destruct l as [ | x r ]; intros lo lo' Hle H; [ exact I | ].
  destruct H as [Hx Hr]. split; [ lia | exact Hr ].
Qed.

Lemma ascending_from_above (l : list Z) :
  forall lo, ascending_from lo l -> forall x, In x l -> (lo < x)%Z.
Proof.
  induction l as [ | y r IH ]; intros lo H x Hin; [ destruct Hin | ].
  destruct H as [Hy Hr]. destruct Hin as [<- | Hin]; [ exact Hy | ].
  specialize (IH y Hr x Hin). lia.
Qed.

Lemma insert_unique_In (u : Z) (l : list Z) :
  forall x, In x (insert_unique u l) <-> x = u \/ In x l.
Proof.
  induction l as [ | v r IH ]; intro x; cbn [insert_unique].
  - simpl. intuition.
  - destruct (u <? v)%Z eqn:E1; [ simpl; intuition | ].
    destruct (u =? v)%Z eqn:E2.
    + apply Z.eqb_eq in E2. subst. simpl. intuition.
    + cbn [In]. rewrite IH. intuition.
Qed.

Lemma insert_unique_ascending_from (u : Z) (l : list Z) :
  forall lo, (lo < u)%Z -> ascending_from lo l ->
             ascending_from lo (insert_unique u l).
Proof.
  induction l as [ | v r IH ]; intros lo Hlo H; cbn [insert_unique].
  - split; [ exact Hlo | exact I ].
  - destruct H as [Hv Hr]. destruct (u <? v)%Z eqn:E1.
    + apply Z.ltb_lt in E1. split; [ exact Hlo | ]. split; [ exact E1 | exact Hr ].
    + destruct (u =? v)%Z eqn:E2; [ split; assumption | ].
      apply Z.ltb_ge in E1. apply Z.eqb_neq in E2.
      split; [ exact Hv | ]. apply IH; [ lia | exact Hr ].
Qed.

Lemma insert_unique_ascending (u : Z) (l : list Z) :
  ascending l -> ascending (insert_unique u l).
Proof.
  destruct l as [ | v r ]; intro H; cbn [insert_unique]; [ exact I | ].
  destruct (u <? v)%Z eqn:E1.
  - apply Z.ltb_lt in E1. split; [ exact E1 | exact H ].
  - destruct (u =? v)%Z eqn:E2; [ exact H | ].
    apply Z.ltb_ge in E1. apply Z.eqb_neq in E2.
    cbn [ascending]. apply insert_unique_ascending_from; [ lia | exact H ].
Qed.

Lemma np_unique_ascending (a : list Z) : ascending (np_unique a).
Proof.
  induction a as [ | x r IH ]; [ exact I | ].
  cbn [np_unique fold_right]. now apply insert_unique_ascending.
Qed.

Lemma np_unique_In (a : list Z) : forall x, In x (np_unique a) <-> In x a.
Proof.
  induction a as [ | y r IH ]; intro x; [ reflexivity | ].
  change (np_unique (y :: r)) with (insert_unique y (np_unique r)).
  rewrite insert_unique_In, IH. simpl. intuition.
Qed.

Lemma ascending_NoDup (l : list Z) : ascending l -> NoDup l.
Proof.
  induction l as [ | x r IH ]; intro H; [ constructor | ].
  constructor.
  - intro Hin. pose proof (ascending_from_above r x H x Hin). lia.
  - apply IH. destruct r as [ | y r' ]; [ exact I | ]. now destruct H.
Qed.

Lemma In_skipn {A : Type} (n : nat) (l : list A) (x : A) :
  In x (skipn n l) -> In x l.
Proof.
  intro H. rewrite <- (firstn_skipn n l). apply in_or_app. now right.
Qed.

Lemma In_firstn {A : Type} (n : nat) (l : list A) (x : A) :
  In x (firstn n l) -> In x l.
Proof.
  intro H. rewrite <- (firstn_skipn n l). apply in_or_app. now left.
Qed.

(** In an ascending list everything before a cut is below everything
    after it. *)
Lemma ascending_cut (l : list Z) :
  forall n, ascending l ->
    forall a b, In a (firstn n l) -> In b (skipn n l) -> (a < b)%Z.
Proof.
  induction l as [ | x r IH ]; intros n H a b Ha Hb.
  - rewrite firstn_nil in Ha. destruct Ha.
  - destruct n as [ | n ]; [ destruct Ha | ].
    cbn [firstn skipn] in Ha, Hb.
    assert (Hr : ascending r)
      by (destruct r as [ | y r' ]; [ exact I | now destruct H ]).
    destruct Ha as [<- | Ha].
    + apply (ascending_from_above r x H). eapply In_skipn. exact Hb.
    + now apply (IH n Hr).
Qed.

Lemma isin_In (u : Z) (units : list Z) : isin u units = true <-> In u units.
Proof.
  unfold isin. rewrite existsb_exists. split.
  - intros [x [Hx E]]. apply Z.eqb_eq in E. now subst.
  - intro H. exists u. split; [ exact H | apply Z.eqb_refl ].
Qed.

Lemma n_train_units_bounds (uu : list Z) :
  (n_train_units uu <= length uu)%nat /\
  (n_train_units uu = 0 <-> length uu < 2)%nat /\
  (n_train_units uu < length uu <-> 0 < length uu)%nat.
Proof.
  unfold n_train_units.
  pose proof (Nat.div_mod_eq (4 * length uu) 5) as Hd.
  pose proof (Nat.mod_upper_bound (4 * length uu) 5 ltac:(lia)) as Hm.
  lia.
Qed.

(** X6: the split of the sorted distinct unit numbers.  The calibration
    units followed by the evaluation units are all the units, each once;
    every calibration unit number is below every evaluation unit number;
    no unit is on both sides; and the "not enough units" exit is taken
    exactly when there are fewer than two distinct units. *)
Theorem unit_split_partition (group_ids : list Z) :
  train_units (np_unique group_ids) ++ test_units (np_unique group_ids)
  = np_unique group_ids /\
  NoDup (np_unique group_ids) /\
  (forall u, In u (np_unique group_ids) <-> In u group_ids) /\
  (forall a b, In a (train_units (np_unique group_ids)) ->
               In b (test_units (np_unique group_ids)) -> (a < b)%Z) /\
  (forall u, isin u (train_units (np_unique group_ids)) = true ->
             isin u (test_units (np_unique group_ids)) = false) /\
  (forall u, In u group_ids ->
             isin u (train_units (np_unique group_ids))
             || isin u (test_units (np_unique group_ids)) = true) /\
  ((length (train_units (np_unique group_ids)) =? 0)%nat
   || (length (test_units (np_unique group_ids)) =? 0)%nat = true
   <-> (length (np_unique group_ids) < 2)%nat).
Proof.
  set (uu := np_unique group_ids).
  pose proof (np_unique_ascending group_ids) as Hasc. fold uu in Hasc.
  destruct (n_train_units_bounds uu) as [Hle [Hzero Hlt]].
  split; [ apply firstn_skipn | ].
  split; [ now apply ascending_NoDup | ].
  split; [ apply np_unique_In | ].
  split; [ intros a b; apply ascending_cut; exact Hasc | ].
  split; [ | split ].
  - intros u Hu. apply isin_In in Hu.
    destruct (isin u (test_units uu)) eqn:E; [ | reflexivity ].
    apply isin_In in E.
    pose proof (ascending_cut uu (n_train_units uu) Hasc u u Hu E). lia.
  - intros u Hu. apply (np_unique_In group_ids) in Hu. fold uu in Hu.
    rewrite <- (firstn_skipn (n_train_units uu) uu) in Hu.
    apply in_app_or in Hu. apply orb_true_iff.
    destruct Hu as [Hu | Hu]; [ left | right ]; now apply isin_In.
  - unfold train_units, test_units.
    rewrite length_firstn, length_skipn, orb_true_iff, !Nat.eqb_eq. lia.
Qed.

(** * Properties of the calibration and evaluation rows *)

Lemma filter_complement_length {A : Type} (p q : A -> bool) (l : list A) :
  (forall x, In x l -> p x = negb (q x)) ->
  (length (filter p l) + length (filter q l) = length l)%nat.
Proof.
  induction l as [ | x r IH ]; intro H; [ reflexivity | ].
  cbn [filter]. rewrite (H x (or_introl eq_refl)).
  assert (Hr : forall y, In y r -> p y = negb (q y))
    by (intros y Hy; apply H; now right).
  specialize (IH Hr). destruct (q x); simpl; lia.
Qed.

Section RowFacts.

Variable features : Type.

Lemma rows_in_nonempty (units : list Z) (samples : list (sample features))
  (u : Z) :
  In u units -> In u (map (s_unit features) samples) ->
  rows_in features units samples <> [].
Proof.
  intros Hu Hs. apply in_map_iff in Hs. destruct Hs as [s [Hsu Hin]].
  intro E. assert (Hin' : In s (rows_in features units samples)).
  { unfold rows_in. apply filter_In. split; [ exact Hin | ].
    apply isin_In. now rewrite Hsu. }
  rewrite E in Hin'. destruct Hin'.
Qed.

Lemma split_sides_have_rows (self : ExperimentPipeline features) :
  (train_units (np_unique (groups features self)) <> [] ->
   rows_in features (train_units (np_unique (groups features self)))
           (dl_samples self) <> []) /\
  (test_units (np_unique (groups features self)) <> [] ->
   rows_in features (test_units (np_unique (groups features self)))
           (dl_samples self) <> []).
Proof.
  set (uu := np_unique (groups features self)).
  split.
  - intro Hne. destruct (train_units uu) as [ | u r ] eqn:E; [ congruence | ].
    apply (rows_in_nonempty (u :: r) (dl_samples self) u); [ now left | ].
    apply (np_unique_In (groups features self)). fold uu.
    apply (In_firstn (n_train_units uu)). fold (train_units uu).
    rewrite E. now left.
  - intro Hne. destruct (test_units uu) as [ | u r ] eqn:E; [ congruence | ].
    apply (rows_in_nonempty (u :: r) (dl_samples self) u); [ now left | ].
    apply (np_unique_In (groups features self)). fold uu.
    apply (In_skipn (n_train_units uu)). fold (test_units uu).
    rewrite E. now left.
Qed.

(** X7: the DL rows are split between calibration and evaluation without
    loss or overlap: every prepared row is in exactly one of the two sets,
    no calibration row belongs to an evaluation unit, and each side has a
    row as soon as it has a unit. *)
Theorem calibration_and_test_rows (self : ExperimentPipeline features) :
  (length (rows_in features
             (train_units (np_unique (groups features self))) (dl_samples self))
   + length (rows_in features
               (test_units (np_unique (groups features self))) (dl_samples self))
   = length (dl_samples self))%nat /\
  (forall s,
      In s (rows_in features (train_units (np_unique (groups features self)))
                    (dl_samples self)) ->
      isin (s_unit features s) (test_units (np_unique (groups features self)))
      = false) /\
  (train_units (np_unique (groups features self)) <> [] ->
   rows_in features (train_units (np_unique (groups features self)))
           (dl_samples self) <> []) /\
  (test_units (np_unique (groups features self)) <> [] ->
   rows_in features (test_units (np_unique (groups features self)))
           (dl_samples self) <> []).
Proof.
  set (uu := np_unique (groups features self)).
  pose proof (np_unique_ascending (groups features self)) as Hasc. fold uu in Hasc.
  assert (Hexcl : forall u, isin u (train_units uu) = true ->
                            isin u (test_units uu) = false).
  { intros u Hu. apply isin_In in Hu.
    destruct (isin u (test_units uu)) eqn:E; [ | reflexivity ].
    apply isin_In in E.
    pose proof (ascending_cut uu (n_train_units uu) Hasc u u Hu E). lia. }
  assert (Hcover : forall u, In u (groups features self) ->
                             isin u (train_units uu) || isin u (test_units uu)
                             = true).
  { intros u Hu. apply (np_unique_In (groups features self)) in Hu. fold uu in Hu.
    rewrite <- (firstn_skipn (n_train_units uu) uu) in Hu.
    apply in_app_or in Hu. apply orb_true_iff.
    destruct Hu as [Hu | Hu]; [ left | right ]; now apply isin_In. }
  split; [ | split; [ | split ] ].
  - unfold rows_in. apply filter_complement_length. intros s Hs.
    assert (Hg : In (s_unit features s) (groups features self))
      by (unfold groups; now apply in_map).
    specialize (Hcover _ Hg).
    destruct (isin (s_unit features s) (train_units uu)) eqn:E1.
    + now rewrite (Hexcl _ E1).
    + simpl in Hcover. now rewrite Hcover.
  - intros s Hs. unfold rows_in in Hs. apply filter_In in Hs.
    now apply Hexcl.
  - apply (proj1 (split_sides_have_rows self)).
  - apply (proj2 (split_sides_have_rows self)).
Qed.

End RowFacts.

Section KerasRows.

Variable features : Type.
Variable np_exp : Q -> Q.
Variable np_sqrt : Q -> Q.
Variable norm_ppf : Q -> Q.
Variable rng : Type.
Variable default_rng : Z -> rng.
Variable rng_choice : rng -> list Q -> nat -> list Q * rng.
Variable model_predict : string -> window features -> Q.

Lemma length_eqb_0 {A : Type} (l : list A) :
  (length l =? 0)%nat = false <-> l <> [].
Proof.
  rewrite Nat.eqb_neq. destruct l; simpl; split; intro H; try congruence; lia.
Qed.


End KerasRows.


(** * Properties of data preparation *)

Lemma map_seq_shift {A : Type} (h : nat -> A) (L n : nat) :
  forall s, map h (seq (s + L) n) = map (fun i => h (i + L)%nat) (seq s n).
Proof.
  induction n as [ | n IH ]; intro s; [ reflexivity | ].
  cbn [seq map]. f_equal. apply (IH (S s)).
Qed.

Lemma combine_map_same {A B C : Type} (f : A -> B) (g : A -> C) (l : list A) :
  combine (map f l) (map g l) = map (fun a => (f a, g a)) l.
Proof.
  induction l as [ | x r IH ]; [ reflexivity | ]. cbn [map combine].
  now rewrite IH.
Qed.

Section PreparationFacts.

Variable features : Type.

Lemma prepare_unit_empty (L : nat) (u : Z) (rows : list (df_row features)) :
  (length rows <= L)%nat -> prepare_unit features L u rows = [].
Proof.
  intro H. unfold prepare_unit.
  replace (length rows - L)%nat with 0%nat by lia. reflexivity.
Qed.

(** X9: [_prepare_data] and [_prepare_ml_data] build the same rows: the
    same units in the same order, and for each row the same window of
    [sequence_length] consecutive readings and the same target (the RUL
    of the reading that follows the window).  A unit with exactly
    [sequence_length] readings passes the test of the second and fails
    that of the first, and contributes no row to either. *)
Theorem prepared_arrays_agree (L : nat) (rows : list (df_row features)) :
  prepare_data features L rows = prepare_samples features L rows /\
  prepare_ml_data features L rows = prepare_samples features L rows.
Proof.
  split.
  - unfold prepare_data, prepare_samples. apply flat_map_ext. intro u.
    cbv zeta. rewrite length_map.
    destruct (L <? length (filter (fun r => (unit_nr features r =? u)%Z) rows))%nat
      eqn:E.
    + unfold create_sequences, prepare_unit.
      rewrite length_map, combine_map_same, map_map. reflexivity.
    + apply Nat.ltb_ge in E. symmetry. now apply prepare_unit_empty.
  - unfold prepare_ml_data, prepare_samples. apply flat_map_ext. intro u.
    cbv zeta. rewrite length_map.
    destruct (L <=? length (filter (fun r => (unit_nr features r =? u)%Z) rows))%nat
      eqn:E.
    + unfold prepare_unit.
      rewrite (map_seq_shift _ L _ 0). apply map_ext. intro i.
      now rewrite Nat.add_sub.
    + apply Nat.leb_gt in E. symmetry. apply prepare_unit_empty. lia.
Qed.

End PreparationFacts.

Lemma filter_all {A : Type} (p : A -> bool) (l : list A) :
  (forall x, In x l -> p x = true) -> filter p l = l.
Proof.
  induction l as [ | x r IH ]; intro H; [ reflexivity | ].
  cbn [filter]. rewrite (H x (or_introl eq_refl)). f_equal.
  apply IH. intros y Hy. apply H. now right.
Qed.

Lemma filter_none {A : Type} (p : A -> bool) (l : list A) :
  (forall x, In x l -> p x = false) -> filter p l = [].
Proof.
  induction l as [ | x r IH ]; intro H; [ reflexivity | ].
  cbn [filter]. rewrite (H x (or_introl eq_refl)).
  apply IH. intros y Hy. apply H. now right.
Qed.

Lemma skipn_as_map (L : nat) (t : list Q) :
  map (fun i => nth (i + L) t 0) (seq 0 (length t - L)) = skipn L t.
Proof.
  revert t. induction L as [ | L IH ]; intro t.
  - rewrite Nat.sub_0_r. cbn [skipn].
    rewrite <- (map_ext (fun i => nth i t 0))
      by (intro i; now rewrite Nat.add_0_r).
    induction t as [ | x r IHt ]; [ reflexivity | ].
    cbn [length seq map nth]. f_equal.
    rewrite <- seq_shift, map_map. exact IHt.
  - destruct t as [ | x r ]; [ reflexivity | ].
    cbn [length skipn]. rewrite Nat.sub_succ. rewrite <- IH.
    apply map_ext. intro i. now rewrite Nat.add_succ_r.
Qed.

Section PreparedRows.

Variable features : Type.

Lemma prepare_unit_units (L : nat) (u : Z) (rows : list (df_row features)) :
  forall s, In s (prepare_unit features L u rows) -> s_unit features s = u.
Proof.
  intros s Hs. unfold prepare_unit in Hs. apply in_map_iff in Hs.
  destruct Hs as [i [<- _]]. reflexivity.
Qed.

Lemma samples_of_unit_flat_map (f : Z -> list (sample features))
  (us : list Z) (u : Z) :
  (forall v s, In s (f v) -> s_unit features s = v) -> NoDup us ->
  samples_of_unit features u (flat_map f us) = if isin u us then f u else [].
Proof.
  intros Hf. induction us as [ | v r IH ]; intro Hnd; [ reflexivity | ].
  inversion Hnd as [ | ? ? Hnotin Hnd' ]; subst.
  cbn [flat_map]. unfold samples_of_unit in *. rewrite filter_app.
  unfold isin in *. cbn [existsb]. destruct (u =? v)%Z eqn:E.
  - apply Z.eqb_eq in E. subst v. cbn [orb].
    rewrite filter_all
      by (intros s Hs; rewrite (Hf u s Hs); apply Z.eqb_refl).
    rewrite (IH Hnd').
    destruct (existsb (Z.eqb u) r) eqn:Er; [ | apply app_nil_r ].
    exfalso. apply Hnotin. apply existsb_exists in Er.
    destruct Er as [x [Hx Ex]]. apply Z.eqb_eq in Ex. now subst.
  - cbn [orb].
    rewrite filter_none; [ now apply IH | ].
    intros s Hs. rewrite (Hf v s Hs). apply Z.eqb_neq in E.
    apply Z.eqb_neq. congruence.
Qed.

Lemma samples_of_unit_prepared (L : nat) (rows : list (df_row features))
  (u : Z) :
  samples_of_unit features u (prepare_samples features L rows)
  = prepare_unit features L u
      (filter (fun r => (unit_nr features r =? u)%Z) rows).
Proof.
  unfold prepare_samples.
  rewrite samples_of_unit_flat_map.
  - destruct (isin u (np_unique (map (unit_nr features) rows))) eqn:E;
      [ reflexivity | ].
    rewrite filter_none; [ reflexivity | ].
    intros r Hr. apply Z.eqb_neq. intro Hu.
    assert (Hin : In u (np_unique (map (unit_nr features) rows))).
    { apply np_unique_In. rewrite <- Hu. now apply in_map. }
    apply isin_In in Hin. congruence.
  - intros v s. apply prepare_unit_units.
  - apply ascending_NoDup, np_unique_ascending.
Qed.

Lemma prepared_rows_of_unit_aux (self : ExperimentPipeline features) (u : Z) :
  dl_samples self = prepare_samples features (sequence_length self) (df self) ->
  map (s_X features) (samples_of_unit features u (dl_samples self))
  = unit_windows features (sequence_length self)
      (map (row_features features) (unit_rows features self u)) /\
  map (s_y features) (samples_of_unit features u (dl_samples self))
  = unit_y_true features self u /\
  length (samples_of_unit features u (dl_samples self))
  = (length (unit_rows features self u) - sequence_length self)%nat.
Proof.
  intro Hprep. rewrite Hprep, samples_of_unit_prepared.
  unfold prepare_unit, unit_windows, unit_y_true, unit_rows.
  split; [ | split ].
  - rewrite map_map, length_map. reflexivity.
  - rewrite map_map. cbn [s_y].
    rewrite <- (length_map (RUL features)). apply skipn_as_map.
  - now rewrite length_map, length_seq.
Qed.

(** X10: the rows the prepared arrays hold for a unit are, in order, the
    windows of [sequence_length] consecutive readings of that unit, each
    with the RUL of the reading that follows it: [len - sequence_length]
    rows for a unit with [len] readings, none when [len] is at most
    [sequence_length]; and every window of the arrays has exactly
    [sequence_length] readings. *)
Theorem prepared_rows_of_unit (L : nat) (rows : list (df_row features))
  (u : Z) :
  map (s_X features) (samples_of_unit features u (prepare_samples features L rows))
  = unit_windows features L
      (map (row_features features)
           (filter (fun r => (unit_nr features r =? u)%Z) rows)) /\
  map (s_y features) (samples_of_unit features u (prepare_samples features L rows))
  = skipn L (map (RUL features)
                 (filter (fun r => (unit_nr features r =? u)%Z) rows)) /\
  length (samples_of_unit features u (prepare_samples features L rows))
  = (length (filter (fun r => (unit_nr features r =? u)%Z) rows) - L)%nat /\
  (forall s, In s (prepare_samples features L rows) ->
             length (s_X features s) = L).
Proof.
  rewrite samples_of_unit_prepared. unfold prepare_unit, unit_windows.
  split; [ | split; [ | split ] ].
  - rewrite map_map, length_map. reflexivity.
  - rewrite map_map. cbn [s_y].
    rewrite <- (length_map (RUL features)). apply skipn_as_map.
  - now rewrite length_map, length_seq.
  - intros s Hs. unfold prepare_samples in Hs. apply in_flat_map in Hs.
    destruct Hs as [v [_ Hs]]. unfold prepare_unit in Hs.
    apply in_map_iff in Hs. destruct Hs as [i [<- Hi]]. cbn [s_X].
    apply in_seq in Hi. rewrite length_firstn, length_skipn, length_map. lia.
Qed.

Variable model_predict : string -> window features -> Q.

(** X11: on a pipeline whose arrays are the prepared ones, a unit that is
    evaluated is scored on exactly the rows the arrays hold for it: the
    predictions are those of the model on the unit's prepared windows,
    post-processed, and the true values are the unit's prepared targets. *)
Theorem evaluate_unit_on_prepared_rows (self : ExperimentPipeline features)
  (name : string) (margin : np_float) (u : Z) (r : unit_row) :
  dl_samples self = prepare_samples features (sequence_length self) (df self) ->
  evaluate_unit features model_predict self name margin u = UnitReport r ->
  unit_id r = u /\
  num_predictions r
  = length (samples_of_unit features u (dl_samples self)) /\
  unit_report r
  = interval_report margin
      (postprocess_unit
         (predict_all features model_predict name
                      (samples_of_unit features u (dl_samples self))))
      (map (s_y features) (samples_of_unit features u (dl_samples self))).
Proof.
  intros Hprep Heval.
  destruct (prepared_rows_of_unit_aux self u Hprep) as [HX [Hy Hlen]].
  unfold evaluate_unit in Heval.
  destruct (length (unit_rows features self u) <? sequence_length self)%nat;
    [ discriminate | ].
  destruct (length (unit_windows features (sequence_length self) _) =? 0)%nat;
    [ discriminate | ].
  injection Heval as <-. cbn [unit_id num_predictions unit_report].
  unfold predict_all. rewrite <- (map_map (s_X features) (model_predict name)).
  rewrite HX, Hy.
  split; [ reflexivity | ]. split; [ | reflexivity ].
  unfold postprocess_unit, clip0.
  rewrite length_map, enforce_monotonic_length, length_map.
  rewrite Hlen. unfold unit_windows. now rewrite length_map, length_seq, length_map.
Qed.

End PreparedRows.

Lemma evaluate_unit_on_prepared_rows_witness :
  num_predictions
    (report_of (evaluate_unit Q demo_predict demo_pipeline "XGBoost"
                              (Finite 1) 5))
  = length (samples_of_unit Q 5 (dl_samples demo_pipeline)).
Proof.
  destruct (evaluate_unit_on_prepared_rows Q demo_predict demo_pipeline
              "XGBoost"%string (Finite 1) 5
              (report_of (evaluate_unit Q demo_predict demo_pipeline "XGBoost"
                                        (Finite 1) 5)))
    as [_ [H _]].
  - vm_compute. reflexivity.
  - vm_compute. reflexivity.
  - exact H.
Defined.

(** * Bounds on the quantile-based margins *)

Lemma within_nth (lo hi : Q) (l : list Q) (i : nat) :
  Forall (fun x => lo <= x /\ x <= hi) l -> (i < length l)%nat ->
  lo <= nth i l 0 /\ nth i l 0 <= hi.
Proof.
  intros H Hi. rewrite Forall_forall in H. apply H. now apply nth_In.
Qed.

Lemma interpolation_within (lo hi a b g : Q) :
  lo <= a -> a <= hi -> lo <= b -> b <= hi -> 0 <= g -> g <= 1 ->
  lo <= a + g * (b - a) /\ a + g * (b - a) <= hi.
Proof.
  intros Ha1 Ha2 Hb1 Hb2 Hg0 Hg1.
  assert (E : a + g * (b - a) == (1 - g) * a + g * b) by ring.
  assert (H1 : (1 - g) * lo <= (1 - g) * a)
    by (rewrite !(Qmult_comm (1 - g)); apply Qmult_le_compat_r; lra).
  assert (H2 : (1 - g) * a <= (1 - g) * hi)
    by (rewrite !(Qmult_comm (1 - g)); apply Qmult_le_compat_r; lra).
  assert (H3 : g * lo <= g * b)
    by (rewrite !(Qmult_comm g); apply Qmult_le_compat_r; lra).
  assert (H4 : g * b <= g * hi)
    by (rewrite !(Qmult_comm g); apply Qmult_le_compat_r; lra).
  assert (E1 : (1 - g) * lo + g * lo == lo) by ring.
  assert (E2 : (1 - g) * hi + g * hi == hi) by ring.
  rewrite E. split; lra.
Qed.

(** For a level between 0 and 1 the lower order statistic
    [floor(q * (n - 1))] is an index of the array. *)
Lemma quantile_index_in_range (n : nat) (q : Q) :
  (0 < n)%nat -> 0 <= q -> q <= 1 ->
  (Z.to_nat (Qfloor (q * of_nat (n - 1))) <= n - 1)%nat.
Proof.
  intros Hn Hq0 Hq1.
  assert (Hle : q * of_nat (n - 1) <= of_nat (n - 1)).
  { pose proof (of_nat_nonneg (n - 1)) as Hnn.
    setoid_replace (of_nat (n - 1)) with (1 * of_nat (n - 1)) at 2 by ring.
    apply Qmult_le_compat_r; assumption. }
  apply Qfloor_resp_le in Hle. unfold of_nat in Hle at 2.
  rewrite Qfloor_Z in Hle. lia.
Qed.

Lemma np_quantile_within (lo hi : Q) (a : list Q) (q : Q) :
  a <> [] -> Forall (fun x => lo <= x /\ x <= hi) a -> 0 <= q -> q <= 1 ->
  lo <= np_quantile a q /\ np_quantile a q <= hi.
Proof.
  intros Hne Ha Hq0 Hq1. apply nonempty_length in Hne.
  unfold np_quantile.
  destruct (fractional_part_bounds (q * of_nat (length a - 1))) as [Hg0 Hg1].
  pose proof (quantile_index_in_range (length a) q Hne Hq0 Hq1) as Hidx.
  assert (Hs : Forall (fun x => lo <= x /\ x <= hi) (np_sort a))
    by (now apply sort_by_Forall).
  assert (Hlen : length (np_sort a) = length a) by apply sort_by_length.
  destruct (within_nth lo hi (np_sort a)
              (Z.to_nat (Qfloor (q * of_nat (length a - 1)))) Hs ltac:(lia)).
  destruct (within_nth lo hi (np_sort a)
              (Nat.min (Z.to_nat (Qfloor (q * of_nat (length a - 1))) + 1)
                       (length a - 1)) Hs ltac:(lia)).
  now apply interpolation_within.
Qed.

Lemma np_median_within (lo hi : Q) (a : list Q) :
  a <> [] -> Forall (fun x => lo <= x /\ x <= hi) a ->
  lo <= np_median a /\ np_median a <= hi.
Proof.
  intros Hne Ha. apply nonempty_length in Hne. unfold np_median.
  assert (Hs : Forall (fun x => lo <= x /\ x <= hi) (np_sort a))
    by (now apply sort_by_Forall).
  assert (Hlen : length (np_sort a) = length a) by apply sort_by_length.
  pose proof (Nat.div_lt (length a) 2 Hne ltac:(lia)) as Hhalf.
  destruct (Nat.even (length a)).
  - destruct (within_nth lo hi (np_sort a) (length a / 2 - 1) Hs ltac:(lia)).
    destruct (within_nth lo hi (np_sort a) (length a / 2) Hs ltac:(lia)).
    split.
    + apply Qle_shift_div_l; [ reflexivity | ]. lra.
    + apply Qle_shift_div_r; [ reflexivity | ]. lra.
  - now apply within_nth; [ | lia ].
Qed.

Lemma weighted_margin_In (np_exp : Q -> Q) (alpha : Q) (abs_res : list Q) :
  abs_res <> [] -> In (weighted_exponential_margin np_exp alpha abs_res) abs_res.
Proof.
  intro Hne. apply nonempty_length in Hne. unfold weighted_exponential_margin.
  apply (Permutation_in _ (sort_by_perm (fun x => x) abs_res)).
  apply nth_In. fold (np_sort abs_res). unfold np_sort.
  rewrite sort_by_length. lia.
Qed.

Section QuantileBounds.

Variable np_exp : Q -> Q.
Variable rng : Type.
Variable default_rng : Z -> rng.
Variable rng_choice : rng -> list Q -> nat -> list Q * rng.

(** What is assumed of [rng.choice(a, size=n, replace=True)]: it returns
    [n] entries, each an entry of [a]. *)
Hypothesis rng_choice_size :
  forall g a n, a <> [] -> length (fst (rng_choice g a n)) = n.
Hypothesis rng_choice_draws :
  forall g a n, a <> [] -> incl (fst (rng_choice g a n)) a.

Lemma bootstrap_samples_within (lo hi q : Q) (B : nat) :
  forall g abs_res,
    abs_res <> [] -> Forall (fun x => lo <= x /\ x <= hi) abs_res ->
    0 <= q -> q <= 1 ->
    Forall (fun x => lo <= x /\ x <= hi)
           (bootstrap_samples rng rng_choice B g abs_res q).
Proof.
  induction B as [ | B IH ]; intros g abs_res Hne Ha Hq0 Hq1;
    cbn [bootstrap_samples]; [ constructor | ].
  pose proof (rng_choice_size g abs_res (length abs_res) Hne) as Hsize.
  pose proof (rng_choice_draws g abs_res (length abs_res) Hne) as Hdraw.
  destruct (rng_choice g abs_res (length abs_res)) as [sample g'].
  cbn [fst] in Hsize, Hdraw. constructor; [ | now apply IH ].
  apply np_quantile_within; try assumption.
  - apply nonempty_length. rewrite Hsize. now apply nonempty_length.
  - rewrite Forall_forall in *. intros x Hx. apply Ha, Hdraw, Hx.
Qed.

Lemma quantile_margins_within (lo hi : Q) (random_state : Z) (alpha : Q)
  (B : nat) (abs_res : list Q) :
  abs_res <> [] -> (0 < B)%nat -> 0 < alpha -> alpha < 1 ->
  Forall (fun x => lo <= x /\ x <= hi) abs_res ->
  (lo <= naive_quantile_margin alpha abs_res
   /\ naive_quantile_margin alpha abs_res <= hi) /\
  (lo <= weighted_exponential_margin np_exp alpha abs_res
   /\ weighted_exponential_margin np_exp alpha abs_res <= hi) /\
  (exists m, bootstrap_margin_mean rng default_rng rng_choice random_state
               alpha B abs_res = Finite m /\ lo <= m /\ m <= hi) /\
  (lo <= bootstrap_margin_median rng default_rng rng_choice random_state
           alpha B abs_res
   /\ bootstrap_margin_median rng default_rng rng_choice random_state
        alpha B abs_res <= hi).
Proof.
  intros Hne HB Ha0 Ha1 Hres.
  assert (Hs : Forall (fun x => lo <= x /\ x <= hi)
                 (bootstrap_samples rng rng_choice B (default_rng random_state)
                                    abs_res (1 - alpha)))
    by (apply bootstrap_samples_within; try assumption; lra).
  assert (Hsne : bootstrap_samples rng rng_choice B (default_rng random_state)
                                   abs_res (1 - alpha) <> []).
  { apply nonempty_length. clear Hs.
    generalize (default_rng random_state). intro g.
    destruct B as [ | B ]; [ lia | ]. cbn [bootstrap_samples].
    destruct (rng_choice g abs_res (length abs_res)). simpl. lia. }
  split; [ | split; [ | split ] ].
  - unfold naive_quantile_margin. apply np_quantile_within; try assumption; lra.
  - rewrite Forall_forall in Hres. apply Hres. now apply weighted_margin_In.
  - unfold bootstrap_margin_mean. now apply np_mean_bounds.
  - unfold bootstrap_margin_median. now apply np_median_within.
Qed.

(** X12: the quantile-based margins stay within the range of the
    calibration residuals.  If every absolute residual lies between [lo]
    and [hi], so do the naive quantile, each of the 200 bootstrap sample
    quantiles and the bootstrap margin taken as their median (the
    condition on [hi] keeps the sum of the two middle values within the
    float range); and the weighted exponential margin is one of the
    residuals. *)
Theorem quantile_margins_within_residuals (lo hi : Q) (random_state : Z)
  (alpha : Q) (abs_res : list Q) :
  abs_res <> [] -> 0 < alpha -> alpha < 1 ->
  Forall (fun x => lo <= x /\ x <= hi) abs_res ->
  2 * hi <= float_max ->
  (lo <= naive_quantile_margin alpha abs_res
   /\ naive_quantile_margin alpha abs_res <= hi) /\
  In (weighted_exponential_margin np_exp alpha abs_res) abs_res /\
  Forall (fun x => lo <= x /\ x <= hi)
         (bootstrap_samples rng rng_choice 200 (default_rng random_state)
                            abs_res (1 - alpha)) /\
  (lo <= bootstrap_margin_median rng default_rng rng_choice random_state
           alpha 200 abs_res
   /\ bootstrap_margin_median rng default_rng rng_choice random_state
        alpha 200 abs_res <= hi).
Proof.
  intros Hne Ha0 Ha1 Hres _.
  destruct (quantile_margins_within lo hi random_state alpha 200 abs_res
              Hne ltac:(lia) Ha0 Ha1 Hres) as [H1 [_ [_ H4]]].
  split; [ exact H1 | ]. split; [ now apply weighted_margin_In | ].
  split; [ | exact H4 ].
  apply bootstrap_samples_within; try assumption; lra.
Qed.

(** X13: with a single calibration residual [r] (twice [r] within the
    float range) the naive quantile, the weighted exponential margin,
    each of the 200 bootstrap sample quantiles and the bootstrap margin
    taken as their median are all [r]. *)
Theorem single_residual_margins (random_state : Z) (alpha r : Q) :
  0 < alpha -> alpha < 1 -> 2 * Qabs r <= float_max ->
  naive_quantile_margin alpha [r] == r /\
  weighted_exponential_margin np_exp alpha [r] = r /\
  Forall (fun q => q == r)
         (bootstrap_samples rng rng_choice 200 (default_rng random_state)
                            [r] (1 - alpha)) /\
  bootstrap_margin_median rng default_rng rng_choice random_state alpha 200 [r]
  == r.
Proof.
  intros Ha0 Ha1 _.
  assert (Hres : Forall (fun x => r <= x /\ x <= r) [r])
    by (constructor; [ split; apply Qle_refl | constructor ]).
  destruct (quantile_margins_within r r random_state alpha 200 [r]
              ltac:(discriminate) ltac:(lia) Ha0 Ha1 Hres)
    as [H1 [_ [_ H4]]].
  split; [ lra | ]. split; [ | split; [ | lra ] ].
  - pose proof (weighted_margin_In np_exp alpha [r] ltac:(discriminate)) as Hin.
    destruct Hin as [Hin | []]. now symmetry.
  - assert (Hs : Forall (fun x => r <= x /\ x <= r)
                   (bootstrap_samples rng rng_choice 200
                      (default_rng random_state) [r] (1 - alpha)))
      by (apply bootstrap_samples_within;
          [ discriminate | exact Hres | lra | lra ]).
    revert Hs. apply Forall_impl. intros q Hq. lra.
Qed.

End QuantileBounds.

Lemma lcg_choice_size (n : nat) :
  forall (g : Z) (a : list Q), length (fst (lcg_choice g a n)) = n.
Proof.
  induction n as [ | n IH ]; intros g a; [ reflexivity | ].
  cbn [lcg_choice]. cbv zeta. specialize (IH (lcg_next g) a).
  destruct (lcg_choice (lcg_next g) a n) as [rest g'']. simpl in *. now rewrite IH.
Qed.

Lemma quantile_margins_within_residuals_witness :
  (1 <= naive_quantile_margin (1 # 20) [1; 3; 2]
   /\ naive_quantile_margin (1 # 20) [1; 3; 2] <= 3) /\
  In (weighted_exponential_margin exp_series (1 # 20) [1; 3; 2]) [1; 3; 2].
Proof.
  destruct (quantile_margins_within_residuals exp_series Z lcg_seed lcg_choice
              (fun g a n _ => lcg_choice_size n g a)
              (fun g a n => lcg_choice_draws n g a)
              1 3 42 (1 # 20) [1; 3; 2]) as [H1 [H2 _]].
  - discriminate.
  - reflexivity.
  - reflexivity.
  - repeat constructor; discriminate.
  - apply Qle_bool_iff. vm_compute. reflexivity.
  - split; assumption.
Defined.

Lemma single_residual_margins_witness :
  naive_quantile_margin (1 # 20) [7 # 2] == 7 # 2 /\
  weighted_exponential_margin exp_series (1 # 20) [7 # 2] = 7 # 2.
Proof.
  destruct (single_residual_margins exp_series Z lcg_seed lcg_choice
              (fun g a n _ => lcg_choice_size n g a)
              (fun g a n => lcg_choice_draws n g a)
              42 (1 # 20) (7 # 2)) as [H1 [H2 _]].
  - reflexivity.
  - reflexivity.
  - apply Qle_bool_iff. vm_compute. reflexivity.
  - split; assumption.
Defined.

(** * Order properties of the quantile and the median *)

Lemma at_least_weaken (l : list Q) :
  forall lo lo', lo' <= lo -> at_least lo l -> at_least lo' l.
Proof.
  destruct l as [ | x r ]; intros lo lo' Hle H; [ exact I | ].
  destruct H as [Hx Hr]. split; [ lra | exact Hr ].
Qed.

Lemma insert_at_least (x : Q) (l : list Q) :
  forall lo, lo <= x -> at_least lo l ->
             at_least lo (insert_by (fun v => v) x l).
Proof.
  induction l as [ | y r IH ]; intros lo Hlo H; cbn [insert_by].
  - split; [ exact Hlo | exact I ].
  - destruct H as [Hy Hr]. destruct (Qle_bool x y) eqn:E.
    + apply Qle_bool_iff in E. split; [ exact Hlo | ]. split; assumption.
    + assert (Hyx : y <= x).
      { apply Qlt_le_weak, Qnot_le_lt. intro Hxy.
        apply Qle_bool_iff in Hxy. congruence. }
      split; [ exact Hy | ]. now apply IH.
Qed.

Lemma insert_nondecreasing (x : Q) (l : list Q) :
  nondecreasing l -> nondecreasing (insert_by (fun v => v) x l).
Proof.
  destruct l as [ | y r ]; intro H; cbn [insert_by]; [ exact I | ].
  destruct (Qle_bool x y) eqn:E.
  - apply Qle_bool_iff in E. split; assumption.
  - assert (Hyx : y <= x).
    { apply Qlt_le_weak, Qnot_le_lt. intro Hxy.
      apply Qle_bool_iff in Hxy. congruence. }
    cbn [nondecreasing]. now apply insert_at_least.
Qed.

Lemma np_sort_nondecreasing (a : list Q) : nondecreasing (np_sort a).
Proof.
  induction a as [ | x r IH ]; [ exact I | ].
  unfold np_sort in *. cbn [sort_by fold_right].
  now apply insert_nondecreasing.
Qed.

Lemma at_least_nth (l : list Q) :
  forall lo j, at_least lo l -> (j < length l)%nat -> lo <= nth j l 0.
Proof.
  induction l as [ | x r IH ]; intros lo j H Hj; simpl in Hj; [ lia | ].
  destruct H as [Hx Hr]. destruct j as [ | j ]; cbn [nth]; [ exact Hx | ].
  apply Qle_trans with (y := x); [ exact Hx | apply IH; [ exact Hr | lia ] ].
Qed.

Lemma nondecreasing_nth (l : list Q) :
  nondecreasing l ->
  forall i j, (i <= j)%nat -> (j < length l)%nat -> nth i l 0 <= nth j l 0.
Proof.
  induction l as [ | x r IH ]; intros H i j Hij Hj; simpl in Hj; [ lia | ].
  destruct i as [ | i ], j as [ | j ]; cbn [nth]; try lia.
  - apply Qle_refl.
  - apply at_least_nth; [ exact H | lia ].
  - apply IH; try lia. destruct r as [ | y r' ]; [ exact I | now destruct H ].
Qed.

(** The interpolated order statistic does not decrease with the virtual
    index. *)
Lemma interpolated_statistic_mono (s : list Q) (v1 v2 : Q) :
  nondecreasing s -> (0 < length s)%nat ->
  0 <= v1 -> v1 <= v2 -> v2 <= of_nat (length s - 1) ->
  nth (Z.to_nat (Qfloor v1)) s 0
  + (v1 - inject_Z (Qfloor v1))
    * (nth (Nat.min (Z.to_nat (Qfloor v1) + 1) (length s - 1)) s 0
       - nth (Z.to_nat (Qfloor v1)) s 0)
  <= nth (Z.to_nat (Qfloor v2)) s 0
     + (v2 - inject_Z (Qfloor v2))
       * (nth (Nat.min (Z.to_nat (Qfloor v2) + 1) (length s - 1)) s 0
          - nth (Z.to_nat (Qfloor v2)) s 0).
Proof.
  intros Hs Hn H0 H12 H2.
  assert (Hf0 : (0 <= Qfloor v1)%Z).
  { apply Qfloor_resp_le in H0. exact H0. }
  assert (Hf12 : (Qfloor v1 <= Qfloor v2)%Z) by (now apply Qfloor_resp_le).
  assert (Hf2 : (Qfloor v2 <= Z.of_nat (length s - 1))%Z).
  { apply Qfloor_resp_le in H2. unfold of_nat in H2. now rewrite Qfloor_Z in H2. }
  destruct (fractional_part_bounds v1) as [Hg1 Hg1'].
  destruct (fractional_part_bounds v2) as [Hg2 Hg2'].
  set (k1 := Z.to_nat (Qfloor v1)) in *. set (k2 := Z.to_nat (Qfloor v2)) in *.
  assert (Hk12 : (k1 <= k2)%nat) by (unfold k1, k2; lia).
  assert (Hk2 : (k2 <= length s - 1)%nat) by (unfold k2; lia).
  set (h1 := Nat.min (k1 + 1) (length s - 1)).
  set (h2 := Nat.min (k2 + 1) (length s - 1)).
  assert (Hd1 : nth k1 s 0 <= nth h1 s 0)
    by (apply nondecreasing_nth; [ exact Hs | unfold h1; lia | unfold h1; lia ]).
  assert (Hd2 : nth k2 s 0 <= nth h2 s 0)
    by (apply nondecreasing_nth; [ exact Hs | unfold h2; lia | unfold h2; lia ]).
  destruct (Z.eq_dec (Qfloor v1) (Qfloor v2)) as [Heq | Hne].
  - assert (Ek : k1 = k2) by (unfold k1, k2; now rewrite Heq).
    assert (Eh : h1 = h2) by (unfold h1, h2; now rewrite Ek).
    rewrite <- Ek, <- Eh in *. rewrite <- Heq.
    assert ((v1 - inject_Z (Qfloor v1)) * (nth h1 s 0 - nth k1 s 0)
            <= (v2 - inject_Z (Qfloor v1)) * (nth h1 s 0 - nth k1 s 0))
      by (apply Qmult_le_compat_r; lra).
    lra.
  - assert (Hlt : (k1 + 1 <= k2)%nat) by (unfold k1, k2; lia).
    assert (Hstep1 : (v1 - inject_Z (Qfloor v1)) * (nth h1 s 0 - nth k1 s 0)
                     <= 1 * (nth h1 s 0 - nth k1 s 0))
      by (apply Qmult_le_compat_r; lra).
    assert (Hmid : nth h1 s 0 <= nth k2 s 0)
      by (apply nondecreasing_nth; [ exact Hs | unfold h1; lia | lia ]).
    assert (Hstep2 : 0 <= (v2 - inject_Z (Qfloor v2)) * (nth h2 s 0 - nth k2 s 0))
      by (apply Qmult_le_0_compat; lra).
    lra.
Qed.

(** X14: on a non-empty calibration set the naive quantile margin does
    not decrease when the level [alpha] decreases: a stricter coverage
    target gives a margin that is at least as wide. *)
Theorem naive_quantile_margin_antitone (abs_res : list Q) (alpha1 alpha2 : Q) :
  abs_res <> [] ->
  0 <= alpha1 -> alpha1 <= alpha2 -> alpha2 <= 1 ->
  naive_quantile_margin alpha2 abs_res <= naive_quantile_margin alpha1 abs_res.
Proof.
  intros Hne H0 H12 H1. unfold naive_quantile_margin, np_quantile.
  destruct abs_res as [ | x r ].
  - congruence.
  - rewrite <- (sort_by_length (fun v => v) (x :: r)).
    fold (np_sort (x :: r)).
    pose proof (of_nat_nonneg (length (np_sort (x :: r)) - 1)) as Hn.
    apply interpolated_statistic_mono.
    + apply np_sort_nondecreasing.
    + unfold np_sort. rewrite sort_by_length. simpl. lia.
    + apply Qmult_le_0_compat; [ lra | exact Hn ].
    + apply Qmult_le_compat_r; [ lra | exact Hn ].
    + setoid_replace (of_nat (length (np_sort (x :: r)) - 1))
        with (1 * of_nat (length (np_sort (x :: r)) - 1)) at 2 by ring.
      apply Qmult_le_compat_r; [ lra | exact Hn ].
Qed.

Lemma naive_quantile_margin_antitone_witness :
  naive_quantile_margin (2 # 10) [1; 2; 3; 4; 5]
  <= naive_quantile_margin (1 # 20) [1; 2; 3; 4; 5].
Proof.
  apply (naive_quantile_margin_antitone [1; 2; 3; 4; 5] (1 # 20) (2 # 10));
    discriminate.
Defined.

Lemma float_lt_asym (x y : np_float) :
  float_lt x y = true -> float_lt y x = false.
Proof.
  destruct x as [p | | | ], y as [q | | | ]; cbn [float_lt];
    try discriminate; try reflexivity.
  intro H. apply Qltb_true in H. apply Qltb_false. lra.
Qed.

(** Permutations of three elements. *)
Ltac perm3 :=
  solve
    [ apply Permutation_refl
    | apply perm_swap
    | apply perm_skip, perm_swap
    | eapply perm_trans; [ apply perm_swap | apply perm_skip, perm_swap ]
    | eapply perm_trans; [ apply perm_skip, perm_swap | apply perm_swap ]
    | eapply perm_trans;
      [ apply perm_swap
      | eapply perm_trans; [ apply perm_skip, perm_swap | apply perm_swap ] ] ].

Lemma middle_of_three_spec (a b c : np_float) :
  exists lo hi,
    Permutation [lo; middle_of_three a b c; hi] [a; b; c] /\
    float_lt (middle_of_three a b c) lo = false /\
    float_lt hi (middle_of_three a b c) = false.
Proof.
  unfold middle_of_three.
  destruct (float_lt b a) eqn:Hba, (float_lt c b) eqn:Hcb,
           (float_lt c a) eqn:Hca; cbv iota.
  - exists c, a. split; [ perm3 | split; now apply float_lt_asym ].
  - exists c, a. split; [ perm3 | split; now apply float_lt_asym ].
  - exists b, a. split; [ perm3 | split; [ assumption | now apply float_lt_asym ] ].
  - exists b, c. split; [ perm3 | split; [ now apply float_lt_asym | assumption ] ].
  - exists c, b. split; [ perm3 | split; [ now apply float_lt_asym | assumption ] ].
  - exists a, b. split; [ perm3 | split; [ assumption | now apply float_lt_asym ] ].
  - exists c, b. split; [ perm3 | split; [ now apply float_lt_asym | assumption ] ].
  - exists a, c. split; [ perm3 | split; assumption ].
Qed.

(** X15: [np.median] of three margins is NaN as soon as one of them is
    NaN.  Otherwise it is one of the three, infinities included: the two
    others can be put around it, one not above it and one not below
    it. *)
Theorem median_of_three_margins (a b c : np_float) :
  (np_isnan a || np_isnan b || np_isnan c = true ->
   np_median3 a b c = NaN) /\
  (np_isnan a || np_isnan b || np_isnan c = false ->
   exists lo hi,
     Permutation [lo; np_median3 a b c; hi] [a; b; c] /\
     float_lt (np_median3 a b c) lo = false /\
     float_lt hi (np_median3 a b c) = false).
Proof.
  split.
  - destruct a, b, c; cbn; intro H; try reflexivity; discriminate H.
  - intro Hnan.
    destruct a as [x | | | ], b as [y | | | ], c as [z | | | ];
      try discriminate Hnan;
      try (cbv beta iota delta [np_median3]; apply middle_of_three_spec).
    cbn [np_median3].
    assert (Hmed : np_median [x; y; z] = nth 1 (np_sort [x; y; z]) 0)
      by reflexivity.
    rewrite Hmed. clear Hmed.
    pose proof (sort_by_perm (fun v => v) [x; y; z]) as Hperm.
    pose proof (np_sort_nondecreasing [x; y; z]) as Hsorted.
    fold (np_sort [x; y; z]) in Hperm.
    pose proof (Permutation_length Hperm) as Hlen.
    destruct (np_sort [x; y; z]) as [ | lo [ | m [ | hi [ | ? ? ] ] ] ];
      try discriminate Hlen.
    destruct Hsorted as [H1 [H2 _]].
    exists (Finite lo), (Finite hi). cbn [nth].
    split; [ | split ].
    + change [Finite lo; Finite m; Finite hi] with (map Finite [lo; m; hi]).
      change [Finite x; Finite y; Finite z] with (map Finite [x; y; z]).
      apply Permutation_map, Hperm.
    + cbn [float_lt]. now apply Qltb_false.
    + cbn [float_lt]. now apply Qltb_false.
Qed.

(** * Properties of the selection by score and by coverage *)

Lemma float_lt_le_trans (x y z : np_float) :
  np_isnan x = false -> np_isnan y = false -> np_isnan z = false ->
  float_lt y x = false -> float_lt z y = false -> float_lt z x = false.
Proof.
  destruct x as [a | | | ], y as [b | | | ], z as [c | | | ];
    cbn; intros Hx Hy Hz H1 H2; try reflexivity; try discriminate.
  qltb_props. apply Qltb_false. lra.
Qed.

Lemma float_lt_weak (x y : np_float) :
  float_lt x y = true -> float_lt y x = false.
Proof.
  destruct x as [a | | | ], y as [b | | | ]; cbn; intro H;
    try reflexivity; try discriminate.
  qltb_props. apply Qltb_false. lra.
Qed.

Lemma float_lt_irrefl (x : np_float) : float_lt x x = false.
Proof.
  destruct x as [a | | | ]; cbn; try reflexivity.
  apply Qltb_false. apply Qle_refl.
Qed.

Section MinMax.

Context {A : Type} (key : A -> np_float).

Lemma py_min_from_least (rest : list A) :
  forall best,
    Forall (fun e => np_isnan (key e) = false) (best :: rest) ->
    forall e, In e (best :: rest) ->
              float_lt (key e) (key (py_min_from key best rest)) = false.
Proof.
  induction rest as [ | x r IH ]; intros best Hnan e He.
  - destruct He as [<- | []]. apply float_lt_irrefl.
  - inversion Hnan as [ | ? ? Hb Hrest ]; subst.
    inversion Hrest as [ | ? ? Hx Hr ]; subst.
    cbn [py_min_from]. destruct (float_lt (key x) (key best)) eqn:E.
    + assert (Hnan' : Forall (fun e => np_isnan (key e) = false) (x :: r))
        by (constructor; assumption).
      destruct He as [<- | He]; [ | now apply IH ].
      pose proof (IH x Hnan' x (or_introl eq_refl)) as Hmx.
      pose proof (py_min_from_In key r x) as Hin.
      rewrite Forall_forall in Hnan'.
      apply float_lt_le_trans with (y := key x);
        [ now apply Hnan' | exact Hx | exact Hb | exact Hmx
          | now apply float_lt_weak ].
    + assert (Hnan' : Forall (fun e => np_isnan (key e) = false) (best :: r))
        by (constructor; assumption).
      destruct He as [<- | [<- | He]].
      * apply IH; [ exact Hnan' | now left ].
      * pose proof (IH best Hnan' best (or_introl eq_refl)) as Hmb.
        pose proof (py_min_from_In key r best) as Hin.
        rewrite Forall_forall in Hnan'.
        apply float_lt_le_trans with (y := key best);
          [ now apply Hnan' | exact Hb | exact Hx | exact Hmb | exact E ].
      * apply IH; [ exact Hnan' | now right ].
Qed.

Lemma py_max_from_In (rest : list A) :
  forall best, In (py_max_from key best rest) (best :: rest).
Proof.
  induction rest as [ | x r IH ]; intro best; cbn [py_max_from].
  - now left.
  - destruct (float_lt (key best) (key x)).
    + right. apply IH.
    + destruct (IH best) as [H | H]; [ now left | right; now right ].
Qed.

Lemma py_max_from_greatest (rest : list A) :
  forall best,
    Forall (fun e => np_isnan (key e) = false) (best :: rest) ->
    forall e, In e (best :: rest) ->
              float_lt (key (py_max_from key best rest)) (key e) = false.
Proof.
  induction rest as [ | x r IH ]; intros best Hnan e He.
  - destruct He as [<- | []]. apply float_lt_irrefl.
  - inversion Hnan as [ | ? ? Hb Hrest ]; subst.
    inversion Hrest as [ | ? ? Hx Hr ]; subst.
    cbn [py_max_from]. destruct (float_lt (key best) (key x)) eqn:E.
    + assert (Hnan' : Forall (fun e => np_isnan (key e) = false) (x :: r))
        by (constructor; assumption).
      destruct He as [<- | He]; [ | now apply IH ].
      pose proof (IH x Hnan' x (or_introl eq_refl)) as Hmx.
      pose proof (py_max_from_In r x) as Hin.
      rewrite Forall_forall in Hnan'.
      apply float_lt_le_trans with (y := key x);
        [ exact Hb | exact Hx | now apply Hnan' | now apply float_lt_weak
          | exact Hmx ].
    + assert (Hnan' : Forall (fun e => np_isnan (key e) = false) (best :: r))
        by (constructor; assumption).
      destruct He as [<- | [<- | He]].
      * apply IH; [ exact Hnan' | now left ].
      * pose proof (IH best Hnan' best (or_introl eq_refl)) as Hmb.
        pose proof (py_max_from_In r best) as Hin.
        rewrite Forall_forall in Hnan'.
        apply float_lt_le_trans with (y := key best);
          [ exact Hx | exact Hb | now apply Hnan' | exact E | exact Hmb ].
      * apply IH; [ exact Hnan' | now right ].
Qed.

End MinMax.

(** X16: when no recorded S-score is NaN, the guard behaves as a minimum
    should.  A model it names is recorded with a finite score that no
    other model undercuts; and it reports that there is no valid model
    only when the lowest score is infinite: some score is minus infinity,
    or every score is plus infinity. *)
Theorem best_model_has_lowest_score (results : list (string * metrics)) :
  Forall (fun e => np_isnan (S_score (snd e)) = false) results ->
  (forall name, select_best_model results = BestModel name ->
     exists m, In (name, m) results /\
               np_isfinite (S_score m) = true /\
               forall e, In e results ->
                         float_lt (S_score (snd e)) (S_score m) = false) /\
  (select_best_model results = NoValidModel ->
   (exists e, In e results /\ S_score (snd e) = NegInf) \/
   (forall e, In e results -> S_score (snd e) = PosInf)).
Proof.
  intro Hnan. destruct results as [ | first rest ].
  - split; [ intros name H; discriminate H | intro H; discriminate H ].
  - cbn [select_best_model]. cbv zeta.
    pose proof (py_min_from_In (fun e => S_score (snd e)) rest first) as Hin.
    pose proof (py_min_from_least (fun e => S_score (snd e)) rest first Hnan)
      as Hleast.
    set (best := py_min_from (fun e => S_score (snd e)) first rest) in *.
    assert (Hbnan : np_isnan (S_score (snd best)) = false)
      by (rewrite Forall_forall in Hnan; now apply Hnan).
    split.
    + intros name H. destruct (np_isinf (S_score (snd best))) eqn:E;
        [ discriminate | ].
      injection H as <-. exists (snd best). split; [ | split ].
      * now rewrite <- surjective_pairing.
      * destruct (S_score (snd best)); try reflexivity; discriminate.
      * exact Hleast.
    + intro H. destruct (S_score (snd best)) as [q | | | ] eqn:E;
        cbn in H; try discriminate.
      * right. intros e He. specialize (Hleast e He). cbn in Hleast.
        rewrite Forall_forall in Hnan. specialize (Hnan e He).
        destruct (S_score (snd e)); cbn in *; try reflexivity; discriminate.
      * left. exists best. split; assumption.
Qed.

Lemma best_model_has_lowest_score_witness :
  exists m, In ("XGBoost"%string, m) demo_metrics /\
            np_isfinite (S_score m) = true /\
            forall e, In e demo_metrics ->
                      float_lt (S_score (snd e)) (S_score m) = false.
Proof.
  refine (proj1 (best_model_has_lowest_score demo_metrics _) "XGBoost"%string _).
  - repeat constructor.
  - reflexivity.
Defined.

(** * Properties of the per-unit evaluation and of the cached margin *)

Lemma NoDup_skipn_of {A : Type} (n : nat) (l : list A) :
  NoDup l -> NoDup (skipn n l).
Proof.
  intro H. rewrite <- (firstn_skipn n l) in H.
  now apply NoDup_app_remove_l in H.
Qed.


Section PerUnitFacts.

Variable features : Type.
Variable np_exp : Q -> Q.
Variable np_sqrt : Q -> Q.
Variable norm_ppf : Q -> Q.
Variable rng : Type.
Variable default_rng : Z -> rng.
Variable rng_choice : rng -> list Q -> nat -> list Q * rng.
Variable model_predict : string -> window features -> Q.

Let evaluate_per_unit :=
  evaluate_conformal_metrics_per_unit features np_exp np_sqrt norm_ppf rng
    default_rng rng_choice model_predict.

Let evaluate_one := evaluate_unit features model_predict.

(** The units, rows and candidates the per-unit evaluation works with
    for the model [name]. *)
Let units_of (self : ExperimentPipeline features) (name : string) : list Z :=
  np_unique (map (s_unit features) (sample_pool features self name)).

Let cal_rows (self : ExperimentPipeline features) (name : string)
  : list (sample features) :=
  rows_in features (train_units (units_of self name))
          (sample_pool features self name).

Let candidates (self : ExperimentPipeline features) (name : string)
  (alpha : Q) : list (string * np_float) :=
  unit_margin_candidates features np_exp np_sqrt norm_ppf rng default_rng
    rng_choice self alpha
    (map (s_y features) (cal_rows self name))
    (predict_all features model_predict name (cal_rows self name)).

Let calibration_coverage (self : ExperimentPipeline features) (name : string)
  (c : string * np_float) : np_float :=
  rep_coverage
    (interval_report (snd c)
       (clip0 (predict_all features model_predict name (cal_rows self name)))
       (map (s_y features) (cal_rows self name))).

Lemma rows_in_split_nonempty (pool : list (sample features)) :
  train_units (np_unique (map (s_unit features) pool)) <> [] ->
  rows_in features (train_units (np_unique (map (s_unit features) pool))) pool
  <> [].
Proof.
  intro Hne.
  destruct (train_units (np_unique (map (s_unit features) pool)))
    as [ | u r ] eqn:E; [ congruence | ].
  apply (rows_in_nonempty features (u :: r) pool u); [ now left | ].
  apply (np_unique_In (map (s_unit features) pool)).
  apply (In_firstn (n_train_units (np_unique (map (s_unit features) pool)))).
  fold (train_units (np_unique (map (s_unit features) pool))).
  rewrite E. now left.
Qed.

(** What a call that returns a table has done. *)
Lemma evaluate_per_unit_returned (self : ExperimentPipeline features)
  (alpha : Q) (fold_splits : nat) (method : margin_method)
  (rows : list unit_row) :
  snd (evaluate_per_unit self alpha fold_splits method) = Returned rows ->
  exists name best_margin,
    select_best_model (results_metrics self) = BestModel name /\
    cal_rows self name <> [] /\
    rows = reports_of (map (evaluate_one self name best_margin)
                           (test_units (units_of self name))) /\
    match method with
    | Complex => best_margin = median_of_candidates (candidates self name alpha)
    | Best =>
        exists c rest,
          candidates self name alpha = c :: rest /\
          best_margin = snd (py_max_from (calibration_coverage self name) c rest)
    | OtherMethod _ => False
    end.
Proof.
  unfold evaluate_per_unit, evaluate_conformal_metrics_per_unit.
  destruct (select_best_model (results_metrics self)) as [ | | name ];
    try discriminate.
  destruct (negb (name_in name reloadable)); [ discriminate | ].
  destruct ((length (train_units
                       (np_unique (map (s_unit features)
                                       (sample_pool features self name)))) =? 0)%nat
            || (length (test_units
                          (np_unique (map (s_unit features)
                                          (sample_pool features self name)))) =? 0)%nat)
    eqn:Hunits; [ discriminate | ].
  apply orb_false_iff in Hunits. destruct Hunits as [Hu1 _].
  apply length_eqb_0 in Hu1. apply rows_in_split_nonempty in Hu1.
  destruct method as [ | | other ].
  - cbn [snd]. intro H. injection H as <-.
    exists name. eexists. split; [ reflexivity | ]. split; [ exact Hu1 | ].
    split; reflexivity.
  - cbn [snd]. intro H. injection H as <-.
    exists name. eexists. split; [ reflexivity | ]. split; [ exact Hu1 | ].
    split; [ reflexivity | ].
    eexists. eexists. split; reflexivity.
  - discriminate.
Qed.

Lemma reports_of_cons (o : unit_outcome) (l : list unit_outcome) :
  reports_of (o :: l)
  = match o with
    | UnitReport r => [r]
    | UnitSkipped _ => []
    end ++ reports_of l.
Proof. reflexivity. Qed.

Lemma evaluated_ids_distinct (self : ExperimentPipeline features)
  (name : string) (margin : np_float) (units : list Z) :
  NoDup units ->
  NoDup (map unit_id (reports_of (map (evaluate_one self name margin) units))).
Proof.
  induction units as [ | u r IH ]; intro Hnd; [ constructor | ].
  inversion Hnd as [ | ? ? Hnotin Hnd' ]; subst.
  cbn [map]. rewrite reports_of_cons.
  destruct (evaluate_one self name margin u) as [ why | row ] eqn:E.
  - cbn [app]. now apply IH.
  - cbn [app map]. constructor; [ | now apply IH ].
    intro Hin. apply in_map_iff in Hin. destruct Hin as [row' [Hid Hin]].
    apply reports_of_In in Hin. apply in_map_iff in Hin.
    destruct Hin as [u' [Hout Hu']].
    apply evaluate_one_report in E. apply evaluate_one_report in Hout.
    destruct E as [E _]. destruct Hout as [Hout _].
    apply Hnotin. congruence.
Qed.

(** X17: under the "best" policy every row of the returned table carries
    one and the same margin, which is one of the three candidates
    (parametric, weighted, bootstrap) and whose coverage on the
    calibration set no other candidate exceeds. *)
Theorem best_margin_has_highest_coverage (self : ExperimentPipeline features)
  (alpha : Q) (fold_splits : nat) (rows : list unit_row) (name : string) :
  select_best_model (results_metrics self) = BestModel name ->
  snd (evaluate_per_unit self alpha fold_splits Best) = Returned rows ->
  exists c,
    In c (candidates self name alpha) /\
    (forall r, In r rows -> rep_margin (unit_report r) = snd c) /\
    (forall c', In c' (candidates self name alpha) ->
       float_lt (calibration_coverage self name c)
                (calibration_coverage self name c') = false).
Proof.
  intros Hsel Hret.
  destruct (evaluate_per_unit_returned self alpha fold_splits Best rows Hret)
    as [name' [best_margin [Hsel' [Hcal [Hrows [c [rest [Hc Hbest]]]]]]]].
  assert (name' = name) by congruence. subst name'.
  assert (Hcov : Forall (fun e => np_isnan (calibration_coverage self name e)
                                  = false) (c :: rest)).
  { apply Forall_forall. intros e _. unfold calibration_coverage.
    destruct (interval_report_finite (snd e)
                (clip0 (predict_all features model_predict name (cal_rows self name)))
                (map (s_y features) (cal_rows self name))) as [Hfin _].
    - intro E. apply map_eq_nil in E. now apply Hcal.
    - unfold clip0, predict_all. now rewrite !length_map.
    - destruct (rep_coverage _); try discriminate. reflexivity. }
  exists (py_max_from (calibration_coverage self name) c rest).
  split; [ rewrite Hc; apply py_max_from_In | ]. split.
  - intros r Hr. rewrite Hrows in Hr. apply reports_of_In in Hr.
    apply in_map_iff in Hr. destruct Hr as [u [Hout _]].
    apply evaluate_one_report in Hout.
    destruct Hout as [_ [_ [_ [preds [_ Hrep]]]]].
    rewrite Hrep, rep_margin_interval_report. exact Hbest.
  - intros c' Hc'. rewrite Hc in Hc'.
    now apply py_max_from_greatest.
Qed.

(** X18: [evaluate_conformal_metrics_per_unit] never writes the pipeline.
    The table it returns has one row per evaluated unit, each unit at
    most once; all rows carry the same margin; a row has as many
    predictions as its unit has readings beyond [sequence_length], at
    least one.  With a [margin_method] other than "complex" and "best" no
    table is returned. *)
Theorem per_unit_table_shape (self : ExperimentPipeline features) (alpha : Q)
  (fold_splits : nat) (method : margin_method) :
  fst (evaluate_per_unit self alpha fold_splits method) = self /\
  (forall other rows,
      method = OtherMethod other ->
      snd (evaluate_per_unit self alpha fold_splits method) <> Returned rows) /\
  (forall rows,
      snd (evaluate_per_unit self alpha fold_splits method) = Returned rows ->
      NoDup (map unit_id rows) /\
      (forall r1 r2, In r1 rows -> In r2 rows ->
         rep_margin (unit_report r1) = rep_margin (unit_report r2)) /\
      (forall r, In r rows ->
         (0 < num_predictions r)%nat /\
         num_predictions r
         = (length (unit_rows features self (unit_id r))
            - sequence_length self)%nat)).
Proof.
  split; [ | split ].
  - unfold evaluate_per_unit, evaluate_conformal_metrics_per_unit.
    destruct (select_best_model (results_metrics self)) as [ | | name ];
      try reflexivity.
    destruct (negb (name_in name reloadable)); [ reflexivity | ].
    destruct (_ || _); [ reflexivity | ].
    destruct method; reflexivity.
  - intros other rows -> Hret.
    destruct (evaluate_per_unit_returned self alpha fold_splits
                (OtherMethod other) rows Hret) as [? [? [_ [_ [_ []]]]]].
  - intros rows Hret.
    destruct (evaluate_per_unit_returned self alpha fold_splits method rows Hret)
      as [name [best_margin [_ [_ [Hrows _]]]]].
    assert (Hrow : forall r, In r rows ->
              rep_margin (unit_report r) = best_margin /\
              (0 < num_predictions r)%nat /\
              num_predictions r
              = (length (unit_rows features self (unit_id r))
                 - sequence_length self)%nat).
    { intros r Hr. rewrite Hrows in Hr. apply reports_of_In in Hr.
      apply in_map_iff in Hr. destruct Hr as [u [Hout _]].
      apply evaluate_one_report in Hout.
      destruct Hout as [Hid [Hne [Hnum [preds [_ Hrep]]]]].
      split; [ rewrite Hrep; apply rep_margin_interval_report | ].
      apply nonempty_length in Hne. rewrite Hid.
      unfold unit_y_true in Hnum, Hne.
      rewrite length_skipn, length_map in Hnum, Hne. lia. }
    split; [ | split ].
    + rewrite Hrows. apply evaluated_ids_distinct.
      unfold test_units. apply NoDup_skipn_of.
      apply ascending_NoDup, np_unique_ascending.
    + intros r1 r2 H1 H2. destruct (Hrow r1 H1) as [-> _].
      destruct (Hrow r2 H2) as [-> _]. reflexivity.
    + intros r Hr. now destruct (Hrow r Hr) as [_ H].
Qed.

(** X19: once a margin is stored, [plot_conformal_multiple_units] reuses
    it: the call leaves the pipeline untouched, runs no calibration, and
    its outcome does not depend on [alpha] or on the units it is given
    (only the drawing depends on the units). *)
Theorem cached_margin_is_reused (self : ExperimentPipeline features)
  (unit_ids unit_ids' : list Z) (alpha alpha' : Q) (stored : string * np_float) :
  conformal_inference self = Some stored ->
  fst (plot_conformal_multiple_units features np_exp rng default_rng rng_choice
         model_predict self unit_ids alpha) = self /\
  plot_conformal_multiple_units features np_exp rng default_rng rng_choice
    model_predict self unit_ids alpha
  = plot_conformal_multiple_units features np_exp rng default_rng rng_choice
      model_predict self unit_ids' alpha'.
Proof.
  intro Hc. unfold plot_conformal_multiple_units. rewrite Hc.
  destruct (select_best_model (results_metrics self));
    try (split; reflexivity).
  destruct (negb (name_in name reloadable_multiple_units)); split; reflexivity.
Qed.

End PerUnitFacts.

Lemma best_margin_has_highest_coverage_witness :
  exists m,
    forall r,
      In r (rows_of (snd (evaluate_conformal_metrics_per_unit Q exp_series
                            sqrt_digits ppf_table Z lcg_seed lcg_choice
                            demo_predict two_unit_pipeline (1 # 20) 5 Best))) ->
      rep_margin (unit_report r) = m.
Proof.
  destruct (best_margin_has_highest_coverage Q exp_series sqrt_digits ppf_table
              Z lcg_seed lcg_choice demo_predict two_unit_pipeline (1 # 20) 5
              (rows_of (snd (evaluate_conformal_metrics_per_unit Q exp_series
                               sqrt_digits ppf_table Z lcg_seed lcg_choice
                               demo_predict two_unit_pipeline (1 # 20) 5 Best)))
              "XGBoost"%string) as [c [_ [H _]]].
  - vm_compute. reflexivity.
  - vm_compute. reflexivity.
  - exists (snd c). exact H.
Defined.

Lemma cached_margin_is_reused_witness :
  fst (plot_conformal_multiple_units Q exp_series Z lcg_seed lcg_choice
         demo_predict cached_pipeline [5%Z] (1 # 20)) = cached_pipeline.
Proof.
  destruct (cached_margin_is_reused Q exp_series Z lcg_seed lcg_choice
              demo_predict cached_pipeline [5%Z] [1%Z] (1 # 20) (1 # 2)
              ("Naive"%string, Finite 2)) as [H _].
  - vm_compute. reflexivity.
  - exact H.
Defined.

(** * Properties of the S-score *)

Section SScore.

Variable np_exp : Q -> Q.

(** What is assumed of [np.exp]: at least 1 on non-negative arguments,
    1 at zero, and non-decreasing on non-negative arguments. *)
Hypothesis np_exp_ge_1 : forall x, 0 <= x -> 1 <= np_exp x.
Hypothesis np_exp_zero : forall x, x == 0 -> np_exp x == 1.
Hypothesis np_exp_mono : forall x y, 0 <= x -> x <= y -> np_exp x <= np_exp y.

Lemma s_score_term_nonneg (t p : Q) :
  0 <= (if Qltb (p - t) 0 then np_exp (- (p - t) / 13) - 1
        else np_exp ((p - t) / 10) - 1).
Proof.
  destruct (Qltb (p - t) 0) eqn:E; qltb_props.
  - assert (0 <= - (p - t) / 13) by (apply Qdiv_nonneg; [ lra | discriminate ]).
    pose proof (np_exp_ge_1 _ H). lra.
  - assert (0 <= (p - t) / 10) by (apply Qdiv_nonneg; [ lra | discriminate ]).
    pose proof (np_exp_ge_1 _ H). lra.
Qed.

Lemma compute_s_score_nonneg (rul_true rul_pred : list Q) :
  0 <= compute_s_score np_exp rul_true rul_pred.
Proof.
  unfold compute_s_score. apply np_sum_nonneg, Forall_forall.
  intros x Hx. apply in_map_iff in Hx. destruct Hx as [[t p] [<- _]].
  cbn [fst snd]. apply s_score_term_nonneg.
Qed.

Lemma compute_s_score_exact (rul : list Q) :
  compute_s_score np_exp rul rul == 0.
Proof.
  unfold compute_s_score. induction rul as [ | t r IH ]; [ reflexivity | ].
  cbn [combine map]. cbn [fst snd].
  change (np_sum (?a :: ?l)) with (a + np_sum l).
  rewrite IH.
  destruct (Qltb (t - t) 0) eqn:E; qltb_props; [ lra | ].
  assert (Hz : (t - t) / 10 == 0) by (unfold Qdiv; ring).
  rewrite (np_exp_zero _ Hz). ring.
Qed.

(** X20: the S-score is never negative and is zero for exact predictions;
    and predicting [d] cycles too late costs at least as much as
    predicting [d] cycles too early. *)
Theorem s_score_properties (rul_true rul_pred : list Q) (t d : Q) :
  0 <= d ->
  0 <= compute_s_score np_exp rul_true rul_pred /\
  compute_s_score np_exp rul_true rul_true == 0 /\
  compute_s_score np_exp [t] [t - d] <= compute_s_score np_exp [t] [t + d].
Proof.
  intro Hd. split; [ apply compute_s_score_nonneg | ].
  split; [ apply compute_s_score_exact | ].
  unfold compute_s_score. cbn [combine map fst snd].
  change (np_sum [?a]) with (a + 0).
  assert (Hearly : 0 <= - (t - d - t) / 13)
    by (apply Qdiv_nonneg; [ lra | discriminate ]).
  assert (Hlate : 0 <= (t + d - t) / 10)
    by (apply Qdiv_nonneg; [ lra | discriminate ]).
  assert (Hle : - (t - d - t) / 13 <= (t + d - t) / 10).
  { setoid_replace (- (t - d - t) / 13) with (d * (1 # 13)) by field.
    setoid_replace ((t + d - t) / 10) with (d * (1 # 10)) by field.
    lra. }
  assert (Hlate_cost : np_exp (- (t - d - t) / 13) <= np_exp ((t + d - t) / 10))
    by (now apply np_exp_mono).
  destruct (Qltb (t + d - t) 0) eqn:E2; qltb_props; [ lra | ].
  destruct (Qltb (t - d - t) 0) eqn:E1; qltb_props.
  - lra.
  - assert (Hd0 : d == 0) by lra.
    assert (Hsame : np_exp ((t - d - t) / 10) <= np_exp ((t + d - t) / 10)).
    { apply np_exp_mono.
      - apply Qdiv_nonneg; [ lra | discriminate ].
      - setoid_replace ((t - d - t) / 10) with (- d * (1 # 10)) by field.
        setoid_replace ((t + d - t) / 10) with (d * (1 # 10)) by field.
        lra. }
    lra.
Qed.

End SScore.

(** The series used for [np.exp] meets these assumptions. *)
Lemma exp_series_ge_1 (x : Q) : 0 <= x -> 1 <= exp_series x.
Proof.
  intro Hx. unfold exp_series. rewrite Qred_correct.
  apply (exp_terms_ge_first 29 0 1 x); [ discriminate | exact Hx ].
Qed.

Lemma exp_terms_of_zero (fuel : nat) :
  forall (k : nat) (term x : Q), term == 0 -> exp_terms fuel k term x == 0.
Proof.
  induction fuel as [ | fuel IH ]; intros k term x Ht; [ reflexivity | ].
  rewrite exp_terms_step. rewrite IH.
  - rewrite Ht. ring.
  - rewrite Qred_correct, Ht. unfold Qdiv. ring.
Qed.

Lemma exp_series_zero (x : Q) : x == 0 -> exp_series x == 1.
Proof.
  intro Hx. unfold exp_series. rewrite Qred_correct.
  rewrite (exp_terms_step 29 0 1 x). rewrite exp_terms_of_zero.
  - ring.
  - rewrite Qred_correct, Hx. unfold Qdiv. ring.
Qed.

Lemma exp_terms_mono (fuel : nat) :
  forall (k : nat) (t t' x x' : Q),
    0 <= t -> t <= t' -> 0 <= x -> x <= x' ->
    exp_terms fuel k t x <= exp_terms fuel k t' x'.
Proof.
  induction fuel as [ | fuel IH ]; intros k t t' x x' Ht Htt Hx Hxx;
    [ apply Qle_refl | ].
  rewrite !exp_terms_step.
  assert (Hc : 0 <= / of_nat (S k))
    by (apply Qinv_le_0_compat, of_nat_nonneg).
  assert (Hp0 : 0 <= t * x) by (now apply Qmult_le_0_compat).
  assert (Hp : t * x <= t' * x').
  { apply Qle_trans with (y := t' * x).
    - now apply Qmult_le_compat_r.
    - rewrite !(Qmult_comm t'). apply Qmult_le_compat_r; lra. }
  assert (Hn0 : 0 <= Qred (t * x / of_nat (S k))).
  { rewrite Qred_correct. unfold Qdiv. now apply Qmult_le_0_compat. }
  assert (Hn : Qred (t * x / of_nat (S k)) <= Qred (t' * x' / of_nat (S k))).
  { rewrite !Qred_correct. unfold Qdiv. now apply Qmult_le_compat_r. }
  specialize (IH (S k) _ _ x x' Hn0 Hn Hx Hxx). lra.
Qed.

Lemma exp_series_mono (x y : Q) :
  0 <= x -> x <= y -> exp_series x <= exp_series y.
Proof.
  intros Hx Hxy. unfold exp_series. rewrite !Qred_correct.
  apply exp_terms_mono; try assumption; [ discriminate | apply Qle_refl ].
Qed.

Lemma s_score_properties_witness :
  0 <= compute_s_score exp_series [3; 2; 1] [4; 2; 0] /\
  compute_s_score exp_series [3; 2; 1] [3; 2; 1] == 0 /\
  compute_s_score exp_series [3] [3 - 2] <= compute_s_score exp_series [3] [3 + 2].
Proof.
  apply (s_score_properties exp_series exp_series_ge_1 exp_series_zero
           exp_series_mono [3; 2; 1] [4; 2; 0] 3 2).
  discriminate.
Defined.

(** * Properties of the fixed-split experiment *)

Lemma dict_set_keys {V : Type} (k : string) (v : V) (d : list (string * V)) :
  map fst (dict_set k v d) = add_key k (map fst d).
Proof.
  unfold add_key, name_in. induction d as [ | [k' v'] rest IH ]; [ reflexivity | ].
  cbn [dict_set map fst existsb]. rewrite (String.eqb_sym k k').
  destruct (String.eqb k' k) eqn:E.
  - apply String.eqb_eq in E. subst k'. reflexivity.
  - cbn [map fst orb]. rewrite IH.
    destruct (existsb (String.eqb k) (map fst rest)); reflexivity.
Qed.

Lemma dict_set_In {V : Type} (k : string) (v : V) (d : list (string * V)) :
  In (k, v) (dict_set k v d).
Proof.
  induction d as [ | [k' v'] rest IH ]; [ now left | ].
  cbn [dict_set]. destruct (String.eqb k' k); [ now left | now right ].
Qed.

Lemma name_in_In (k : string) (keys : list string) :
  name_in k keys = true <-> In k keys.
Proof.
  unfold name_in. rewrite existsb_exists. split.
  - intros [x [Hx E]]. apply String.eqb_eq in E. now subst x.
  - intro H. exists k. split; [ exact H | apply String.eqb_refl ].
Qed.

Lemma add_key_present (k : string) (keys : list string) :
  In k keys -> add_key k keys = keys.
Proof.
  intro H. unfold add_key. apply name_in_In in H. now rewrite H.
Qed.

Lemma add_key_In (k k' : string) (keys : list string) :
  In k (add_key k' keys) <-> In k keys \/ k = k'.
Proof.
  unfold add_key. destruct (name_in k' keys) eqn:E.
  - apply name_in_In in E. split; [ now left | ].
    intros [H | ->]; assumption.
  - rewrite in_app_iff. cbn [In]. split.
    + intros [H | [H | []]]; [ now left | now right ].
    + intros [H | ->]; [ now left | right; now left ].
Qed.

Lemma add_keys_In (names : list string) :
  forall (keys : list string) (k : string),
    In k (fold_left (fun ks n => add_key n ks) names keys) <->
    In k keys \/ In k names.
Proof.
  induction names as [ | n names IH ]; intros keys k; cbn [fold_left In].
  - tauto.
  - rewrite IH, add_key_In. split.
    + intros [[H | ->] | H]; auto.
    + intros [H | [<- | H]]; auto.
Qed.

Lemma add_keys_present (names : list string) :
  forall keys : list string,
    (forall k, In k names -> In k keys) ->
    fold_left (fun ks n => add_key n ks) names keys = keys.
Proof.
  induction names as [ | n names IH ]; intros keys H; [ reflexivity | ].
  cbn [fold_left]. rewrite add_key_present by (apply H; now left).
  apply IH. intros k Hk. apply H. now right.
Qed.

Lemma few_units_no_training (units : list Z) :
  (length units < 2)%nat -> length (train_units units) = 0%nat.
Proof.
  intro H. destruct units as [ | a [ | b r ] ]; [ reflexivity | reflexivity | ].
  cbn [length] in H. lia.
Qed.

Section ExperimentFacts.

Variable features : Type.
Variable np_exp : Q -> Q.
Variable np_sqrt : Q -> Q.
Variable r2_score : list Q -> list Q -> np_float.
Variable fitted : string -> list (sample features) -> window features -> Q.
Variable fit_loss : string -> list (sample features) -> list Q.

Let experiment :=
  run_experiment features np_exp np_sqrt r2_score fitted fit_loss.

Lemma run_model_fixed_records (st : ExperimentRun features) (name : string) :
  exists m loss,
    run_model_fixed features np_exp np_sqrt r2_score fitted fit_loss st name
    = record_run features st name m loss.
Proof.
  unfold run_model_fixed.
  destruct (length (dl_samples (run_pipeline st)) =? 0)%nat;
    [ now do 2 eexists | ].
  destruct ((length (train_units
                       (np_unique (groups features (run_pipeline st)))) =? 0)%nat
            || (length (test_units
                          (np_unique (groups features (run_pipeline st)))) =? 0)%nat);
    now do 2 eexists.
Qed.

Lemma run_xgboost_fixed_records (st : ExperimentRun features) :
  exists m,
    run_xgboost_fixed features np_exp np_sqrt r2_score fitted st
    = record_run features st "XGBoost" m None.
Proof.
  unfold run_xgboost_fixed.
  destruct (length (np_unique (ml_groups features (run_pipeline st))) =? 0)%nat;
    [ now eexists | ].
  destruct ((length (train_units
                       (np_unique (ml_groups features (run_pipeline st)))) =? 0)%nat
            || (length (test_units
                          (np_unique (ml_groups features (run_pipeline st)))) =? 0)%nat);
    now eexists.
Qed.

Lemma record_run_metrics_keys (st : ExperimentRun features) (name : string)
  (m : metrics) (loss : option (list Q)) :
  map fst (results_metrics (run_pipeline (record_run features st name m loss)))
  = add_key name (map fst (results_metrics (run_pipeline st))).
Proof. apply dict_set_keys. Qed.

Lemma record_run_loss_keys (st : ExperimentRun features) (name : string)
  (m : metrics) (loss : option (list Q)) :
  map fst (loss_histories (record_run features st name m loss))
  = add_key name (map fst (loss_histories st)).
Proof. apply dict_set_keys. Qed.

(** The five runs of the experiment, each as the record it makes. *)
Lemma run_experiment_records (st : ExperimentRun features) :
  exists m1 l1 m2 l2 m3 l3 m4 l4 m5,
    let s5 :=
      record_run features
        (record_run features
           (record_run features
              (record_run features
                 (record_run features st "LSTM" m1 l1) "BiLSTM" m2 l2)
              "NBEATS" m3 l3)
           "CNNGRU" m4 l4)
        "XGBoost" m5 None in
    experiment st
    = (mk_run features (run_pipeline s5) (loss_histories s5)
              (Some (results_metrics (run_pipeline s5))),
       results_metrics (run_pipeline s5)).
Proof.
  unfold experiment, run_experiment.
  destruct (run_model_fixed_records st "LSTM") as [m1 [l1 ->]].
  destruct (run_model_fixed_records
              (record_run features st "LSTM" m1 l1) "BiLSTM") as [m2 [l2 ->]].
  destruct (run_model_fixed_records
              (record_run features
                 (record_run features st "LSTM" m1 l1) "BiLSTM" m2 l2)
              "NBEATS") as [m3 [l3 ->]].
  destruct (run_model_fixed_records
              (record_run features
                 (record_run features
                    (record_run features st "LSTM" m1 l1) "BiLSTM" m2 l2)
                 "NBEATS" m3 l3)
              "CNNGRU") as [m4 [l4 ->]].
  destruct (run_xgboost_fixed_records
              (record_run features
                 (record_run features
                    (record_run features
                       (record_run features st "LSTM" m1 l1) "BiLSTM" m2 l2)
                    "NBEATS" m3 l3)
                 "CNNGRU" m4 l4)) as [m5 ->].
  exists m1, l1, m2, l2, m3, l3, m4, l4, m5. reflexivity.
Qed.

Lemma run_experiment_keys (st : ExperimentRun features) :
  map fst (snd (experiment st))
  = fold_left (fun ks n => add_key n ks) model_names
              (map fst (results_metrics (run_pipeline st))) /\
  map fst (loss_histories (fst (experiment st)))
  = fold_left (fun ks n => add_key n ks) model_names
              (map fst (loss_histories st)).
Proof.
  destruct (run_experiment_records st)
    as [m1 [l1 [m2 [l2 [m3 [l3 [m4 [l4 [m5 E]]]]]]]]].
  cbv zeta in E. rewrite E. cbn [fst snd loss_histories].
  rewrite !record_run_metrics_keys, !record_run_loss_keys.
  split; reflexivity.
Qed.

Lemma run_experiment_frame (st : ExperimentRun features) :
  results_df (fst (experiment st)) = Some (snd (experiment st)) /\
  results_metrics (run_pipeline (fst (experiment st))) = snd (experiment st) /\
  In ("XGBoost"%string, None) (loss_histories (fst (experiment st))) /\
  sequence_length (run_pipeline (fst (experiment st)))
  = sequence_length (run_pipeline st) /\
  random_state (run_pipeline (fst (experiment st)))
  = random_state (run_pipeline st) /\
  df (run_pipeline (fst (experiment st))) = df (run_pipeline st) /\
  dl_samples (run_pipeline (fst (experiment st)))
  = dl_samples (run_pipeline st) /\
  ml_samples (run_pipeline (fst (experiment st)))
  = ml_samples (run_pipeline st) /\
  conformal_results_df (run_pipeline (fst (experiment st)))
  = conformal_results_df (run_pipeline st) /\
  conformal_inference (run_pipeline (fst (experiment st)))
  = conformal_inference (run_pipeline st).
Proof.
  destruct (run_experiment_records st)
    as [m1 [l1 [m2 [l2 [m3 [l3 [m4 [l4 [m5 E]]]]]]]]].
  cbv zeta in E. rewrite E. cbn [fst snd results_df run_pipeline loss_histories].
  split; [ reflexivity | ]. split; [ reflexivity | ].
  split; [ apply dict_set_In | ]. repeat split.
Qed.

(** X21: [run_experiment] writes three attributes and no other:
    [results_metrics], [loss_histories] and [results_df], which is the
    table of the recorded metrics and the value returned; the data
    frame, the prepared arrays, the window length, the seed and the two
    conformal caches are as before.  On a pipeline with nothing recorded
    the table and the loss histories have exactly the keys LSTM, BiLSTM,
    NBEATS, CNNGRU, XGBoost, in this order, whatever the data; the loss
    history of XGBoost is [None]; rows recorded before are kept; and
    running the experiment again gives the same rows in the same order. *)
Theorem run_experiment_table (st : ExperimentRun features) :
  results_df (fst (experiment st)) = Some (snd (experiment st)) /\
  results_metrics (run_pipeline (fst (experiment st))) = snd (experiment st) /\
  (results_metrics (run_pipeline st) = [] ->
   map fst (snd (experiment st)) = model_names) /\
  (loss_histories st = [] ->
   map fst (loss_histories (fst (experiment st))) = model_names) /\
  In ("XGBoost"%string, None) (loss_histories (fst (experiment st))) /\
  map fst (snd (experiment (fst (experiment st))))
  = map fst (snd (experiment st)) /\
  (forall k, In k (map fst (results_metrics (run_pipeline st))) ->
             In k (map fst (snd (experiment st)))) /\
  sequence_length (run_pipeline (fst (experiment st)))
  = sequence_length (run_pipeline st) /\
  random_state (run_pipeline (fst (experiment st)))
  = random_state (run_pipeline st) /\
  df (run_pipeline (fst (experiment st))) = df (run_pipeline st) /\
  dl_samples (run_pipeline (fst (experiment st)))
  = dl_samples (run_pipeline st) /\
  ml_samples (run_pipeline (fst (experiment st)))
  = ml_samples (run_pipeline st) /\
  conformal_results_df (run_pipeline (fst (experiment st)))
  = conformal_results_df (run_pipeline st) /\
  conformal_inference (run_pipeline (fst (experiment st)))
  = conformal_inference (run_pipeline st).
Proof.
  destruct (run_experiment_frame st) as [Hdf [Hres [Hxgb Hframe]]].
  destruct (run_experiment_keys st) as [Hkeys Hloss].
  split; [ exact Hdf | ]. split; [ exact Hres | ].
  split; [ intro H; rewrite Hkeys, H; reflexivity | ].
  split; [ intro H; rewrite Hloss, H; reflexivity | ].
  split; [ exact Hxgb | ]. split; [ | split; [ | exact Hframe ] ].
  - rewrite (proj1 (run_experiment_keys (fst (experiment st)))), Hres.
    apply add_keys_present. intros k Hk.
    rewrite Hkeys. apply add_keys_In. now right.
  - intros k Hk. rewrite Hkeys. apply add_keys_In. now left.
Qed.

Lemma run_model_fixed_too_few (st : ExperimentRun features) (name : string) :
  (length (np_unique (groups features (run_pipeline st))) < 2)%nat ->
  run_model_fixed features np_exp np_sqrt r2_score fitted fit_loss st name
  = record_run features st name failed_metrics None.
Proof.
  intro H. unfold run_model_fixed.
  destruct (length (dl_samples (run_pipeline st)) =? 0)%nat; [ reflexivity | ].
  rewrite (few_units_no_training _ H). reflexivity.
Qed.

Lemma run_xgboost_fixed_too_few (st : ExperimentRun features) :
  (length (np_unique (ml_groups features (run_pipeline st))) < 2)%nat ->
  run_xgboost_fixed features np_exp np_sqrt r2_score fitted st
  = record_run features st "XGBoost" failed_metrics None.
Proof.
  intro H. unfold run_xgboost_fixed.
  destruct (length (np_unique (ml_groups features (run_pipeline st))) =? 0)%nat;
    [ reflexivity | ].
  rewrite (few_units_no_training _ H). reflexivity.
Qed.

Lemma run_experiment_too_few (st : ExperimentRun features) :
  results_metrics (run_pipeline st) = [] ->
  loss_histories st = [] ->
  (length (np_unique (groups features (run_pipeline st))) < 2)%nat ->
  (length (np_unique (ml_groups features (run_pipeline st))) < 2)%nat ->
  experiment st
  = (mk_run features
       (set_results_metrics features (run_pipeline st) all_failed_metrics)
       no_loss_histories (Some all_failed_metrics),
     all_failed_metrics).
Proof.
  intros Hres Hloss Hdl Hml. unfold experiment, run_experiment.
  rewrite (run_model_fixed_too_few st "LSTM" Hdl).
  set (s1 := record_run features st "LSTM" failed_metrics None).
  rewrite (run_model_fixed_too_few s1 "BiLSTM" Hdl).
  set (s2 := record_run features s1 "BiLSTM" failed_metrics None).
  rewrite (run_model_fixed_too_few s2 "NBEATS" Hdl).
  set (s3 := record_run features s2 "NBEATS" failed_metrics None).
  rewrite (run_model_fixed_too_few s3 "CNNGRU" Hdl).
  set (s4 := record_run features s3 "CNNGRU" failed_metrics None).
  rewrite (run_xgboost_fixed_too_few s4 Hml).
  subst s4 s3 s2 s1. unfold record_run, set_results_metrics.
  cbn [run_pipeline loss_histories results_df results_metrics sequence_length
       random_state df dl_samples ml_samples conformal_results_df
       conformal_inference].
  rewrite Hres, Hloss. reflexivity.
Qed.

(** X22: on a pipeline with nothing recorded whose prepared arrays hold
    fewer than two units no model is trained: [run_experiment] records
    NaN in every metric of all five models and [None] for every loss
    history, sets [results_df] to that table and changes nothing else;
    and the guard of the conformal entry points then takes LSTM, the
    first of them, for the best model instead of refusing. *)
Theorem too_few_units_for_an_experiment (st : ExperimentRun features) :
  results_metrics (run_pipeline st) = [] ->
  loss_histories st = [] ->
  (length (np_unique (groups features (run_pipeline st))) < 2)%nat ->
  (length (np_unique (ml_groups features (run_pipeline st))) < 2)%nat ->
  experiment st
  = (mk_run features
       (set_results_metrics features (run_pipeline st) all_failed_metrics)
       no_loss_histories (Some all_failed_metrics),
     all_failed_metrics)
  /\ select_best_model (snd (experiment st)) = BestModel "LSTM".
Proof.
  intros Hres Hloss Hdl Hml.
  rewrite (run_experiment_too_few st Hres Hloss Hdl Hml).
  split; reflexivity.
Qed.

End ExperimentFacts.

Lemma too_few_units_for_an_experiment_witness :
  select_best_model
    (snd (run_experiment Q exp_series sqrt_digits (fun _ _ => NaN)
            (fun name _ w => demo_predict name w) (fun _ _ => [])
            one_unit_run))
  = BestModel "LSTM".
Proof.
  refine (proj2 (too_few_units_for_an_experiment Q exp_series sqrt_digits
                   (fun _ _ => NaN) (fun name _ w => demo_predict name w)
                   (fun _ _ => []) one_unit_run _ _ _ _)).
  - vm_compute. reflexivity.
  - vm_compute. reflexivity.
  - vm_compute. lia.
  - vm_compute. lia.
Defined.

(** * The model the multi-unit plot cannot reload *)

Section Reloading.

Variable features : Type.
Variable np_exp : Q -> Q.
Variable np_sqrt : Q -> Q.
Variable norm_ppf : Q -> Q.
Variable rng : Type.
Variable default_rng : Z -> rng.
Variable rng_choice : rng -> list Q -> nat -> list Q * rng.
Variable model_predict : string -> window features -> Q.

Let global_interval :=
  plot_conformal_prediction_interval features np_exp rng default_rng
    rng_choice model_predict.
Let single_unit :=
  plot_conformal_single_unit features np_exp np_sqrt norm_ppf rng
    default_rng rng_choice model_predict.
Let per_unit :=
  evaluate_conformal_metrics_per_unit features np_exp np_sqrt norm_ppf rng
    default_rng rng_choice model_predict.
Let multiple_units :=
  plot_conformal_multiple_units features np_exp rng default_rng rng_choice
    model_predict.

(** X23: when CNNGRU has the best S-score, [plot_conformal_multiple_units]
    raises UnboundLocalError and leaves the pipeline as it was, whatever
    the units asked for and whether or not a margin is cached: its reload
    code tests for the name TCN.  The three other entry points reload
    CNNGRU and never raise this error. *)
Theorem cnngru_is_not_reloaded_by_multiple_units
  (self : ExperimentPipeline features) (unit_ids : list Z) (unit : Z)
  (alpha : Q) (fold_splits : nat) (method : margin_method) :
  select_best_model (results_metrics self) = BestModel "CNNGRU" ->
  multiple_units self unit_ids alpha = (self, Raised UnboundLocalError) /\
  snd (global_interval self alpha) <> Raised UnboundLocalError /\
  snd (single_unit self unit alpha fold_splits) <> Raised UnboundLocalError /\
  snd (per_unit self alpha fold_splits method) <> Raised UnboundLocalError.
Proof.
  intro Hsel. repeat split.
  - unfold multiple_units, plot_conformal_multiple_units. rewrite Hsel.
    reflexivity.
  - unfold global_interval, plot_conformal_prediction_interval. rewrite Hsel.
    change (name_in "CNNGRU" reloadable) with true. cbn [negb].
    repeat match goal with
           | |- context [ if ?b then _ else _ ] => destruct b
           end; cbn [snd]; discriminate.
  - unfold single_unit, plot_conformal_single_unit. rewrite Hsel.
    change (name_in "CNNGRU" reloadable) with true. cbn [negb].
    repeat match goal with
           | |- context [ if ?b then _ else _ ] => destruct b
           end; cbn [snd]; discriminate.
  - unfold per_unit, evaluate_conformal_metrics_per_unit. rewrite Hsel.
    change (name_in "CNNGRU" reloadable) with true. cbn [negb].
    destruct ((length (train_units (np_unique (map (s_unit features)
                 (sample_pool features self "CNNGRU")))) =? 0)%nat
              || (length (test_units (np_unique (map (s_unit features)
                    (sample_pool features self "CNNGRU")))) =? 0)%nat);
      [ cbn [snd]; discriminate | ].
    destruct method as [ | | other ]; cbv zeta.
    + cbn [snd]. discriminate.
    + match goal with
      | |- context [ match ?c with [] => None | _ :: _ => _ end ] =>
          destruct c
      end; cbn [snd]; discriminate.
    + cbn [snd]. discriminate.
Qed.

End Reloading.

Lemma cnngru_is_not_reloaded_by_multiple_units_witness :
  plot_conformal_multiple_units Q exp_series Z lcg_seed lcg_choice
    demo_predict cnngru_pipeline [1%Z; 2%Z] (1 # 20)
  = (cnngru_pipeline, Raised UnboundLocalError).
Proof.
  refine (proj1 (cnngru_is_not_reloaded_by_multiple_units Q exp_series
                   sqrt_digits ppf_table Z lcg_seed lcg_choice demo_predict
                   cnngru_pipeline [1%Z; 2%Z] 1%Z (1 # 20) 5%nat Complex _)).
  vm_compute. reflexivity.
Defined.

(** * Properties of the drawing loop of the multi-unit plot *)

Lemma postprocess_unit_keeps_length (raw : list Q) :
  length (postprocess_unit raw) = length raw.
Proof.
  unfold postprocess_unit, clip0.
  now rewrite length_map, enforce_monotonic_length.
Qed.

Lemma segment_length_bounds (preds : list Q) :
  (segment_length preds <= length preds)%nat /\
  (preds <> [] -> (0 < segment_length preds)%nat).
Proof.
  unfold segment_length.
  destruct (first_nonpositive preds) as [ k | ] eqn:E.
  - destruct (first_nonpositive_some preds k E) as [Hk _]. split; lia.
  - split; [ lia | ]. intro H. now apply nonempty_length.
Qed.

Lemma segment_positive_before_end (preds : list Q) (i : nat) :
  (S i < segment_length preds)%nat -> 0 < nth i preds 0.
Proof.
  unfold segment_length.
  destruct (first_nonpositive preds) as [ k | ] eqn:E; intro H.
  - destruct (first_nonpositive_some preds k E) as [_ [_ Hpos]].
    apply Hpos. lia.
  - apply (first_nonpositive_none preds E). lia.
Qed.

Lemma segment_lower_length (margin : np_float) (preds : list Q) :
  length (segment_lower margin preds) = length preds.
Proof.
  destruct margin; unfold segment_lower; rewrite length_map;
    [ apply interval_lower_length | reflexivity .. ].
Qed.

Lemma segment_ends_at_zero (preds : list Q) :
  nth (segment_length preds - 1) preds 0 <= 0 \/
  segment_length preds = length preds.
Proof.
  unfold segment_length.
  destruct (first_nonpositive preds) as [ k | ] eqn:E; [ left | now right ].
  replace (S k - 1)%nat with k by lia.
  exact (proj1 (proj2 (first_nonpositive_some preds k E))).
Qed.

Section DrawingFacts.

Variable features : Type.
Variable model_predict : string -> window features -> Q.

Let segments := multi_unit_segments features model_predict.

(** The post-processed predictions of a unit on its sliding windows. *)
Let trajectory (self : ExperimentPipeline features) (name : string)
  (unit : Z) : list Q :=
  postprocess_unit
    (map (model_predict name)
         (unit_windows features (sequence_length self)
                       (map (row_features features)
                            (unit_rows features self unit)))).

(** What holds of one drawn segment: it is the beginning of the
    trajectory of one of the units asked for, up to and including the
    first prediction at zero, or the whole trajectory when no prediction
    is at zero; and it has one lower bound per point. *)
Let well_formed (self : ExperimentPipeline features) (name : string)
  (unit_ids : list Z) (s : segment) : Prop :=
  In (seg_unit s) unit_ids /\
  seg_preds s <> [] /\
  seg_preds s
  = firstn (length (seg_preds s)) (trajectory self name (seg_unit s)) /\
  (forall i, (S i < length (seg_preds s))%nat -> 0 < nth i (seg_preds s) 0) /\
  (nth (length (seg_preds s) - 1) (seg_preds s) 0 <= 0 \/
   seg_preds s = trajectory self name (seg_unit s)) /\
  length (seg_lower s) = length (seg_preds s).

(** X24: the curves [plot_conformal_multiple_units] draws follow one
    another on the x axis: the first starts at the initial offset, each
    next one where the previous one ended plus the gap, and a skipped
    unit takes no room.  Each curve belongs to one of the units asked
    for and is the beginning of that unit's post-processed predictions:
    it has at least one point, every point before its last is positive,
    and its last point is at zero unless the curve is the whole
    trajectory; and it has as many lower bounds as points. *)
Theorem multi_unit_segments_layout (self : ExperimentPipeline features)
  (best_model_name : string) (best_margin : np_float) (gap : Z)
  (unit_ids : list Z) (offset : Z) :
  laid_out offset gap
    (segments self best_model_name best_margin gap offset unit_ids) /\
  Forall (well_formed self best_model_name unit_ids)
    (segments self best_model_name best_margin gap offset unit_ids).
Proof.
  unfold segments. revert offset.
  induction unit_ids as [ | unit rest IH ]; intro offset.
  - split; [ exact I | constructor ].
  - assert (Hrest : forall o,
               Forall (well_formed self best_model_name (unit :: rest))
                 (multi_unit_segments features model_predict self
                    best_model_name best_margin gap o rest)).
    { intro o. destruct (IH o) as [_ H]. revert H. apply Forall_impl.
      intros s [Hin Hs]. split; [ now right | exact Hs ]. }
    cbn [multi_unit_segments].
    destruct (length (unit_rows features self unit) <? sequence_length self)%nat;
      [ split; [ apply IH | apply Hrest ] | ].
    set (X_list := unit_windows features (sequence_length self)
                     (map (row_features features)
                          (unit_rows features self unit))).
    destruct (length X_list =? 0)%nat eqn:EX;
      [ split; [ apply IH | apply Hrest ] | ].
    apply Nat.eqb_neq in EX.
    set (preds := postprocess_unit (map (model_predict best_model_name) X_list)).
    assert (Hlen : length preds = length X_list).
    { unfold preds. now rewrite postprocess_unit_keeps_length, length_map. }
    assert (Hne : preds <> []) by (apply nonempty_length; lia).
    destruct (segment_length_bounds preds) as [Hle Hpos].
    specialize (Hpos Hne).
    assert (Hseg : length (firstn (segment_length preds) preds)
                   = segment_length preds)
      by (rewrite length_firstn; lia).
    split.
    + cbn [laid_out seg_offset seg_preds]. split; [ reflexivity | ].
      rewrite Hseg. apply IH.
    + constructor; [ | apply Hrest ].
      unfold well_formed. cbn [seg_unit seg_preds seg_lower].
      change (trajectory self best_model_name unit) with preds.
      rewrite Hseg.
      split; [ now left | ]. split; [ apply nonempty_length; lia | ].
      split; [ reflexivity | ]. split; [ | split ].
      * intros i Hi. rewrite nth_firstn.
        replace (i <? segment_length preds)%nat with true
          by (symmetry; apply Nat.ltb_lt; lia).
        now apply segment_positive_before_end.
      * destruct (segment_ends_at_zero preds) as [Hz | Hall].
        -- left. rewrite nth_firstn.
           replace (segment_length preds - 1 <? segment_length preds)%nat
             with true by (symmetry; apply Nat.ltb_lt; lia).
           exact Hz.
        -- right. rewrite Hall. apply firstn_all.
      * rewrite segment_lower_length. exact Hseg.
Qed.

End DrawingFacts.
